(** * IP address to text conversion of the STM32L562E-DK virtual I/O driver

    A shallow embedding of [ip4_2a] and [ip6_2a] from
    [Drivers/Platform/vio_STM32L562E-DK.c], with the memory they touch
    (the address bytes, the local hextet array, the caller's character
    buffer) as lists accessed through bounds-checked loads and stores.

    Integers are in [Z].  The [int32_t] locals [i], [j], [nmax] and [idx]
    stay between 0 and 40, so their arithmetic is written without
    wrap-around; the conversions to [uint16_t] and to [unsigned int] are
    written out.  [buf_len] is the caller's [uint32_t] capacity argument. *)

From Stdlib Require Import ZArith Lia List Bool Ascii String.
From Stdlib.Strings Require Import Byte.
From stdpp Require Import base list.

Local Open Scope Z_scope.

(** ** Outcomes of running C code *)

(** An access outside an object is undefined behaviour in C; the model makes
    it an explicit fault that names the offending index.  [OutOfFuel] is
    what a loop yields when its iteration budget is spent before its guard
    turns false, so [Done] always means that every loop left by its guard. *)
Inductive fault : Type :=
| ReadOutOfBounds (i : Z)
| WriteOutOfBounds (i : Z)
| OutOfFuel.

Inductive result (A : Type) : Type :=
| Done (a : A)
| Fault (f : fault).

Arguments Done {A} a.
Arguments Fault {A} f.

Definition bind {A B : Type} (r : result A) (k : A -> result B) : result B :=
  match r with
  | Done a => k a
  | Fault f => Fault f
  end.

Notation "'let*' p ':=' e 'in' k" := (bind e (fun p => k))
  (at level 10, p pattern, e at level 200, k at level 200).

(** ** Memory objects *)

Definition load {A : Type} (m : list A) (i : Z) : result A :=
  if i <? 0 then Fault (ReadOutOfBounds i)
  else match m !! Z.to_nat i with
       | Some x => Done x
       | None => Fault (ReadOutOfBounds i)
       end.

Definition store {A : Type} (m : list A) (i : Z) (x : A) : result (list A) :=
  if (0 <=? i) && (i <? Z.of_nat (length m))
  then Done (<[Z.to_nat i := x]> m)
  else Fault (WriteOutOfBounds i).

(** A [uint8_t] operand, promoted to [int]. *)
Definition load_u8 (m : list byte) (i : Z) : result Z :=
  let* b := load m i in Done (Z.of_N (Byte.to_N b)).

(** Conversion to [uint16_t]. *)
Definition u16 (x : Z) : Z := x mod 65536.

(** ** The C library's [sprintf], as far as the driver uses it *)

(** [sprintf] belongs to the C library, not to the driver; the model follows
    the C standard for the two conversions that occur, ["%x"] and ["%d"]. *)

Definition NUL : ascii := Ascii.zero.
Definition colon : ascii := ":"%char.
Definition dot : ascii := "."%char.

(** The character for the digit [d]: ['0'] to ['9'], then ['a'] to ['f']. *)
Definition digit_char (d : Z) : ascii :=
  if d <? 10 then ascii_of_N (Z.to_N (48 + d)) else ascii_of_N (Z.to_N (87 + d)).

(** Digits of [n] in [base], most significant first, at least one digit. *)
Fixpoint digits (fuel : nat) (base n : Z) (acc : list ascii) : list ascii :=
  match fuel with
  | O => acc
  | S f =>
      let acc' := digit_char (n mod base) :: acc in
      if n / base =? 0 then acc' else digits f base (n / base) acc'
  end.

(** ["%x"]: the argument as [unsigned int], lowercase hexadecimal. *)
Definition fmt_x (n : Z) : list ascii := digits 8 16 (n mod 2 ^ 32) [].

(** ["%d"]: the argument as [int], decimal, with a sign when negative. *)
Definition fmt_d (n : Z) : list ascii :=
  if n <? 0 then "-"%char :: digits 10 10 (- n) [] else digits 10 10 n [].

Fixpoint write_chars (buf : list ascii) (j : Z) (s : list ascii)
  : result (list ascii) :=
  match s with
  | [] => Done buf
  | c :: s' => let* buf' := store buf j c in write_chars buf' (j + 1) s'
  end.

(** [sprintf(&buf[j], ...)] where the directives expand to [s]: the
    characters, then a terminating NUL; the value is the number of
    characters without the NUL. *)
Definition sprintf (buf : list ascii) (j : Z) (s : list ascii)
  : result (Z * list ascii) :=
  let* buf' := write_chars buf j (s ++ [NUL]) in
  Done (Z.of_nat (length s), buf').

(** The text a reader of the C string at [buf] sees: the characters before
    the first NUL, or nothing usable when the buffer holds no NUL. *)
Fixpoint c_string (buf : list ascii) : option (list ascii) :=
  match buf with
  | [] => None
  | c :: buf' =>
      if Ascii.eqb c NUL then Some []
      else match c_string buf' with
           | Some s => Some (c :: s)
           | None => None
           end
  end.

(** ** [ip4_2a] *)

(** The four bytes are arguments of one call of [sprintf], and C fixes no
    order for reading them; the model reads them from left to right.  On an
    address of 4 bytes or more the order makes no difference.  On a shorter
    one every order meets a read behind its end, but which index comes
    first is the model's choice. *)
Definition ip4_2a (ip4_addr : list byte) (buf : list ascii) (buf_len : Z)
  : result (list ascii) :=
  if buf_len <? 16 then Done buf
  else
    let* a0 := load_u8 ip4_addr 0 in
    let* a1 := load_u8 ip4_addr 1 in
    let* a2 := load_u8 ip4_addr 2 in
    let* a3 := load_u8 ip4_addr 3 in
    let* (_, buf') := sprintf buf 0
       (fmt_d a0 ++ dot :: fmt_d a1 ++ dot :: fmt_d a2 ++ dot :: fmt_d a3) in
    Done buf'.

(** ** [ip6_2a] *)

(** [for (i = 0; i < 16; i += 2) v16[i >> 1] = (uint16_t)(a[i] << 8) | a[i+1];]
    The two bytes are operands of one [|], read in no fixed order; the model
    reads [a[i]] first, which makes no difference unless the address is
    shorter than 16 bytes. *)
Fixpoint read_hextets (fuel : nat) (ip6_addr : list byte) (i : Z)
    (v16 : list Z) : result (list Z) :=
  match fuel with
  | O => Fault OutOfFuel
  | S f =>
      if i <? 16 then
        let* hi := load_u8 ip6_addr i in
        let* lo := load_u8 ip6_addr (i + 1) in
        let* v16' := store v16 (Z.shiftr i 1) (u16 (Z.lor (u16 (Z.shiftl hi 8)) lo)) in
        read_hextets f ip6_addr (i + 2) v16'
      else Done v16
  end.

(** [for (j = i; j < 8-1; j++) if (v16[j+1] != 0U) break;] *)
Fixpoint zero_block_end (fuel : nat) (v16 : list Z) (j : Z) : result Z :=
  match fuel with
  | O => Fault OutOfFuel
  | S f =>
      if j <? 8 - 1 then
        let* x := load v16 (j + 1) in
        if negb (x =? 0) then Done j else zero_block_end f v16 (j + 1)
      else Done j
  end.

(** The search for the largest block of consecutive zero hextets; the
    state is [(i, nmax, idx)], the value is [(nmax, idx)]. *)
Fixpoint find_zero_block (fuel : nat) (v16 : list Z) (i nmax idx : Z)
  : result (Z * Z) :=
  match fuel with
  | O => Fault OutOfFuel
  | S f =>
      if i <? 8 - 1 then
        let* x := load v16 i in
        if negb (x =? 0) then find_zero_block f v16 (i + 1) nmax idx
        else
          let* j := zero_block_end 8 v16 i in
          if i =? j then find_zero_block f v16 (i + 1) nmax idx
          else if j - i >=? nmax
               then find_zero_block f v16 (j + 1) (j - i + 1) i
               else find_zero_block f v16 (j + 1) nmax idx
      else Done (nmax, idx)
  end.

(** [for (i = j = 0; i < idx; ) { j += sprintf(&buf[j], "%x", v16[i]);
     if (++i == idx) break;  buf[j++] = ':'; }] with state [(i, j, buf)]. *)
Fixpoint print_head (fuel : nat) (v16 : list Z) (idx i j : Z)
    (buf : list ascii) : result (Z * Z * list ascii) :=
  match fuel with
  | O => Fault OutOfFuel
  | S f =>
      if i <? idx then
        let* x := load v16 i in
        let* (n, buf1) := sprintf buf j (fmt_x x) in
        if i + 1 =? idx then Done (i + 1, j + n, buf1)
        else
          let* buf2 := store buf1 (j + n) colon in
          print_head f v16 idx (i + 1) (j + n + 1) buf2
      else Done (i, j, buf)
  end.

(** [for (...; i < 8; i++) j += sprintf(&buf[j], ":%x", v16[i]);] *)
Fixpoint print_tail (fuel : nat) (v16 : list Z) (i j : Z)
    (buf : list ascii) : result (Z * list ascii) :=
  match fuel with
  | O => Fault OutOfFuel
  | S f =>
      if i <? 8 then
        let* x := load v16 i in
        let* (n, buf1) := sprintf buf j (colon :: fmt_x x) in
        print_tail f v16 (i + 1) (j + n) buf1
      else Done (j, buf)
  end.

(** The block guarded by [if (i < 8)], entered with the cursor [j]. *)
Definition print_rest (v16 : list Z) (nmax i j : Z) (buf : list ascii)
  : result (Z * list ascii) :=
  if i <? 8 then
    let* buf1 := store buf j colon in
    let* (j2, buf2) := print_tail 9 v16 (i + nmax) (j + 1) buf1 in
    let* c := load buf2 (j2 - 1) in
    if Ascii.eqb c colon
    then let* buf3 := store buf2 j2 colon in Done (j2 + 1, buf3)
    else Done (j2, buf2)
  else Done (j, buf).

(** The local array [uint16_t v16[8]] is not initialised by the code; every
    slot is stored to before it is loaded, so the model starts it at 0. *)
Definition v16_init : list Z := replicate 8 0.

Definition ip6_2a (ip6_addr : list byte) (buf : list ascii) (buf_len : Z)
  : result (list ascii) :=
  if buf_len <? 40 then Done buf
  else
    let* v16 := read_hextets 9 ip6_addr 0 v16_init in
    let* (nmax, idx) := find_zero_block 8 v16 0 0 8 in
    let* (i, j, buf1) := print_head 9 v16 idx 0 0 buf in
    let* (j2, buf2) := print_rest v16 nmax i j buf1 in
    store buf2 j2 NUL.

(** ** Sample inputs *)

Definition byte_of_Z (x : Z) : byte :=
  match Byte.of_N (Z.to_N x) with
  | Some b => b
  | None => x00
  end.

(** The 16 bytes of the address with the given hextets. *)
Definition addr_of_hextets (hs : list Z) : list byte :=
  flat_map (fun h => [byte_of_Z (h / 256); byte_of_Z (h mod 256)]) hs.

(** A buffer of [n] bytes with arbitrary, non-NUL content. *)
Definition fresh_buf (n : nat) : list ascii := replicate n "#"%char.

(** * The rest of the driver *)

(** The driver is modelled as built for the board, with neither [CMSIS_VOUT]
    nor [CMSIS_VIN] defined.  One thread runs at a time in this model, so
    the LCD mutex that brackets the drawing calls is left out. *)

Definition u8 (x : Z) : Z := x mod 256.
Definition u32 (x : Z) : Z := x mod 2 ^ 32.

(** ** What the sources take from headers and libraries *)

Inductive font : Type := Font12 | Font16.

(** The constants of [cmsis_vio.h] and of the GUI library are not part of
    the sources, so they are parameters, as is the way [GUI_DisplayChar]
    changes pixels. *)
Record platform : Type := {
  vioLED0 : Z;
  vioLED1 : Z;
  vioBUTTON0 : Z;
  vioLevelNone : Z;
  vioLevelHeading : Z;
  vioLevelMessage : Z;
  vioLevelError : Z;
  vioMotionGyro : Z;
  vioMotionAccelero : Z;
  GUI_COLOR_BLACK : Z;
  GUI_COLOR_WHITE : Z;
  GUI_COLOR_GREEN : Z;
  GUI_COLOR_BLUE : Z;
  GUI_COLOR_RED : Z;
  GUI_COLOR_DARKBLUE : Z;
  glyph_pixels : font -> Z -> Z -> Z -> ascii -> (Z -> Z -> Z) -> Z -> Z -> Z
}.

(** The LCD as the driver can observe it through the GUI library: the
    pixels behind [GUI_GetPixel] and [GUI_SetPixel], the current font and
    text colour, and the characters drawn so far, oldest first. *)
Record glyph : Type := mk_glyph {
  g_x : Z;
  g_y : Z;
  g_ch : ascii;
  g_font : font;
  g_color : Z
}.

Record lcd : Type := mk_lcd {
  pixel : Z -> Z -> Z;
  text_font : font;
  text_color : Z;
  glyphs : list glyph
}.

Definition GUI_SetFont (f : font) (scr : lcd) : lcd :=
  mk_lcd (pixel scr) f (text_color scr) (glyphs scr).

Definition GUI_SetTextColor (c : Z) (scr : lcd) : lcd :=
  mk_lcd (pixel scr) (text_font scr) c (glyphs scr).

Definition GUI_GetPixel (x y : Z) (scr : lcd) : Z := pixel scr x y.

Definition GUI_SetPixel (x y c : Z) (scr : lcd) : lcd :=
  mk_lcd (fun x' y' => if (x' =? x) && (y' =? y) then c else pixel scr x' y')
    (text_font scr) (text_color scr) (glyphs scr).

Definition GUI_DisplayChar (pf : platform) (x y : Z) (ch : ascii) (scr : lcd)
  : lcd :=
  mk_lcd (glyph_pixels pf (text_font scr) (text_color scr) x y ch (pixel scr))
    (text_font scr) (text_color scr)
    (glyphs scr ++ [mk_glyph x y ch (text_font scr) (text_color scr)]).

(** ** The driver's variables *)

Definition VIO_PRINT_MAX_SIZE : Z := 64.
Definition VIO_PRINTMEM_NUM : Z := 4.
Definition VIO_VALUE_NUM : Z := 3.
Definition VIO_VALUEXYZ_NUM : Z := 3.
Definition VIO_IPV6_ADDRESS_NUM : Z := 2.

Record displayArea : Type := mk_area {
  xOrigin : Z;
  xWidth : Z;
  xPos : Z;
  yOrigin : Z;
  yHeight : Z;
  yPos : Z;
  fontWidth : Z;
  fontHeight : Z
}.

Definition set_xPos (x : Z) (a : displayArea) : displayArea :=
  mk_area (xOrigin a) (xWidth a) x (yOrigin a) (yHeight a) (yPos a)
    (fontWidth a) (fontHeight a).

Definition set_yPos (x : Z) (a : displayArea) : displayArea :=
  mk_area (xOrigin a) (xWidth a) (xPos a) (yOrigin a) (yHeight a) x
    (fontWidth a) (fontHeight a).

(** The file's static variables, the two LEDs and the LCD. *)
Record vio : Type := mk_vio {
  vioSignalIn : Z;
  vioSignalOut : Z;
  vioPrintMem : list (list ascii);
  vioValue : list Z;
  vioValueXYZ : list (Z * Z * Z);
  vioAddrIPv4 : list (list byte);
  vioAddrIPv6 : list (list byte);
  ip_ascii : list ascii;
  display : list displayArea;
  led_red : bool;
  led_green : bool;
  screen : lcd
}.

Definition set_vioSignalIn (x : Z) (st : vio) : vio :=
  mk_vio x (vioSignalOut st) (vioPrintMem st) (vioValue st) (vioValueXYZ st)
    (vioAddrIPv4 st) (vioAddrIPv6 st) (ip_ascii st) (display st) (led_red st)
    (led_green st) (screen st).

Definition set_vioSignalOut (x : Z) (st : vio) : vio :=
  mk_vio (vioSignalIn st) x (vioPrintMem st) (vioValue st) (vioValueXYZ st)
    (vioAddrIPv4 st) (vioAddrIPv6 st) (ip_ascii st) (display st) (led_red st)
    (led_green st) (screen st).

Definition set_vioPrintMem (x : list (list ascii)) (st : vio) : vio :=
  mk_vio (vioSignalIn st) (vioSignalOut st) x (vioValue st) (vioValueXYZ st)
    (vioAddrIPv4 st) (vioAddrIPv6 st) (ip_ascii st) (display st) (led_red st)
    (led_green st) (screen st).

Definition set_vioValue (x : list Z) (st : vio) : vio :=
  mk_vio (vioSignalIn st) (vioSignalOut st) (vioPrintMem st) x
    (vioValueXYZ st) (vioAddrIPv4 st) (vioAddrIPv6 st) (ip_ascii st)
    (display st) (led_red st) (led_green st) (screen st).

Definition set_vioValueXYZ (x : list (Z * Z * Z)) (st : vio) : vio :=
  mk_vio (vioSignalIn st) (vioSignalOut st) (vioPrintMem st) (vioValue st) x
    (vioAddrIPv4 st) (vioAddrIPv6 st) (ip_ascii st) (display st) (led_red st)
    (led_green st) (screen st).


Definition set_vioAddrIPv6 (x : list (list byte)) (st : vio) : vio :=
  mk_vio (vioSignalIn st) (vioSignalOut st) (vioPrintMem st) (vioValue st)
    (vioValueXYZ st) (vioAddrIPv4 st) x (ip_ascii st) (display st)
    (led_red st) (led_green st) (screen st).

Definition set_ip_ascii (x : list ascii) (st : vio) : vio :=
  mk_vio (vioSignalIn st) (vioSignalOut st) (vioPrintMem st) (vioValue st)
    (vioValueXYZ st) (vioAddrIPv4 st) (vioAddrIPv6 st) x (display st)
    (led_red st) (led_green st) (screen st).

Definition set_display (x : list displayArea) (st : vio) : vio :=
  mk_vio (vioSignalIn st) (vioSignalOut st) (vioPrintMem st) (vioValue st)
    (vioValueXYZ st) (vioAddrIPv4 st) (vioAddrIPv6 st) (ip_ascii st) x
    (led_red st) (led_green st) (screen st).

Definition set_led_red (x : bool) (st : vio) : vio :=
  mk_vio (vioSignalIn st) (vioSignalOut st) (vioPrintMem st) (vioValue st)
    (vioValueXYZ st) (vioAddrIPv4 st) (vioAddrIPv6 st) (ip_ascii st)
    (display st) x (led_green st) (screen st).

Definition set_led_green (x : bool) (st : vio) : vio :=
  mk_vio (vioSignalIn st) (vioSignalOut st) (vioPrintMem st) (vioValue st)
    (vioValueXYZ st) (vioAddrIPv4 st) (vioAddrIPv6 st) (ip_ascii st)
    (display st) (led_red st) x (screen st).

Definition set_screen (x : lcd) (st : vio) : vio :=
  mk_vio (vioSignalIn st) (vioSignalOut st) (vioPrintMem st) (vioValue st)
    (vioValueXYZ st) (vioAddrIPv4 st) (vioAddrIPv6 st) (ip_ascii st)
    (display st) (led_red st) (led_green st) x.

(** [display[idx].field = ...]: one element of [display] is read, changed
    and written back. *)
Definition update_area (idx : Z) (f : displayArea -> displayArea) (st : vio)
  : result vio :=
  let* a := load (display st) idx in
  let* d := store (display st) idx (f a) in
  Done (set_display d st).

(** ** [displayScrollVertical] *)

(** [for (i = from; i < bound; i++) body], with a [uint32_t] counter that the
    body does not assign to and a bound that it does not change: the loop
    makes [bound - from] passes when that is positive and none otherwise.
    The value is the counter and the state at the exit. *)
Fixpoint for_passes {St : Type} (n : nat) (i bound : Z)
    (body : Z -> St -> St) (s : St) : Z * St :=
  match n with
  | O => (i, s)
  | S n' =>
      if i <? bound then for_passes n' (u32 (i + 1)) bound body (body i s)
      else (i, s)
  end.

Definition for_u32 {St : Type} (from bound : Z) (body : Z -> St -> St)
    (s : St) : Z * St :=
  for_passes (Z.to_nat (bound - from)) from bound body s.

Definition scroll_area (pf : platform) (a : displayArea) (scr : lcd) : lcd :=
  let '(y, scr1) :=
    for_u32 (yOrigin a) (u32 (yHeight a - fontHeight a))
      (fun y scr =>
         snd (for_u32 (xOrigin a) (xWidth a)
                (fun x scr =>
                   GUI_SetPixel x y
                     (GUI_GetPixel x (u32 (y + fontHeight a)) scr) scr)
                scr))
      scr in
  snd (for_u32 y (yHeight a)
         (fun y scr =>
            snd (for_u32 (xOrigin a) (xWidth a)
                   (fun x scr => GUI_SetPixel x y (GUI_COLOR_BLACK pf) scr)
                   scr))
         scr1).

Definition displayScrollVertical (pf : platform) (idx : Z) (st : vio)
  : result vio :=
  let* a := load (display st) idx in
  Done (set_screen (scroll_area pf a (screen st)) st).

(** ** [displayString] *)

Definition LF : ascii := "010"%char.
Definition CR : ascii := "013"%char.

(** [if (display[idx].yPos >= display[idx].yHeight) { scroll; yPos -= fontHeight; }] *)
Definition stay_in_last_row (pf : platform) (idx : Z) (st : vio) : result vio :=
  let* a := load (display st) idx in
  if yPos a >=? yHeight a then
    let* st1 := displayScrollVertical pf idx st in
    update_area idx (fun a => set_yPos (u16 (yPos a - fontHeight a)) a) st1
  else Done st.

(** The [switch (ch)] of the loop body. *)
Definition display_char (pf : platform) (idx : Z) (ch : ascii) (st : vio)
  : result vio :=
  if Ascii.eqb ch LF then
    let* st1 :=
      update_area idx (fun a => set_yPos (u16 (yPos a + fontHeight a)) a) st in
    stay_in_last_row pf idx st1
  else if Ascii.eqb ch CR then
    update_area idx (fun a => set_xPos (xOrigin a) a) st
  else
    let* a := load (display st) idx in
    let st1 := set_screen (GUI_DisplayChar pf (xPos a) (yPos a) ch (screen st)) st in
    let* st2 :=
      update_area idx (fun a => set_xPos (u16 (xPos a + fontWidth a)) a) st1 in
    let* a2 := load (display st2) idx in
    let* st3 :=
      (if xPos a2 >=? xWidth a2 then
         let* st' := update_area idx (fun a => set_xPos (xOrigin a) a) st2 in
         update_area idx (fun a => set_yPos (u16 (yPos a + fontHeight a)) a) st'
       else Done st2) in
    stay_in_last_row pf idx st3.

(** [while (str[i] != 0) { ch = str[i++]; switch (ch) ... }] with the
    [uint8_t] index [i]. *)
Fixpoint displayString_loop (fuel : nat) (pf : platform) (idx : Z)
    (str : list ascii) (i : Z) (st : vio) : result vio :=
  match fuel with
  | O => Fault OutOfFuel
  | S f =>
      let* c := load str i in
      if Ascii.eqb c NUL then Done st
      else
        let* ch := load str i in
        let* st1 := display_char pf idx ch st in
        displayString_loop f pf idx str (u8 (i + 1)) st1
  end.

(** 257 passes are as good as any number: the index takes 256 values, so a
    loop that has not met a NUL after 256 passes never will. *)
Definition displayString (pf : platform) (idx : Z) (str : list ascii)
    (st : vio) : result vio :=
  displayString_loop 257 pf idx str 0 st.

(** ** [vioInit] *)

(** One element of [display] as [vioInit] assigns it, for [lines] rows of
    text; [XSize] is what [BSP_LCD_GetXSize] delivered. *)
Definition init_area (fw fh x0 y0 lines XSize : Z) : displayArea :=
  mk_area x0 (u16 (u32 (XSize - 4))) x0 y0 (u16 (lines * fh + y0)) y0 fw fh.

(** The LEDs and the LCD as the board support package and the GUI library
    leave them are arguments: that code is not part of the sources. *)
Definition vioInit (pf : platform) (XSize : Z) (red green : bool)
    (scr : lcd) (st : vio) : result vio :=
  let st1 :=
    mk_vio 0 0
      (replicate 4 (replicate 64 NUL)) (replicate 3 0)
      (replicate 3 (0, 0, 0))
      (replicate 2 (replicate 4 x00)) (replicate 2 (replicate 16 x00))
      (ip_ascii st) (display st) red green scr in
  let* d1 := store (display st1) (vioLevelHeading pf)
               (init_area 11 16 3 4 2 XSize) in
  let* d2 := store d1 (vioLevelNone pf) (init_area 7 12 3 40 2 XSize) in
  let* d3 := store d2 (vioLevelError pf) (init_area 7 12 3 68 4 XSize) in
  let* d4 := store d3 (vioLevelMessage pf) (init_area 7 12 3 120 9 XSize) in
  Done (set_display d4 st1).

(** ** [vioPrint] *)

(** [vsnprintf(buf, size, format, args)] where the directives expand to
    [text]: as much of the text as fits before a terminating NUL; the value
    is the length of the whole text. *)
Definition vsnprintf (buf : list ascii) (size : Z) (text : list ascii)
  : result (Z * list ascii) :=
  let* buf' := write_chars buf 0 (take (Z.to_nat (size - 1)) text ++ [NUL]) in
  Done (Z.of_nat (length text), buf').

Definition print_level (pf : platform) (f : font) (c : Z) (level : Z)
    (st : vio) : result vio :=
  let st1 := set_screen (GUI_SetTextColor c (GUI_SetFont f (screen st))) st in
  let* mem := load (vioPrintMem st1) level in
  displayString pf level mem st1.

(** [vsnprintf(vioPrintMem[level], sizeof(vioPrintMem[level]), format, args)]:
    the row is written through a pointer to it, and not read.  With a level
    that is no index of [vioPrintMem] the pointer is behind the array and
    the call writes out of bounds; the fault names the row. *)
Definition vsnprintf_row (mem : list (list ascii)) (level size : Z)
    (text : list ascii) : result (Z * list (list ascii)) :=
  match (if level <? 0 then None else mem !! Z.to_nat level) with
  | Some row =>
      let* (ret, row') := vsnprintf row size text in
      Done (ret, <[Z.to_nat level := row']> mem)
  | None => Fault (WriteOutOfBounds level)
  end.

Definition vioPrint (pf : platform) (level : Z) (text : list ascii) (st : vio)
  : result (Z * vio) :=
  if level >? vioLevelError pf then Done (-1, st)
  else if level >? VIO_PRINTMEM_NUM then Done (-1, st)
  else
    let* (ret, pm) :=
      vsnprintf_row (vioPrintMem st) level VIO_PRINT_MAX_SIZE text in
    let st1 := set_vioPrintMem pm st in
    let* st2 :=
      (if level =? vioLevelNone pf then
         print_level pf Font12 (GUI_COLOR_WHITE pf) level st1
       else if level =? vioLevelHeading pf then
         print_level pf Font16 (GUI_COLOR_GREEN pf) level st1
       else if level =? vioLevelMessage pf then
         print_level pf Font12 (GUI_COLOR_BLUE pf) level st1
       else if level =? vioLevelError pf then
         print_level pf Font12 (GUI_COLOR_RED pf) level st1
       else Done st1) in
    Done (ret,
          set_screen (GUI_SetTextColor (GUI_COLOR_DARKBLUE pf)
                        (GUI_SetFont Font12 (screen st2))) st2).

(** ** Signals *)

Definition set_led (on : bool) (red : bool) (st : vio) : vio :=
  if red then set_led_red on st else set_led_green on st.

(** [BSP_LED_On] and [BSP_LED_Off] on the LED behind the mask [led]. *)
Definition drive_led (led : Z) (red : bool) (mask signal : Z) (st : vio)
  : vio :=
  if negb (Z.land mask led =? 0) then
    if negb (Z.land signal led =? 0) then set_led true red st
    else set_led false red st
  else st.

Definition vioSetSignal (pf : platform) (mask signal : Z) (st : vio) : vio :=
  let out1 := Z.land (vioSignalOut st) (u32 (Z.lnot mask)) in
  let out2 := Z.lor out1 (Z.land mask signal) in
  let st1 := set_vioSignalOut out2 st in
  let st2 := drive_led (vioLED0 pf) true mask signal st1 in
  drive_led (vioLED1 pf) false mask signal st2.

(** [pb] is what [BSP_PB_GetState (BUTTON_USER)] delivers. *)
Definition vioGetSignal (pf : platform) (pb : Z) (mask : Z) (st : vio)
  : Z * vio :=
  let st1 :=
    if negb (Z.land mask (vioBUTTON0 pf) =? 0) then
      if pb =? 1
      then set_vioSignalIn (Z.lor (vioSignalIn st) (vioBUTTON0 pf)) st
      else set_vioSignalIn
             (Z.land (vioSignalIn st) (u32 (Z.lnot (vioBUTTON0 pf)))) st
    else st in
  (Z.land (vioSignalIn st1) mask, st1).

(** ** Values *)

Definition vioSetValue (id value : Z) (st : vio) : result vio :=
  if id >=? VIO_VALUE_NUM then Done st
  else
    let* v := store (vioValue st) id value in
    Done (set_vioValue v st).

Definition vioGetValue (id : Z) (st : vio) : result Z :=
  if id >=? VIO_VALUE_NUM then Done 0
  else load (vioValue st) id.

Definition vioSetXYZ (id : Z) (valueXYZ : Z * Z * Z) (st : vio) : result vio :=
  if id >=? VIO_VALUEXYZ_NUM then Done st
  else
    let* v := store (vioValueXYZ st) id valueXYZ in
    Done (set_vioValueXYZ v st).

(** [if (id == sensor) if (BSP_MOTION_SENSOR_GetAxes(...) == BSP_ERROR_NONE)
    vioValueXYZ[index] = axes;] where [axes] is what the sensor delivered,
    or [None] when the call reported an error. *)
Definition read_sensor (sensor id : Z) (axes : option (Z * Z * Z)) (st : vio)
  : result vio :=
  if id =? sensor then
    match axes with
    | Some a =>
        let* v := store (vioValueXYZ st) id a in
        Done (set_vioValueXYZ v st)
    | None => Done st
    end
  else Done st.

Definition vioGetXYZ (pf : platform) (gyro accelero : option (Z * Z * Z))
    (id : Z) (st : vio) : result ((Z * Z * Z) * vio) :=
  if id >=? VIO_VALUEXYZ_NUM then Done ((0, 0, 0), st)
  else
    let* st1 := read_sensor (vioMotionGyro pf) id gyro st in
    let* st2 := read_sensor (vioMotionAccelero pf) id accelero st1 in
    let* v := load (vioValueXYZ st2) id in
    Done (v, st2).

(** ** Addresses *)

Definition CRLF : list ascii := [CR; LF; NUL].

(** The drawing that follows the conversion in [vioSetIPv4] and
    [vioSetIPv6]. *)
Definition show_ip_ascii (pf : platform) (st : vio) : result vio :=
  let st1 :=
    set_screen (GUI_SetTextColor (GUI_COLOR_WHITE pf)
                  (GUI_SetFont Font12 (screen st))) st in
  let* st2 := displayString pf (vioLevelNone pf) CRLF st1 in
  displayString pf (vioLevelNone pf) (ip_ascii st2) st2.



Definition vioSetIPv6 (pf : platform) (id : Z) (addrIPv6 : list byte)
    (st : vio) : result vio :=
  if id >=? VIO_IPV6_ADDRESS_NUM then Done st
  else
    let* v := store (vioAddrIPv6 st) id addrIPv6 in
    let st1 := set_vioAddrIPv6 v st in
    let* a := load (vioAddrIPv6 st1) id in
    let* buf := ip6_2a a (ip_ascii st1) 40 in
    show_ip_ascii pf (set_ip_ascii buf st1).

Definition vioGetIPv6 (id : Z) (st : vio) : result (list byte) :=
  if id >=? VIO_IPV6_ADDRESS_NUM then Done (replicate 16 x00)
  else load (vioAddrIPv6 st) id.

(** * The demonstration threads of [Blinky.c] *)

(** [vioLEDon] and [vioLEDoff] come from [cmsis_vio.h] too. *)
Record led_levels : Type := {
  vioLEDon : Z;
  vioLEDoff : Z
}.

(** One pass of the loop of [thrButton]: [last] goes in and comes out, with
    whether [osThreadFlagsSet (tid_thrLED, 1U)] was called. *)
Definition thrButton_pass (pf : platform) (pb : Z) (last : Z) (st : vio)
  : bool * Z * vio :=
  let '(state, st1) := vioGetSignal pf pb (vioBUTTON0 pf) st in
  if negb (state =? last) then (state =? 1, state, st1)
  else (false, last, st1).

(** One pass of the loop of [thrLED]; [flags] is what [osThreadFlagsWait]
    delivered.  The delays between the calls are not modelled. *)
Definition thrLED_pass (pf : platform) (lv : led_levels) (flags : Z)
    (active_flag : Z) (st : vio) : Z * vio :=
  let active_flag :=
    if flags =? 1 then Z.lxor active_flag 1 else active_flag in
  if active_flag =? 1 then
    let st1 := vioSetSignal pf (vioLED0 pf) (vioLEDoff lv) st in
    let st2 := vioSetSignal pf (vioLED1 pf) (vioLEDon lv) st1 in
    let st3 := vioSetSignal pf (vioLED0 pf) (vioLEDon lv) st2 in
    (active_flag, vioSetSignal pf (vioLED1 pf) (vioLEDoff lv) st3)
  else
    let st1 := vioSetSignal pf (vioLED0 pf) (vioLEDon lv) st in
    (active_flag, vioSetSignal pf (vioLED0 pf) (vioLEDoff lv) st1).

(** * Invariants and sample data of the driver *)

Definition in_u32 (x : Z) : Prop := 0 <= x < 2 ^ 32.

(** The variables have the shapes their declarations give them. *)
Definition vio_ok (st : vio) : Prop :=
  in_u32 (vioSignalIn st) /\ in_u32 (vioSignalOut st) /\
  length (vioPrintMem st) = 4%nat /\
  Forall (fun m => length m = 64%nat) (vioPrintMem st) /\
  length (vioValue st) = 3%nat /\
  length (vioValueXYZ st) = 3%nat /\
  length (vioAddrIPv4 st) = 2%nat /\
  length (vioAddrIPv6 st) = 2%nat /\
  length (ip_ascii st) = 40%nat /\
  length (display st) = 4%nat.

(** A display area whose cursor is inside it and whose [uint16_t] fields
    leave room for one step beyond the right and the lower edge. *)
Definition area_ok (a : displayArea) : Prop :=
  0 < fontWidth a /\ 0 < fontHeight a /\
  0 <= xOrigin a <= xPos a /\ xPos a < xWidth a /\
  0 <= yOrigin a <= yPos a /\ yPos a < yHeight a /\
  xWidth a + fontWidth a <= 65536 /\
  yHeight a + fontHeight a <= 65536.

(** Two areas that differ in the cursor at most. *)
Definition same_frame (a b : displayArea) : Prop :=
  xOrigin b = xOrigin a /\ xWidth b = xWidth a /\
  yOrigin b = yOrigin a /\ yHeight b = yHeight a /\
  fontWidth b = fontWidth a /\ fontHeight b = fontHeight a.

(** A character drawn at a cursor position of the area. *)
Definition glyph_in (a : displayArea) (g : glyph) : Prop :=
  xOrigin a <= g_x g < xWidth a /\ yOrigin a <= g_y g < yHeight a.

(** The characters [displayString] draws: all but CR and LF. *)
Definition printable (c : ascii) : bool :=
  negb (Ascii.eqb c LF) && negb (Ascii.eqb c CR).

(** What drawing on area [idx] may change: that area's cursor, the pixels
    and the list of characters drawn. *)
Definition drawn_on (idx : Z) (st st' : vio) (gs : list glyph) : Prop :=
  vioSignalIn st' = vioSignalIn st /\ vioSignalOut st' = vioSignalOut st /\
  vioPrintMem st' = vioPrintMem st /\ vioValue st' = vioValue st /\
  vioValueXYZ st' = vioValueXYZ st /\ vioAddrIPv4 st' = vioAddrIPv4 st /\
  vioAddrIPv6 st' = vioAddrIPv6 st /\ ip_ascii st' = ip_ascii st /\
  led_red st' = led_red st /\ led_green st' = led_green st /\
  text_font (screen st') = text_font (screen st) /\
  text_color (screen st') = text_color (screen st) /\
  glyphs (screen st') = glyphs (screen st) ++ gs /\
  exists a a',
    display st !! Z.to_nat idx = Some a /\
    display st' = <[Z.to_nat idx := a']> (display st) /\
    same_frame a a' /\ area_ok a'.

(** ** The effect of [displayString], one character at a time *)

(** The state with element [n] of [display] and the LCD replaced. *)
Definition with_area (n : nat) (a : displayArea) (scr : lcd) (st : vio) : vio :=
  set_display (<[n := a]> (display st)) (set_screen scr st).

(** The cursor after the check for the lower edge. *)
Definition stay_area (a : displayArea) : displayArea :=
  if yPos a >=? yHeight a then set_yPos (u16 (yPos a - fontHeight a)) a else a.

Definition stay_screen (pf : platform) (a : displayArea) (scr : lcd) : lcd :=
  if yPos a >=? yHeight a then scroll_area pf a scr else scr.

(** The cursor moved one column to the right, to the next row when the
    right edge is reached. *)
Definition advance_area (a : displayArea) : displayArea :=
  let a1 := set_xPos (u16 (xPos a + fontWidth a)) a in
  if xPos a1 >=? xWidth a1
  then set_yPos (u16 (yPos a1 + fontHeight a1)) (set_xPos (xOrigin a1) a1)
  else a1.

Definition line_feed_area (a : displayArea) : displayArea :=
  set_yPos (u16 (yPos a + fontHeight a)) a.

Definition area_after (ch : ascii) (a : displayArea) : displayArea :=
  if Ascii.eqb ch LF then stay_area (line_feed_area a)
  else if Ascii.eqb ch CR then set_xPos (xOrigin a) a
  else stay_area (advance_area a).

Definition screen_after (pf : platform) (ch : ascii) (a : displayArea)
    (scr : lcd) : lcd :=
  if Ascii.eqb ch LF then stay_screen pf (line_feed_area a) scr
  else if Ascii.eqb ch CR then scr
  else stay_screen pf (advance_area a)
         (GUI_DisplayChar pf (xPos a) (yPos a) ch scr).

(** The area and the LCD after the characters of [t], in order. *)
Definition draw_text (pf : platform) (t : list ascii)
    (s : displayArea * lcd) : displayArea * lcd :=
  fold_left (fun s ch => (area_after ch (fst s), screen_after pf ch (fst s) (snd s)))
    t s.

(** Characters drawn at cursor positions of the area, in the given font and
    colour.  The position is the upper left corner of the character; how
    far the character reaches from there is the GUI library's matter. *)
Definition drawn_well (a : displayArea) (f : font) (c : Z) (gs : list glyph)
  : Prop :=
  Forall (fun g => glyph_in a g /\ g_font g = f /\ g_color g = c) gs.

(** An LED whose state is the state of its bit of [vioSignalOut]. *)
Definition led_follows (led : Z) (on : bool) (st : vio) : Prop :=
  on = negb (Z.land (vioSignalOut st) led =? 0).

(** The values of [cmsis_vio.h] in CMSIS, with a GUI library that draws
    nothing, and the variables as the C start-up code leaves them. *)
Definition sample_platform : platform :=
  {| vioLED0 := 1; vioLED1 := 2; vioBUTTON0 := 1;
     vioLevelNone := 0; vioLevelHeading := 1; vioLevelMessage := 2;
     vioLevelError := 3;
     vioMotionGyro := 0; vioMotionAccelero := 1;
     GUI_COLOR_BLACK := 4278190080; GUI_COLOR_WHITE := 4294967295;
     GUI_COLOR_GREEN := 4278255360; GUI_COLOR_BLUE := 4278190335;
     GUI_COLOR_RED := 4294901760; GUI_COLOR_DARKBLUE := 4278190208;
     glyph_pixels := fun _ _ _ _ _ px => px |}.

Definition sample_levels : led_levels :=
  {| vioLEDon := 4294967295; vioLEDoff := 0 |}.

Definition blank_lcd : lcd := mk_lcd (fun _ _ => 0) Font12 0 [].

Definition boot_state : vio :=
  mk_vio 0 0 (replicate 4 (replicate 64 NUL)) (replicate 3 0)
    (replicate 3 (0, 0, 0)) (replicate 2 (replicate 4 x00))
    (replicate 2 (replicate 16 x00)) (replicate 40 NUL)
    (replicate 4 (mk_area 0 0 0 0 0 0 0 0)) false false blank_lcd.

(** The state after [vioInit] on a 240 pixel wide LCD. *)
Definition ready_state : vio :=
  match vioInit sample_platform 240 false false blank_lcd boot_state with
  | Done st => st
  | Fault _ => boot_state
  end.

(** * Vocabulary of the specification *)

(** The outcome "the buffer now holds the C string [t]". *)
Definition holds_string (r : result (list ascii)) (t : list ascii) : Prop :=
  exists buf', r = Done buf' /\ c_string buf' = Some t.

(** ** Hextets and zero runs *)

(** The hextet sequence of an address: its bytes paired big-endian. *)
Fixpoint hextets (addr : list byte) : list Z :=
  match addr with
  | hi :: lo :: rest =>
      (256 * Z.of_N (Byte.to_N hi) + Z.of_N (Byte.to_N lo)) :: hextets rest
  | _ => []
  end.

Definition is_zero_at (v : list Z) (k : nat) : bool :=
  match v !! k with
  | Some x => x =? 0
  | None => false
  end.

(** A zero run: a maximal span of [l] consecutive zero hextets that starts
    at index [s] (the hextets on either side, if any, are not zero). *)
Definition zero_run (v : list Z) (s l : nat) : bool :=
  (0 <? l)%nat
  && forallb (is_zero_at v) (seq s l)
  && ((s =? 0)%nat || negb (is_zero_at v (s - 1)))
  && negb (is_zero_at v (s + l)).

(** The run to compress: of length at least 2, as long as any zero run,
    and the earliest among those of its length. *)
Definition first_longest_run (v : list Z) (s l : nat) : Prop :=
  zero_run v s l = true /\ (2 <= l)%nat /\
  forall s' l', zero_run v s' l' = true ->
    (l' < l)%nat \/ (l' = l /\ (s <= s')%nat).

Definition no_compressible_run (v : list Z) : Prop :=
  forall s l, zero_run v s l = true -> (l < 2)%nat.

(** ** Numerals and texts *)

(** Digits, lowercase, and the numbers they stand for. *)
Definition digit_table : list ascii := list_ascii_of_string "0123456789abcdef".

Definition is_digit_of (base : Z) (c : ascii) : Prop :=
  exists d : nat, Z.of_nat d < base /\ digit_table !! d = Some c.

Definition digit_val (c : ascii) : Z :=
  let n := Z.of_N (N_of_ascii c) in
  if n <? 58 then n - 48 else n - 87.

Definition digits_value (base : Z) (s : list ascii) : Z :=
  fold_left (fun a c => a * base + digit_val c) s 0.

(** A numeral for [x] in [base]: digits only, denoting [x], and written
    without padding, so with a leading zero only when it is all of ["0"]. *)
Definition numeral (base : Z) (w : list ascii) (x : Z) : Prop :=
  w <> [] /\
  Forall (is_digit_of base) w /\
  digits_value base w = x /\
  (x = 0 -> w = ["0"%char]) /\
  (0 < x -> head w <> Some "0"%char).

(** Words joined by a separator. *)
Fixpoint join_with (sep : ascii) (ws : list (list ascii)) : list ascii :=
  match ws with
  | [] => []
  | [w] => w
  | w :: ws' => w ++ sep :: join_with sep ws'
  end.

(** Hextets in lowercase hexadecimal, joined by single colons. *)
Fixpoint join_hex (hs : list Z) : list ascii :=
  match hs with
  | [] => []
  | [x] => fmt_x x
  | x :: hs' => fmt_x x ++ colon :: join_hex hs'
  end.

(** The text with the run of [l] hextets at [s] replaced by ["::"]. *)
Definition compressed_text (v : list Z) (s l : nat) : list ascii :=
  join_hex (take s v) ++ [colon; colon] ++ join_hex (drop (s + l) v).

(** Occurrences of ["::"] in a text, overlapping ones included. *)
Fixpoint dcolons (t : list ascii) : nat :=
  match t with
  | c1 :: t' =>
      match t' with
      | c2 :: _ =>
          ((if Ascii.eqb c1 colon && Ascii.eqb c2 colon then 1 else 0)
           + dcolons t')%nat
      | [] => 0%nat
      end
  | [] => 0%nat
  end.

(** * Auxiliary notions of the proofs *)

(** ** The text [ip6_2a] lays down, loop by loop *)

(** What the second printing loop appends: each hextet behind a colon. *)
Definition tail_hex (hs : list Z) : list ascii :=
  flat_map (fun x => colon :: fmt_x x) hs.

(** What the block guarded by [if (i < 8)] appends. *)
Definition rest_text (hs : list Z) : list ascii :=
  colon :: tail_hex hs ++ match hs with [] => [colon] | _ => [] end.

(** The whole text, for a block of [nmax] hextets at [idx]. *)
Definition ip6_text (v : list Z) (nmax idx : nat) : list ascii :=
  join_hex (take idx v)
  ++ (if (idx <? 8)%nat then rest_text (drop (idx + nmax) v) else []).

(** What [ip6_2a] leaves in the buffer is a function of the hextets. *)
Definition ip6_string (v : list Z) : list ascii :=
  match find_zero_block 8 v 0 0 8 with
  | Done (nmax, idx) => ip6_text v (Z.to_nat nmax) (Z.to_nat idx)
  | Fault _ => []
  end.

Definition ip4_string (a0 a1 a2 a3 : Z) : list ascii :=
  fmt_d a0 ++ dot :: fmt_d a1 ++ dot :: fmt_d a2 ++ dot :: fmt_d a3.

(** The shapes the search can deliver. *)
Definition block_shape (nmax idx : nat) : Prop :=
  (idx = 8%nat /\ nmax = 0%nat) \/ (2 <= nmax /\ idx + nmax <= 8)%nat.

(** Hextets each followed by a colon. *)
Definition lead_hex (hs : list Z) : list ascii :=
  flat_map (fun x => fmt_x x ++ [colon]) hs.

(** The text [ip6_2a] lays down before and after the word of hextet [k],
    for a hextet outside the compressed block. *)
Definition text_before (v : list Z) (nmax idx k : nat) : list ascii :=
  if (k <? idx)%nat then lead_hex (take k v)
  else join_hex (take idx v)
       ++ colon :: tail_hex (take (k - (idx + nmax)) (drop (idx + nmax) v))
       ++ [colon].

Definition text_after (v : list Z) (nmax idx k : nat) : list ascii :=
  if (k <? idx)%nat
  then tail_hex (drop (S k) (take idx v))
       ++ (if (idx <? 8)%nat then rest_text (drop (idx + nmax) v) else [])
  else tail_hex (drop (S k) v).

(** ** Characters *)

Definition in_u16 (x : Z) : Prop := 0 <= x < 65536.

(** A character of a number: not a separator, not the terminator. *)
Definition plain_char (c : ascii) : Prop := c <> colon /\ c <> NUL /\ c <> dot.

(** The characters of an IPv6 text: the separator or a hexadecimal digit. *)
Definition text_char (c : ascii) : Prop := c = colon \/ is_digit_of 16 c.

(** Whether a ["::"] straddles the seam between two texts. *)
Definition seam (a b : list ascii) : nat :=
  match last a, head b with
  | Some x, Some y => if Ascii.eqb x colon && Ascii.eqb y colon then 1 else 0
  | _, _ => 0
  end.

(** ** Decision procedures over the 256 zero patterns of 8 hextets *)

(** Only whether a hextet is zero matters to the search. *)
Definition zero_pattern (x : Z) : Z := if x =? 0 then 0 else 1.

Fixpoint patterns (n : nat) : list (list Z) :=
  match n with
  | O => [[]]
  | S n' => flat_map (fun p => [0 :: p; 1 :: p]) (patterns n')
  end.

(** The starts and lengths a zero run of 8 hextets can have. *)
Definition spans : list (nat * nat) := list_prod (seq 0 9) (seq 0 9).

Definition first_longest_run_b (v : list Z) (s l : nat) : bool :=
  zero_run v s l && (2 <=? l)%nat
  && forallb (fun p => implb (zero_run v (fst p) (snd p))
                         ((snd p <? l)%nat
                          || ((snd p =? l)%nat && (s <=? fst p)%nat)))
       spans.

Definition no_compressible_run_b (v : list Z) : bool :=
  forallb (fun p => implb (zero_run v (fst p) (snd p)) (snd p <? 2)%nat) spans.

(** What the search of [ip6_2a] is expected to deliver on [v]. *)
Definition search_ok (v : list Z) : bool :=
  match find_zero_block 8 v 0 0 8 with
  | Done (nmax, idx) =>
      (idx =? 8) && (nmax =? 0) && no_compressible_run_b v
      || (0 <=? idx) && (0 <=? nmax)
         && first_longest_run_b v (Z.to_nat idx) (Z.to_nat nmax)
  | Fault _ => false
  end.

Definition same_block (r1 r2 : result (Z * Z)) : bool :=
  match r1, r2 with
  | Done (n1, i1), Done (n2, i2) => (n1 =? n2) && (i1 =? i2)
  | _, _ => false
  end.

(** Overwriting an isolated zero with a non-zero value leaves the outcome
    of the search as it was. *)
Definition isolated_zero_ok (p : list Z) : bool :=
  forallb (fun k => implb (zero_run p k 1)
                      (same_block (find_zero_block 8 (<[k := 1]> p) 0 0 8)
                                  (find_zero_block 8 p 0 0 8)))
    (seq 0 8).

(** * Properties *)

(** ** The error monad and the memory operations *)

Lemma bind_Done {A B : Type} (r : result A) (k : A -> result B) (b : B) :
  bind r k = Done b -> exists a, r = Done a /\ k a = Done b.
Proof. destruct r as [a|f]; simpl; [eauto | discriminate]. Qed.

Lemma load_Done {A : Type} (m : list A) (i : Z) (x : A) :
  0 <= i -> m !! Z.to_nat i = Some x -> load m i = Done x.
Proof.
  intros Hi Hx. unfold load.
  destruct (Z.ltb_spec i 0); [lia | now rewrite Hx].
Qed.

Lemma load_of_nat {A : Type} (m : list A) (n : nat) (x : A) :
  m !! n = Some x -> load m (Z.of_nat n) = Done x.
Proof. intros Hx. apply load_Done; [lia | now rewrite Nat2Z.id]. Qed.

Lemma load_past_end {A : Type} (m : list A) (i : Z) :
  Z.of_nat (length m) <= i -> load m i = Fault (ReadOutOfBounds i).
Proof.
  intros Hi. unfold load. destruct (Z.ltb_spec i 0); [reflexivity|].
  rewrite lookup_ge_None_2; [reflexivity | lia].
Qed.

Lemma store_Done {A : Type} (m : list A) (i : Z) (x : A) :
  0 <= i < Z.of_nat (length m) -> store m i x = Done (<[Z.to_nat i := x]> m).
Proof.
  intros Hi. unfold store.
  destruct (Z.leb_spec 0 i); [|lia].
  destruct (Z.ltb_spec i (Z.of_nat (length m))); [reflexivity | lia].
Qed.

(** Storing at the cursor that follows a text [t] replaces the first cell
    behind it. *)
Lemma store_at_cursor {A : Type} (t : list A) (r : A) (rest : list A) (x : A) :
  store (t ++ r :: rest) (Z.of_nat (length t)) x = Done (t ++ x :: rest).
Proof.
  rewrite store_Done.
  - rewrite Nat2Z.id. f_equal.
    replace (length t) with (length t + 0)%nat at 1 by lia.
    now rewrite insert_app_r.
  - rewrite length_app. simpl. lia.
Qed.

Lemma write_chars_at_cursor (s t rest : list ascii) :
  (length s <= length rest)%nat ->
  write_chars (t ++ rest) (Z.of_nat (length t)) s
  = Done (t ++ s ++ drop (length s) rest).
Proof.
  revert t rest. induction s as [|c s IH]; intros t rest Hlen; simpl.
  - now rewrite drop_0.
  - destruct rest as [|r rest]; simpl in Hlen; [lia|].
    rewrite store_at_cursor. simpl.
    replace (t ++ c :: rest) with ((t ++ [c]) ++ rest) by now rewrite <- app_assoc.
    replace (Z.of_nat (length t) + 1) with (Z.of_nat (length (t ++ [c])))
      by (rewrite length_app; simpl; lia).
    rewrite IH by lia. now rewrite <- app_assoc.
Qed.

(** [sprintf] at the cursor: the text grows by [s], a NUL follows it, and
    the buffer keeps its size. *)
Lemma sprintf_at_cursor (s t rest : list ascii) :
  (length s < length rest)%nat ->
  sprintf (t ++ rest) (Z.of_nat (length t)) s
  = Done (Z.of_nat (length s), (t ++ s) ++ NUL :: drop (S (length s)) rest).
Proof.
  intros Hlen. unfold sprintf.
  rewrite write_chars_at_cursor by (rewrite length_app; simpl; lia).
  simpl. rewrite length_app. simpl.
  replace (length s + 1)%nat with (S (length s)) by lia.
  now rewrite <- !app_assoc.
Qed.

(** ** The digits [sprintf] produces *)

Lemma digit_cases (d : Z) :
  0 <= d < 16 ->
  d = 0 \/ d = 1 \/ d = 2 \/ d = 3 \/ d = 4 \/ d = 5 \/ d = 6 \/ d = 7 \/
  d = 8 \/ d = 9 \/ d = 10 \/ d = 11 \/ d = 12 \/ d = 13 \/ d = 14 \/ d = 15.
Proof. lia. Qed.

Lemma digit_val_char (d : Z) : 0 <= d < 16 -> digit_val (digit_char d) = d.
Proof.
  intros H. destruct (digit_cases d H) as
    [->|[->|[->|[->|[->|[->|[->|[->|[->|[->|[->|[->|[->|[->|[->| ->]]]]]]]]]]]]]]];
    reflexivity.
Qed.

Lemma digit_char_zero (d : Z) :
  0 <= d < 16 -> digit_char d = "0"%char -> d = 0.
Proof.
  intros H E. apply (f_equal digit_val) in E.
  rewrite digit_val_char in E by assumption. exact E.
Qed.

(** Lowercase hexadecimal digits are neither separators nor terminators. *)
Lemma digit_char_plain (d : Z) :
  0 <= d < 16 -> digit_char d <> colon /\ digit_char d <> NUL /\ digit_char d <> dot.
Proof.
  intros H. destruct (digit_cases d H) as
    [->|[->|[->|[->|[->|[->|[->|[->|[->|[->|[->|[->|[->|[->|[->| ->]]]]]]]]]]]]]]];
    repeat split; discriminate.
Qed.

Lemma digit_table_lookup (d : nat) :
  (d < 16)%nat -> digit_table !! d = Some (digit_char (Z.of_nat d)).
Proof.
  intros H. do 16 (destruct d as [|d]; [reflexivity|]). lia.
Qed.

Lemma digit_char_is_digit (base d : Z) :
  base <= 16 -> 0 <= d < base -> is_digit_of base (digit_char d).
Proof.
  intros Hb Hd. exists (Z.to_nat d). split; [lia|].
  rewrite digit_table_lookup by lia. now rewrite Z2Nat.id by lia.
Qed.

Lemma is_digit_of_inv (base : Z) (c : ascii) :
  base <= 16 -> is_digit_of base c ->
  exists d, 0 <= d < base /\ c = digit_char d.
Proof.
  intros Hb (d & Hd & Hc). rewrite digit_table_lookup in Hc by lia.
  exists (Z.of_nat d). split; [lia | congruence].
Qed.

Lemma digits_value_snoc (base : Z) (s : list ascii) (c : ascii) :
  digits_value base (s ++ [c]) = digits_value base s * base + digit_val c.
Proof. unfold digits_value. now rewrite fold_left_app. Qed.

(** What [digits] computes when the fuel covers the number: a non-empty
    digit string that denotes [n] and has no leading zero. *)
Lemma digits_spec (fuel : nat) (base n : Z) (acc : list ascii) :
  2 <= base <= 16 -> 0 <= n < base ^ Z.of_nat (S fuel) ->
  exists ds,
    digits (S fuel) base n acc = ds ++ acc /\
    ds <> [] /\ (length ds <= S fuel)%nat /\
    Forall (is_digit_of base) ds /\
    digits_value base ds = n /\
    (n = 0 -> ds = ["0"%char]) /\
    (0 < n -> head ds <> Some "0"%char).
Proof.
  intros Hb. revert n acc.
  induction fuel as [|fuel IH]; intros n acc Hn;
    cbn [digits];
    assert (Hmod : 0 <= n mod base < base) by (apply Z.mod_pos_bound; lia);
    pose proof (Z.div_mod n base ltac:(lia)) as Hdm;
    (destruct (Z.eqb_spec (n / base) 0) as [Hq|Hq];
     [ exists [digit_char (n mod base)]; rewrite Hq in Hdm; repeat split;
       [ discriminate
       | simpl; lia
       | constructor; [|constructor]; apply digit_char_is_digit; lia
       | unfold digits_value; simpl; rewrite digit_val_char by lia; lia
       | intros ->; reflexivity
       | intros Hpos E; simpl in E; injection E as E;
         apply digit_char_zero in E; lia ]
     | ]).
  - exfalso. apply Hq. apply Z.div_small. simpl in Hn. lia.
  - assert (Hq' : 0 < n / base).
    { pose proof (Z.div_pos n base ltac:(lia) ltac:(lia)). lia. }
    assert (Hlt : n / base < base ^ Z.of_nat (S fuel)).
    { apply Z.div_lt_upper_bound; [lia|].
      replace (Z.of_nat (S (S fuel))) with (Z.succ (Z.of_nat (S fuel))) in Hn by lia.
      rewrite Z.pow_succ_r in Hn by lia. lia. }
    destruct (IH (n / base) (digit_char (n mod base) :: acc) ltac:(lia))
      as (ds & E & Hne & Hlen & Hall & Hval & _ & Hhd).
    exists (ds ++ [digit_char (n mod base)]). repeat split.
    + cbn [digits] in E. rewrite E. now rewrite <- app_assoc.
    + destruct ds; discriminate.
    + rewrite length_app. simpl. lia.
    + apply Forall_app. split; [assumption|].
      constructor; [|constructor]. apply digit_char_is_digit; lia.
    + rewrite digits_value_snoc, Hval, digit_val_char by lia. lia.
    + intros ->. rewrite Z.div_0_l in Hq by lia. lia.
    + intros _. destruct ds as [|d ds]; [congruence|]. simpl.
      specialize (Hhd Hq'). exact Hhd.
Qed.

Lemma digits_fuel (k fuel : nat) (base n : Z) (acc : list ascii) :
  2 <= base -> 0 <= n < base ^ Z.of_nat (S k) -> (k <= fuel)%nat ->
  digits (S fuel) base n acc = digits (S k) base n acc.
Proof.
  intros Hb. revert fuel n acc.
  induction k as [|k IH]; intros fuel n acc Hn Hk; cbn [digits].
  - rewrite Z.div_small by (simpl in Hn; lia). reflexivity.
  - destruct (Z.eqb_spec (n / base) 0) as [Hq|Hq]; [reflexivity|].
    destruct fuel as [|fuel]; [lia|].
    apply IH; [|lia]. split.
    + apply Z.div_pos; lia.
    + apply Z.div_lt_upper_bound; [lia|].
      replace (Z.of_nat (S (S k))) with (Z.succ (Z.of_nat (S k))) in Hn by lia.
      rewrite Z.pow_succ_r in Hn by lia. lia.
Qed.

(** ["%x"] of a 16-bit value: one to four lowercase hexadecimal digits. *)
Lemma fmt_x_spec (x : Z) :
  0 <= x < 65536 ->
  fmt_x x <> [] /\ (length (fmt_x x) <= 4)%nat /\
  Forall (is_digit_of 16) (fmt_x x) /\
  digits_value 16 (fmt_x x) = x /\
  (x = 0 -> fmt_x x = ["0"%char]) /\
  (0 < x -> head (fmt_x x) <> Some "0"%char).
Proof.
  intros Hx. unfold fmt_x.
  rewrite Z.mod_small by lia.
  rewrite (digits_fuel 3) by (simpl; lia).
  destruct (digits_spec 3 16 x [] ltac:(lia) ltac:(simpl; lia))
    as (ds & E & H). rewrite app_nil_r in E. rewrite E. exact H.
Qed.

(** ["%d"] of a byte value: one to three decimal digits. *)
Lemma fmt_d_spec (x : Z) :
  0 <= x < 256 ->
  fmt_d x <> [] /\ (length (fmt_d x) <= 3)%nat /\
  Forall (is_digit_of 10) (fmt_d x) /\
  digits_value 10 (fmt_d x) = x /\
  (x = 0 -> fmt_d x = ["0"%char]) /\
  (0 < x -> head (fmt_d x) <> Some "0"%char).
Proof.
  intros Hx. unfold fmt_d.
  destruct (Z.ltb_spec x 0); [lia|].
  rewrite (digits_fuel 2) by (simpl; lia).
  destruct (digits_spec 2 10 x [] ltac:(lia) ltac:(simpl; lia))
    as (ds & E & H'). rewrite app_nil_r in E. rewrite E. exact H'.
Qed.

Lemma is_digit_plain (base : Z) (c : ascii) :
  base <= 16 -> is_digit_of base c -> c <> colon /\ c <> NUL /\ c <> dot.
Proof.
  intros Hb H. destruct (is_digit_of_inv base c Hb H) as (d & Hd & ->).
  apply digit_char_plain. lia.
Qed.

(** ** Reading the address *)

Lemma byte_range (b : byte) : 0 <= Z.of_N (Byte.to_N b) < 256.
Proof. pose proof (Byte.to_N_bounded b). lia. Qed.

(** [(uint16_t)(hi << 8) | lo] is the big-endian pair. *)
Lemma hextet_value (hi lo : Z) :
  0 <= hi < 256 -> 0 <= lo < 256 ->
  u16 (Z.lor (u16 (Z.shiftl hi 8)) lo) = 256 * hi + lo.
Proof.
  intros Hhi Hlo. unfold u16.
  rewrite Z.shiftl_mul_pow2 by lia. change (2 ^ 8) with 256.
  rewrite (Z.mod_small (hi * 256)) by lia.
  assert (Hland : Z.land (hi * 256) lo = 0).
  { apply Z.bits_inj'. intros n Hn.
    rewrite Z.land_spec, Z.bits_0.
    destruct (Z.ltb_spec n 8).
    - change 256 with (2 ^ 8). rewrite Z.mul_pow2_bits_low by lia. reflexivity.
    - destruct (Z.eqb_spec lo 0) as [->|Hnz].
      + rewrite Z.bits_0. apply andb_false_r.
      + rewrite (Z.bits_above_log2 lo n); [apply andb_false_r | lia |].
        apply Z.lt_le_trans with 8; [|assumption].
        apply Z.log2_lt_pow2; [lia | simpl; lia]. }
  rewrite <- Z.lxor_lor by assumption.
  rewrite <- Z.add_nocarry_lxor by assumption.
  rewrite Z.mod_small; lia.
Qed.

Lemma hextets_lookup (k : nat) (addr : list byte) (hi lo : byte) :
  addr !! (2 * k)%nat = Some hi -> addr !! (2 * k + 1)%nat = Some lo ->
  hextets addr !! k = Some (256 * Z.of_N (Byte.to_N hi) + Z.of_N (Byte.to_N lo)).
Proof.
  revert addr. induction k as [|k IH]; intros addr Hhi Hlo.
  - destruct addr as [|a [|b addr]]; simpl in *; try discriminate.
    now inversion Hhi; inversion Hlo.
  - replace (2 * S k)%nat with (S (S (2 * k))) in Hhi by lia.
    replace (2 * S k + 1)%nat with (S (S (2 * k + 1))) in Hlo by lia.
    destruct addr as [|a [|b addr]]; try discriminate.
    apply IH; assumption.
Qed.

(** Induction over a list two elements at a time, as [hextets] recurses. *)
Lemma list_pair_ind {A : Type} (P : list A -> Prop) :
  P [] -> (forall a, P [a]) -> (forall a b l, P l -> P (a :: b :: l)) ->
  forall l, P l.
Proof.
  intros H0 H1 H2 l.
  assert (H : P l /\ forall a, P (a :: l)).
  { induction l as [|b l [IHl IHl']]; split; auto. }
  apply H.
Qed.

Lemma hextets_length (addr : list byte) :
  length (hextets addr) = (length addr / 2)%nat.
Proof.
  induction addr as [|a|a b addr IH] using list_pair_ind; try reflexivity.
  cbn [hextets length]. rewrite IH.
  change (S (S (length addr))) with (1 * 2 + length addr)%nat.
  rewrite Nat.div_add_l by lia. lia.
Qed.

Lemma hextets_range (addr : list byte) :
  Forall (fun x => 0 <= x < 65536) (hextets addr).
Proof.
  induction addr as [|a|a b addr IH] using list_pair_ind; try constructor.
  - pose proof (byte_range a). pose proof (byte_range b). lia.
  - exact IH.
Qed.

Lemma load_u8_Done (m : list byte) (n : nat) (b : byte) :
  m !! n = Some b -> load_u8 m (Z.of_nat n) = Done (Z.of_N (Byte.to_N b)).
Proof. intros Hb. unfold load_u8. now rewrite (load_of_nat _ _ _ Hb). Qed.

Lemma load_u8_past_end (m : list byte) (i : Z) :
  Z.of_nat (length m) <= i -> load_u8 m i = Fault (ReadOutOfBounds i).
Proof. intros Hi. unfold load_u8. now rewrite load_past_end. Qed.

Lemma shiftr_even (k : nat) : Z.shiftr (Z.of_nat (2 * k)) 1 = Z.of_nat k.
Proof.
  rewrite Z.shiftr_div_pow2 by lia. change (2 ^ 1) with 2.
  rewrite Nat2Z.inj_mul. change (Z.of_nat 2) with 2.
  rewrite Z.mul_comm. apply Z.div_mul. lia.
Qed.

(** The reading loop, entered at hextet [k] with [n] hextets to go: the
    slots below [k] are kept, the others receive the address's hextets. *)
Lemma read_hextets_from (n : nat) :
  forall (k fuel : nat) (addr : list byte) (v : list Z),
    (k + n = 8)%nat -> (n < fuel)%nat ->
    (16 <= length addr)%nat -> length v = 8%nat ->
    read_hextets fuel addr (Z.of_nat (2 * k)) v
    = Done (take k v ++ drop k (take 8 (hextets addr))).
Proof.
  induction n as [|n IH]; intros k fuel addr v Hk Hfuel Haddr Hv;
    (destruct fuel as [|fuel]; [lia|]); cbn [read_hextets].
  - assert (k = 8%nat) as -> by lia. simpl.
    rewrite take_ge by lia.
    rewrite drop_ge by (rewrite length_take; lia).
    now rewrite app_nil_r.
  - destruct (Z.ltb_spec (Z.of_nat (2 * k)) 16) as [_|?]; [|lia].
    destruct (lookup_lt_is_Some_2 addr (2 * k) ltac:(lia)) as [hi Hhi].
    destruct (lookup_lt_is_Some_2 addr (2 * k + 1) ltac:(lia)) as [lo Hlo].
    rewrite (load_u8_Done _ _ _ Hhi). cbn [bind].
    replace (Z.of_nat (2 * k) + 1) with (Z.of_nat (2 * k + 1)) by lia.
    rewrite (load_u8_Done _ _ _ Hlo). cbn [bind].
    rewrite hextet_value by apply byte_range.
    rewrite shiftr_even, store_Done by lia. cbn [bind].
    replace (Z.of_nat (2 * k) + 2) with (Z.of_nat (2 * S k)) by lia.
    rewrite IH by (rewrite ?length_insert; lia).
    rewrite Nat2Z.id. f_equal.
    pose proof (hextets_lookup k addr hi lo Hhi Hlo) as Hh.
    rewrite (take_S_r _ _ (256 * Z.of_N (Byte.to_N hi) + Z.of_N (Byte.to_N lo)))
      by (apply list_lookup_insert_eq; lia).
    rewrite take_insert_ge by lia.
    rewrite (drop_S (take 8 (hextets addr)) (256 * Z.of_N (Byte.to_N hi) + Z.of_N (Byte.to_N lo)) k)
      by (rewrite lookup_take_lt by lia; exact Hh).
    now rewrite <- app_assoc.
Qed.

Lemma read_hextets_start (addr : list byte) :
  (16 <= length addr)%nat ->
  read_hextets 9 addr 0 v16_init = Done (take 8 (hextets addr)).
Proof.
  intros Hlen.
  exact (read_hextets_from 8 0 9 addr v16_init eq_refl ltac:(lia) Hlen eq_refl).
Qed.

Lemma read_hextets_16 (addr : list byte) :
  length addr = 16%nat ->
  read_hextets 9 addr 0 v16_init = Done (hextets addr).
Proof.
  intros Hlen.
  change 0 with (Z.of_nat (2 * 0)).
  rewrite (read_hextets_from 8 0 9 addr v16_init) by (simpl; lia).
  rewrite (take_ge (hextets addr)) by (rewrite hextets_length, Hlen; simpl; lia).
  reflexivity.
Qed.

(** With fewer than 16 bytes the loop runs off the end of the address: the
    first load behind the last byte is the one at index [length addr]. *)
Lemma read_hextets_short (n : nat) :
  forall (k fuel : nat) (addr : list byte) (v : list Z),
    (k + n = 8)%nat -> (n < fuel)%nat -> length v = 8%nat ->
    (2 * k <= length addr < 16)%nat ->
    read_hextets fuel addr (Z.of_nat (2 * k)) v
    = Fault (ReadOutOfBounds (Z.of_nat (length addr))).
Proof.
  induction n as [|n IH]; intros k fuel addr v Hk Hfuel Hv Haddr;
    (destruct fuel as [|fuel]; [lia|]); cbn [read_hextets]; [lia|].
  destruct (Z.ltb_spec (Z.of_nat (2 * k)) 16) as [_|?]; [|lia].
  destruct (decide (length addr = 2 * k)%nat) as [E|NE].
  { rewrite load_u8_past_end by lia. cbn [bind]. now rewrite E. }
  destruct (lookup_lt_is_Some_2 addr (2 * k) ltac:(lia)) as [hi Hhi].
  rewrite (load_u8_Done _ _ _ Hhi). cbn [bind].
  destruct (decide (length addr = 2 * k + 1)%nat) as [E|NE'].
  { rewrite load_u8_past_end by lia. cbn [bind]. f_equal. f_equal. lia. }
  destruct (lookup_lt_is_Some_2 addr (2 * k + 1) ltac:(lia)) as [lo Hlo].
  replace (Z.of_nat (2 * k) + 1) with (Z.of_nat (2 * k + 1)) by lia.
  rewrite (load_u8_Done _ _ _ Hlo). cbn [bind].
  rewrite shiftr_even, store_Done by lia. cbn [bind].
  replace (Z.of_nat (2 * k) + 2) with (Z.of_nat (2 * S k)) by lia.
  apply IH; rewrite ?length_insert; lia.
Qed.

(** ** The search for the largest block of zero hextets *)

Lemma load_map {A B : Type} (f : A -> B) (m : list A) (i : Z) :
  load (map f m) i
  = match load m i with Done x => Done (f x) | Fault e => Fault e end.
Proof.
  unfold load. destruct (i <? 0); [reflexivity|].
  change (map f m) with (f <$> m). rewrite list_lookup_fmap.
  destruct (m !! Z.to_nat i); reflexivity.
Qed.

Lemma zero_pattern_eqb (x : Z) : (zero_pattern x =? 0) = (x =? 0).
Proof. unfold zero_pattern. destruct (x =? 0); reflexivity. Qed.

Lemma zero_block_end_pattern (fuel : nat) (v : list Z) (j : Z) :
  zero_block_end fuel (map zero_pattern v) j = zero_block_end fuel v j.
Proof.
  revert j. induction fuel as [|fuel IH]; intros j; cbn [zero_block_end];
    [reflexivity|].
  destruct (j <? 8 - 1); [|reflexivity].
  rewrite load_map. destruct (load v (j + 1)) as [x|e]; cbn [bind];
    [|reflexivity].
  rewrite zero_pattern_eqb. destruct (x =? 0); cbn [negb];
    [apply IH | reflexivity].
Qed.

Lemma find_zero_block_pattern (fuel : nat) (v : list Z) (i nmax idx : Z) :
  find_zero_block fuel (map zero_pattern v) i nmax idx
  = find_zero_block fuel v i nmax idx.
Proof.
  revert i nmax idx.
  induction fuel as [|fuel IH]; intros i nmax idx; cbn [find_zero_block];
    [reflexivity|].
  destruct (i <? 8 - 1); [|reflexivity].
  rewrite load_map. destruct (load v i) as [x|e]; cbn [bind]; [|reflexivity].
  rewrite zero_pattern_eqb. destruct (x =? 0); cbn [negb]; [|apply IH].
  rewrite zero_block_end_pattern.
  destruct (zero_block_end 8 v i) as [j|e]; cbn [bind]; [|reflexivity].
  destruct (i =? j); [apply IH|]. destruct (j - i >=? nmax); apply IH.
Qed.

Lemma is_zero_at_pattern (v : list Z) (k : nat) :
  is_zero_at (map zero_pattern v) k = is_zero_at v k.
Proof.
  unfold is_zero_at. change (map zero_pattern v) with (zero_pattern <$> v).
  rewrite list_lookup_fmap. destruct (v !! k); simpl;
    [apply zero_pattern_eqb | reflexivity].
Qed.

Lemma forallb_pointwise {A : Type} (f g : A -> bool) (l : list A) :
  (forall x, f x = g x) -> forallb f l = forallb g l.
Proof. intros H. induction l as [|x l IH]; simpl; [|rewrite H, IH]; reflexivity. Qed.

Lemma zero_run_pattern (v : list Z) (s l : nat) :
  zero_run (map zero_pattern v) s l = zero_run v s l.
Proof.
  unfold zero_run. rewrite !is_zero_at_pattern.
  now rewrite (forallb_pointwise _ _ _ (is_zero_at_pattern v)).
Qed.

Lemma search_ok_pattern (v : list Z) :
  search_ok (map zero_pattern v) = search_ok v.
Proof.
  unfold search_ok. rewrite find_zero_block_pattern.
  destruct (find_zero_block 8 v 0 0 8) as [[nmax idx]|e]; [|reflexivity].
  unfold no_compressible_run_b, first_longest_run_b.
  rewrite zero_run_pattern.
  f_equal; [f_equal | f_equal; f_equal];
    apply forallb_pointwise; intros [s l]; now rewrite zero_run_pattern.
Qed.

Lemma zero_pattern_in_patterns (v : list Z) :
  In (map zero_pattern v) (patterns (length v)).
Proof.
  induction v as [|x v IH]; simpl; [now left|].
  apply in_flat_map. exists (map zero_pattern v). split; [exact IH|].
  unfold zero_pattern at 1. destruct (x =? 0); simpl; auto.
Qed.

(** All 256 zero patterns of 8 hextets, checked by evaluating the search. *)
Lemma search_ok_patterns : forallb search_ok (patterns 8) = true.
Proof. vm_compute. reflexivity. Qed.

Lemma search_ok_all (v : list Z) : length v = 8%nat -> search_ok v = true.
Proof.
  intros Hlen. rewrite <- search_ok_pattern.
  pose proof search_ok_patterns as H. rewrite forallb_forall in H.
  apply H. rewrite <- Hlen. apply zero_pattern_in_patterns.
Qed.

Lemma zero_run_inv (v : list Z) (s l : nat) :
  zero_run v s l = true ->
  (0 < l)%nat /\ (s + l <= length v)%nat /\
  (forall k, (s <= k < s + l)%nat -> is_zero_at v k = true) /\
  (s = 0%nat \/ is_zero_at v (s - 1) = false) /\
  is_zero_at v (s + l) = false.
Proof.
  unfold zero_run. rewrite !andb_true_iff, orb_true_iff, !negb_true_iff.
  rewrite Nat.ltb_lt, Nat.eqb_eq, forallb_forall.
  intros [[[Hl Hall] Hpre] Hpost].
  assert (Hz : forall k, (s <= k < s + l)%nat -> is_zero_at v k = true).
  { intros k Hk. apply Hall. apply in_seq. lia. }
  repeat split; try assumption.
  specialize (Hz (s + l - 1)%nat ltac:(lia)). unfold is_zero_at in Hz.
  destruct (v !! (s + l - 1)%nat) eqn:E; [|discriminate].
  apply lookup_lt_Some in E. lia.
Qed.

Lemma zero_run_in_spans (v : list Z) (s l : nat) :
  length v = 8%nat -> zero_run v s l = true -> In (s, l) spans.
Proof.
  intros Hlen H. apply zero_run_inv in H as (Hl & Hsl & _).
  apply in_prod; apply in_seq; lia.
Qed.

Lemma first_longest_run_reflect (v : list Z) (s l : nat) :
  length v = 8%nat ->
  first_longest_run_b v s l = true -> first_longest_run v s l.
Proof.
  intros Hlen. unfold first_longest_run_b, first_longest_run.
  rewrite !andb_true_iff, Nat.leb_le, forallb_forall.
  intros [[Hrun Hl] Hall]. repeat split; try assumption.
  intros s' l' Hrun'.
  specialize (Hall (s', l') (zero_run_in_spans v s' l' Hlen Hrun')).
  simpl in Hall. rewrite Hrun' in Hall. simpl in Hall.
  apply orb_true_iff in Hall as [H|H].
  - left. now apply Nat.ltb_lt.
  - right. apply andb_true_iff in H as [H1 H2].
    split; [now apply Nat.eqb_eq | now apply Nat.leb_le].
Qed.

Lemma no_compressible_run_reflect (v : list Z) :
  length v = 8%nat ->
  no_compressible_run_b v = true -> no_compressible_run v.
Proof.
  intros Hlen. unfold no_compressible_run_b, no_compressible_run.
  rewrite forallb_forall. intros Hall s l Hrun.
  specialize (Hall (s, l) (zero_run_in_spans v s l Hlen Hrun)).
  simpl in Hall. rewrite Hrun in Hall. now apply Nat.ltb_lt.
Qed.

(** The search always ends, and it delivers either "no block" ([idx = 8],
    [nmax = 0]) when no zero run has two hextets, or the start and length
    of the earliest of the longest zero runs. *)
Lemma search_spec (v : list Z) :
  length v = 8%nat ->
  exists nmax idx,
    find_zero_block 8 v 0 0 8 = Done (nmax, idx) /\
    ((idx = 8 /\ nmax = 0 /\ no_compressible_run v) \/
     (exists s l, idx = Z.of_nat s /\ nmax = Z.of_nat l /\
                  first_longest_run v s l)).
Proof.
  intros Hlen. pose proof (search_ok_all v Hlen) as H. unfold search_ok in H.
  destruct (find_zero_block 8 v 0 0 8) as [[nmax idx]|e]; [|discriminate].
  exists nmax, idx. split; [reflexivity|].
  apply orb_true_iff in H as [H|H].
  - left. rewrite !andb_true_iff in H. destruct H as [[Hi Hn] Hnone].
    apply Z.eqb_eq in Hi, Hn.
    auto using no_compressible_run_reflect.
  - right. rewrite !andb_true_iff in H. destruct H as [[Hi Hn] Hrun].
    apply Z.leb_le in Hi, Hn.
    exists (Z.to_nat idx), (Z.to_nat nmax).
    rewrite !Z2Nat.id by assumption.
    auto using first_longest_run_reflect.
Qed.

Lemma first_longest_run_unique (v : list Z) (s l s' l' : nat) :
  first_longest_run v s l -> first_longest_run v s' l' -> s = s' /\ l = l'.
Proof.
  intros (R & _ & H) (R' & _ & H').
  destruct (H s' l' R') as [?|[? ?]], (H' s l R) as [?|[? ?]]; lia.
Qed.

Lemma first_longest_run_bounds (v : list Z) (s l : nat) :
  first_longest_run v s l -> (2 <= l)%nat /\ (s + l <= length v)%nat.
Proof.
  intros (R & Hl & _). apply zero_run_inv in R as (_ & Hsl & _). auto.
Qed.

Lemma search_run (v : list Z) (s l : nat) :
  length v = 8%nat -> first_longest_run v s l ->
  find_zero_block 8 v 0 0 8 = Done (Z.of_nat l, Z.of_nat s).
Proof.
  intros Hlen Hrun.
  destruct (search_spec v Hlen) as (nmax & idx & E & [(_ & _ & Hnone)|Hsome]).
  - destruct Hrun as (R & Hl & _). apply Hnone in R. lia.
  - destruct Hsome as (s' & l' & -> & -> & Hrun').
    destruct (first_longest_run_unique v s l s' l' Hrun Hrun') as [-> ->].
    exact E.
Qed.

Lemma search_none (v : list Z) :
  length v = 8%nat -> no_compressible_run v ->
  find_zero_block 8 v 0 0 8 = Done (0, 8).
Proof.
  intros Hlen Hnone.
  destruct (search_spec v Hlen) as (nmax & idx & E & [(-> & -> & _)|Hsome]).
  - exact E.
  - destruct Hsome as (s & l & _ & _ & (R & Hl & _)). apply Hnone in R. lia.
Qed.

(** ** The printing loops *)

Lemma cursor_app {A : Type} (t s : list A) :
  Z.of_nat (length t) + Z.of_nat (length s) = Z.of_nat (length (t ++ s)).
Proof. rewrite length_app. lia. Qed.

Lemma cursor_snoc {A : Type} (t : list A) (c : A) :
  Z.of_nat (length t) + 1 = Z.of_nat (length (t ++ [c])).
Proof. rewrite length_app. simpl. lia. Qed.

Lemma join_hex_cons (x : Z) (hs : list Z) :
  hs <> [] -> join_hex (x :: hs) = fmt_x x ++ colon :: join_hex hs.
Proof. destruct hs; [congruence | reflexivity]. Qed.

Lemma tail_hex_cons (x : Z) (hs : list Z) :
  tail_hex (x :: hs) = (colon :: fmt_x x) ++ tail_hex hs.
Proof. reflexivity. Qed.

(** The first printing loop, entered at hextet [i] with [n] to go and the
    cursor behind the text [t]: it appends the hextets [i .. idx-1] joined
    by colons, provided the text and a NUL fit into the buffer. *)
Lemma print_head_spec (n : nat) :
  forall (i fuel : nat) (v : list Z) (idx : nat) (t rest : list ascii),
    (i + n = idx)%nat -> (n < fuel)%nat -> (idx <= length v)%nat ->
    (length (join_hex (drop i (take idx v))) < length rest)%nat ->
    exists rest',
      print_head fuel v (Z.of_nat idx) (Z.of_nat i) (Z.of_nat (length t))
        (t ++ rest)
      = Done (Z.of_nat idx,
              Z.of_nat (length (t ++ join_hex (drop i (take idx v)))),
              (t ++ join_hex (drop i (take idx v))) ++ rest') /\
      length rest
      = (length (join_hex (drop i (take idx v))) + length rest')%nat.
Proof.
  induction n as [|n IH]; intros i fuel v idx t rest Hi Hfuel Hidx Hfit;
    (destruct fuel as [|fuel]; [lia|]); cbn [print_head].
  - assert (i = idx) as -> by lia. rewrite Z.ltb_irrefl.
    rewrite drop_ge by (rewrite length_take; lia).
    exists rest. cbn [join_hex]. now rewrite app_nil_r.
  - destruct (Z.ltb_spec (Z.of_nat i) (Z.of_nat idx)) as [_|?]; [|lia].
    destruct (lookup_lt_is_Some_2 v i ltac:(lia)) as [x Hx].
    rewrite (load_of_nat _ _ _ Hx). cbn [bind].
    assert (Hdrop : drop i (take idx v) = x :: drop (S i) (take idx v)).
    { apply drop_S. rewrite lookup_take_lt by lia. exact Hx. }
    rewrite Hdrop in *.
    destruct (decide (S i = idx)) as [Hlast|Hmore].
    + rewrite (drop_ge _ (S i)) in * by (rewrite length_take; lia).
      cbn [join_hex] in *.
      rewrite sprintf_at_cursor by lia. cbn [bind].
      destruct (Z.eqb_spec (Z.of_nat i + 1) (Z.of_nat idx)) as [_|?]; [|lia].
      exists (NUL :: drop (S (length (fmt_x x))) rest). split.
      * rewrite cursor_app. repeat f_equal. lia.
      * simpl. rewrite length_drop. lia.
    + assert (Hne : drop (S i) (take idx v) <> []).
      { intros E. apply (f_equal length) in E.
        rewrite length_drop, length_take in E. simpl in E. lia. }
      rewrite (join_hex_cons _ _ Hne) in *.
      rewrite length_app in Hfit. simpl in Hfit.
      rewrite sprintf_at_cursor by lia. cbn [bind].
      destruct (Z.eqb_spec (Z.of_nat i + 1) (Z.of_nat idx)) as [?|_]; [lia|].
      rewrite cursor_app, store_at_cursor. cbn [bind].
      rewrite (cursor_snoc _ colon).
      replace (Z.of_nat i + 1) with (Z.of_nat (S i)) by lia.
      replace ((t ++ fmt_x x) ++ colon :: drop (S (length (fmt_x x))) rest)
        with (((t ++ fmt_x x) ++ [colon]) ++ drop (S (length (fmt_x x))) rest)
        by (now rewrite <- !app_assoc).
      destruct (IH (S i) fuel v idx ((t ++ fmt_x x) ++ [colon])
                  (drop (S (length (fmt_x x))) rest))
        as (rest' & E & Hlen); try lia.
      { rewrite length_drop. lia. }
      exists rest'. split.
      * rewrite E. now rewrite <- !app_assoc.
      * rewrite length_drop in Hlen. rewrite length_app. simpl. lia.
Qed.

(** The second printing loop: every remaining hextet behind a colon. *)
Lemma print_tail_spec (n : nat) :
  forall (i fuel : nat) (v : list Z) (t rest : list ascii),
    (i + n = 8)%nat -> (n < fuel)%nat -> length v = 8%nat ->
    (length (tail_hex (drop i v)) < length rest)%nat ->
    exists rest',
      print_tail fuel v (Z.of_nat i) (Z.of_nat (length t)) (t ++ rest)
      = Done (Z.of_nat (length (t ++ tail_hex (drop i v))),
              (t ++ tail_hex (drop i v)) ++ rest') /\
      length rest = (length (tail_hex (drop i v)) + length rest')%nat.
Proof.
  induction n as [|n IH]; intros i fuel v t rest Hi Hfuel Hv Hfit;
    (destruct fuel as [|fuel]; [lia|]); cbn [print_tail].
  - assert (i = 8%nat) as -> by lia. simpl (Z.of_nat 8 <? 8).
    rewrite drop_ge by lia. exists rest. cbn. now rewrite app_nil_r.
  - destruct (Z.ltb_spec (Z.of_nat i) 8) as [_|?]; [|lia].
    destruct (lookup_lt_is_Some_2 v i ltac:(lia)) as [x Hx].
    rewrite (load_of_nat _ _ _ Hx). cbn [bind].
    rewrite (drop_S _ _ _ Hx), tail_hex_cons in *.
    rewrite length_app in Hfit. cbn [length] in Hfit.
    rewrite sprintf_at_cursor by (cbn [length]; lia). cbn [bind].
    rewrite cursor_app.
    replace (Z.of_nat i + 1) with (Z.of_nat (S i)) by lia.
    destruct (IH (S i) fuel v (t ++ colon :: fmt_x x)
                (NUL :: drop (S (length (colon :: fmt_x x))) rest))
      as (rest' & E & Hlen); try lia.
    { cbn [length]. rewrite length_drop. lia. }
    (* the NUL that [sprintf] leaves is the first cell behind the cursor *)
    exists rest'. split.
    + rewrite E. now rewrite <- !app_assoc.
    + rewrite length_app. cbn [length] in *. rewrite length_drop in Hlen. lia.
Qed.

(** ** Words and separators *)

Lemma fmt_x_plain (x : Z) :
  in_u16 x -> fmt_x x <> [] /\ Forall plain_char (fmt_x x).
Proof.
  intros Hx. destruct (fmt_x_spec x Hx) as (Hne & _ & Hdig & _).
  split; [assumption|].
  eapply Forall_impl; [exact Hdig|]. intros c Hc.
  apply (is_digit_plain 16); [lia | assumption].
Qed.

Lemma fmt_x_snoc (x : Z) :
  in_u16 x -> exists w c, fmt_x x = w ++ [c] /\ plain_char c.
Proof.
  intros Hx. destruct (fmt_x_plain x Hx) as [Hne Hall].
  destruct (exists_last Hne) as (w & c & E).
  exists w, c. split; [assumption|].
  rewrite E in Hall. apply Forall_app in Hall as [_ Hc]. now inversion Hc.
Qed.

Lemma fmt_x_cons (x : Z) :
  in_u16 x -> exists c w, fmt_x x = c :: w /\ plain_char c.
Proof.
  intros Hx. destruct (fmt_x_plain x Hx) as [Hne Hall].
  destruct (fmt_x x) as [|c w]; [congruence|].
  exists c, w. split; [reflexivity | now inversion Hall].
Qed.

Lemma tail_hex_app (hs1 hs2 : list Z) :
  tail_hex (hs1 ++ hs2) = tail_hex hs1 ++ tail_hex hs2.
Proof. unfold tail_hex. apply flat_map_app. Qed.

Lemma tail_hex_snoc (hs : list Z) :
  hs <> [] -> Forall in_u16 hs ->
  exists T c, tail_hex hs = T ++ [c] /\ plain_char c.
Proof.
  intros Hne Hall.
  destruct (exists_last Hne) as (hs0 & x & ->).
  apply Forall_app in Hall as [_ Hx]. inversion Hx as [|? ? Hx' _]; subst.
  destruct (fmt_x_snoc x Hx') as (w & c & E & Hc).
  exists (tail_hex hs0 ++ colon :: w), c. split; [|assumption].
  rewrite tail_hex_app, tail_hex_cons. cbn [tail_hex flat_map].
  rewrite app_nil_r, E. now rewrite <- app_assoc.
Qed.

(** Behind the first hextet the two ways of laying out a list agree. *)
Lemma tail_hex_join (hs : list Z) :
  hs <> [] -> tail_hex hs = colon :: join_hex hs.
Proof.
  induction hs as [|x hs IH]; [congruence|]. intros _.
  destruct hs as [|y hs].
  - rewrite tail_hex_cons. cbn [tail_hex flat_map join_hex].
    now rewrite app_nil_r.
  - rewrite tail_hex_cons, IH by discriminate.
    now rewrite (join_hex_cons x (y :: hs)) by discriminate.
Qed.

Lemma tail_hex_length (hs : list Z) :
  Forall in_u16 hs -> (length (tail_hex hs) <= 5 * length hs)%nat.
Proof.
  induction 1 as [|x hs Hx _ IH]; [simpl; lia|].
  rewrite tail_hex_cons, length_app. cbn [length].
  destruct (fmt_x_spec x Hx) as (_ & Hlen & _). lia.
Qed.

Lemma join_hex_length (hs : list Z) :
  Forall in_u16 hs -> (length (join_hex hs) <= 5 * length hs - 1)%nat.
Proof.
  intros Hall. destruct hs as [|x hs]; [simpl; lia|].
  pose proof (tail_hex_length _ Hall) as H.
  rewrite tail_hex_join in H by discriminate. cbn [length] in *. lia.
Qed.

Lemma load_last (u : list ascii) (c : ascii) (rest : list ascii) :
  load ((u ++ [c]) ++ rest) (Z.of_nat (length (u ++ [c])) - 1) = Done c.
Proof.
  replace (Z.of_nat (length (u ++ [c])) - 1) with (Z.of_nat (length u))
    by (rewrite length_app; simpl; lia).
  apply load_of_nat. rewrite <- app_assoc.
  rewrite lookup_app_r by lia. now rewrite Nat.sub_diag.
Qed.

(** The block guarded by [if (i < 8)], entered behind the text [t]. *)
Lemma print_rest_spec (v : list Z) (nmax idx : nat) (t rest : list ascii) :
  length v = 8%nat -> Forall in_u16 v ->
  (idx < 8)%nat -> (idx + nmax <= 8)%nat ->
  (length (rest_text (drop (idx + nmax) v)) < length rest)%nat ->
  exists rest',
    print_rest v (Z.of_nat nmax) (Z.of_nat idx) (Z.of_nat (length t))
      (t ++ rest)
    = Done (Z.of_nat (length (t ++ rest_text (drop (idx + nmax) v))),
            (t ++ rest_text (drop (idx + nmax) v)) ++ rest') /\
    length rest
    = (length (rest_text (drop (idx + nmax) v)) + length rest')%nat.
Proof.
  intros Hv Hrange Hidx Hrun Hfit. unfold print_rest.
  destruct (Z.ltb_spec (Z.of_nat idx) 8) as [_|?]; [|lia].
  set (hs := drop (idx + nmax) v) in *.
  assert (Hhs : Forall in_u16 hs) by (now apply Forall_drop).
  unfold rest_text in *. cbn [length] in Hfit. rewrite length_app in Hfit.
  destruct rest as [|r rest]; [simpl in Hfit; lia|]. cbn [length] in Hfit.
  rewrite store_at_cursor. cbn [bind].
  rewrite (cursor_snoc t colon).
  replace (t ++ colon :: rest) with ((t ++ [colon]) ++ rest)
    by (now rewrite <- app_assoc).
  replace (Z.of_nat idx + Z.of_nat nmax) with (Z.of_nat (idx + nmax)) by lia.
  destruct (print_tail_spec (8 - (idx + nmax)) (idx + nmax) 9 v
              (t ++ [colon]) rest) as (rest1 & E & Hlen); try lia.
  { fold hs. lia. }
  fold hs in E, Hlen. rewrite E. cbn [bind].
  destruct hs as [|x hs'] eqn:Ehs.
  - cbn [tail_hex flat_map] in *. rewrite !app_nil_r in *.
    rewrite load_last. cbn [bind].
    change (Ascii.eqb colon colon) with true. cbv iota.
    destruct rest1 as [|r1 rest1]; [simpl in *; lia|].
    rewrite store_at_cursor. cbn [bind].
    exists rest1. split.
    + rewrite (cursor_snoc _ colon), <- !app_assoc. reflexivity.
    + simpl in *. lia.
  - destruct (tail_hex_snoc (x :: hs') ltac:(discriminate) Hhs)
      as (T & c & ET & Hc).
    rewrite ET in *. rewrite app_nil_r.
    assert (EQ : (t ++ [colon]) ++ T ++ [c] = ((t ++ [colon]) ++ T) ++ [c])
      by (now rewrite <- !app_assoc).
    assert (EQ' : ((t ++ [colon]) ++ T) ++ [c] = t ++ colon :: T ++ [c])
      by (now rewrite <- !app_assoc).
    rewrite EQ, load_last. cbn [bind].
    destruct (Ascii.eqb_spec c colon) as [->|_]; [now destruct Hc|].
    exists rest1. split.
    + now rewrite EQ'.
    + cbn [length] in *. lia.
Qed.

(** ** Texts as C strings *)

Lemma c_string_text (t rest : list ascii) :
  Forall (fun c => c <> NUL) t -> c_string (t ++ NUL :: rest) = Some t.
Proof.
  induction 1 as [|c t Hc _ IH]; [reflexivity|].
  cbn [c_string app]. rewrite IH.
  destruct (Ascii.eqb_spec c NUL); [contradiction | reflexivity].
Qed.

(** ** [ip6_2a] as a whole *)

Lemma ip6_text_length (v : list Z) (nmax idx : nat) :
  length v = 8%nat -> Forall in_u16 v -> block_shape nmax idx ->
  (length (ip6_text v nmax idx) <= 39)%nat.
Proof.
  intros Hv Hrange Hshape. unfold ip6_text. rewrite length_app.
  assert (Hj := join_hex_length (take idx v) ltac:(now apply Forall_take)).
  rewrite length_take in Hj.
  destruct Hshape as [[-> ->]|[Hn Hi]].
  - simpl (8 <? 8)%nat. simpl length at 2. lia.
  - destruct (Nat.ltb_spec idx 8); [|lia].
    assert (Ht := tail_hex_length (drop (idx + nmax) v)
                    ltac:(now apply Forall_drop)).
    rewrite length_drop in Ht.
    unfold rest_text. cbn [length]. rewrite length_app.
    assert (Hm : (length (match drop (idx + nmax) v with
                          | [] => [colon]
                          | _ :: _ => []
                          end) <= 1)%nat)
      by (destruct (drop (idx + nmax) v); simpl; lia).
    lia.
Qed.

Lemma ip6_2a_runs (addr : list byte) (buf : list ascii) (buf_len : Z)
    (nmax idx : nat) :
  length addr = 16%nat -> 40 <= buf_len -> (40 <= length buf)%nat ->
  find_zero_block 8 (hextets addr) 0 0 8 = Done (Z.of_nat nmax, Z.of_nat idx) ->
  block_shape nmax idx ->
  exists rest,
    ip6_2a addr buf buf_len
    = Done (ip6_text (hextets addr) nmax idx ++ NUL :: rest) /\
    length buf
    = (length (ip6_text (hextets addr) nmax idx) + 1 + length rest)%nat.
Proof.
  intros Haddr Hlen Hbuf Hsearch Hshape. unfold ip6_2a.
  destruct (Z.ltb_spec buf_len 40) as [?|_]; [lia|].
  rewrite read_hextets_16 by assumption. cbn [bind].
  set (v := hextets addr) in *.
  assert (Hv : length v = 8%nat)
    by (unfold v; rewrite hextets_length, Haddr; reflexivity).
  assert (Hrange : Forall in_u16 v) by apply hextets_range.
  rewrite Hsearch. cbn [bind].
  pose proof (ip6_text_length v nmax idx Hv Hrange Hshape) as Htext.
  unfold ip6_text in *. rewrite length_app in Htext.
  assert (Hidx : (idx <= 8)%nat) by (destruct Hshape; lia).
  destruct (print_head_spec idx 0 9 v idx [] buf) as (rest1 & E1 & L1);
    try lia.
  { rewrite drop_0. lia. }
  rewrite drop_0 in E1, L1.
  change (print_head 9 v (Z.of_nat idx) 0 0 buf
          = Done (Z.of_nat idx, Z.of_nat (length (join_hex (take idx v))),
                  join_hex (take idx v) ++ rest1)) in E1.
  rewrite E1. cbn [bind].
  destruct (Nat.ltb_spec idx 8) as [Hlt|Hge].
  - destruct Hshape as [[? ?]|[Hn Hi]]; [lia|].
    destruct (print_rest_spec v nmax idx (join_hex (take idx v)) rest1)
      as (rest2 & E2 & L2); try assumption; try lia.
    rewrite E2. cbn [bind].
    destruct rest2 as [|r2 rest2]; [cbn [length] in *; lia|].
    rewrite store_at_cursor.
    exists rest2. split.
    + now rewrite <- !app_assoc.
    + rewrite length_app. cbn [length] in *. lia.
  - unfold print_rest.
    destruct (Z.ltb_spec (Z.of_nat idx) 8) as [?|_]; [lia|]. cbn [bind].
    destruct rest1 as [|r1 rest1]; [cbn [length] in *; lia|].
    rewrite store_at_cursor, app_nil_r.
    exists rest1. split; [reflexivity|].
    cbn [length] in *. lia.
Qed.

(** The search result as a shape. *)
Lemma search_shape (v : list Z) :
  length v = 8%nat ->
  exists nmax idx,
    find_zero_block 8 v 0 0 8 = Done (Z.of_nat nmax, Z.of_nat idx) /\
    block_shape nmax idx /\
    ((idx = 8%nat /\ no_compressible_run v) \/ first_longest_run v idx nmax).
Proof.
  intros Hv.
  destruct (search_spec v Hv) as (nmax & idx & E & [(-> & -> & Hnone)|Hsome]).
  - exists 0%nat, 8%nat. repeat split; [exact E | left; lia | auto].
  - destruct Hsome as (s & l & -> & -> & Hrun).
    exists l, s. repeat split; [exact E | | auto].
    right. pose proof (first_longest_run_bounds v s l Hrun). lia.
Qed.

Lemma ip6_2a_string (addr : list byte) (buf : list ascii) (buf_len : Z) :
  length addr = 16%nat -> 40 <= buf_len -> (40 <= length buf)%nat ->
  exists rest,
    ip6_2a addr buf buf_len = Done (ip6_string (hextets addr) ++ NUL :: rest) /\
    length buf = (length (ip6_string (hextets addr)) + 1 + length rest)%nat /\
    (length (ip6_string (hextets addr)) <= 39)%nat.
Proof.
  intros Haddr Hlen Hbuf.
  assert (Hv : length (hextets addr) = 8%nat)
    by (rewrite hextets_length, Haddr; reflexivity).
  destruct (search_shape _ Hv) as (nmax & idx & E & Hshape & _).
  destruct (ip6_2a_runs addr buf buf_len nmax idx) as (rest & E' & L);
    try assumption.
  unfold ip6_string. rewrite E, !Nat2Z.id.
  exists rest. repeat split; try assumption.
  apply ip6_text_length; auto using hextets_range.
Qed.

(** ** The text, by the outcome of the search *)

Lemma rest_text_compress (hs : list Z) :
  rest_text hs = [colon; colon] ++ join_hex hs.
Proof.
  unfold rest_text. destruct hs as [|x hs]; [reflexivity|].
  rewrite tail_hex_join by discriminate. now rewrite app_nil_r.
Qed.

Lemma ip6_string_run (v : list Z) (s l : nat) :
  length v = 8%nat -> first_longest_run v s l ->
  ip6_string v = compressed_text v s l.
Proof.
  intros Hv Hrun. unfold ip6_string.
  rewrite (search_run v s l Hv Hrun), !Nat2Z.id.
  pose proof (first_longest_run_bounds v s l Hrun) as [Hl Hsl].
  unfold ip6_text, compressed_text.
  destruct (Nat.ltb_spec s 8); [|lia].
  now rewrite rest_text_compress.
Qed.

Lemma ip6_string_plain (v : list Z) :
  length v = 8%nat -> no_compressible_run v -> ip6_string v = join_hex v.
Proof.
  intros Hv Hnone. unfold ip6_string. rewrite (search_none v Hv Hnone).
  unfold ip6_text. change (Z.to_nat 8) with 8%nat.
  rewrite take_ge by lia. simpl (8 <? 8)%nat. cbv iota. apply app_nil_r.
Qed.

Lemma digit_is_text (c : ascii) : is_digit_of 16 c -> text_char c.
Proof. intros H. right. exact H. Qed.

Lemma tail_hex_chars (hs : list Z) :
  Forall in_u16 hs -> Forall text_char (tail_hex hs).
Proof.
  induction 1 as [|x hs Hx _ IH]; [constructor|].
  rewrite tail_hex_cons. apply Forall_app. split; [|exact IH].
  constructor; [now left|].
  eapply Forall_impl; [apply (fmt_x_spec x Hx) | apply digit_is_text].
Qed.

Lemma join_hex_chars (hs : list Z) :
  Forall in_u16 hs -> Forall text_char (join_hex hs).
Proof.
  intros Hall. destruct hs as [|x hs]; [constructor|].
  pose proof (tail_hex_chars _ Hall) as H.
  rewrite tail_hex_join in H by discriminate. now inversion H.
Qed.

Lemma ip6_text_chars (v : list Z) (nmax idx : nat) :
  Forall in_u16 v -> Forall text_char (ip6_text v nmax idx).
Proof.
  intros Hall. unfold ip6_text. apply Forall_app. split.
  - apply join_hex_chars. now apply Forall_take.
  - destruct (idx <? 8)%nat; [|constructor].
    unfold rest_text. constructor; [now left|].
    apply Forall_app. split.
    + apply tail_hex_chars. now apply Forall_drop.
    + destruct (drop (idx + nmax) v); repeat constructor.
Qed.

Lemma ip6_string_chars (v : list Z) :
  Forall in_u16 v -> Forall text_char (ip6_string v).
Proof.
  intros Hall. unfold ip6_string.
  destruct (find_zero_block 8 v 0 0 8) as [[nmax idx]|e]; [|constructor].
  now apply ip6_text_chars.
Qed.

Lemma text_char_not_NUL (c : ascii) : text_char c -> c <> NUL.
Proof.
  intros [->|H]; [discriminate|].
  apply (is_digit_plain 16); [lia | exact H].
Qed.

Lemma text_char_ascii (c : ascii) : text_char c -> (N_of_ascii c < 128)%N.
Proof.
  intros [->|H]; [reflexivity|].
  destruct (is_digit_of_inv 16 c ltac:(lia) H) as (d & Hd & ->).
  destruct (digit_cases d Hd) as
    [->|[->|[->|[->|[->|[->|[->|[->|[->|[->|[->|[->|[->|[->|[->| ->]]]]]]]]]]]]]]];
    reflexivity.
Qed.

(** The working form of the refinement: on a 16-byte address and a buffer
    of 40 bytes or more, [ip6_2a] ends and the buffer holds [ip6_string]. *)
Lemma ip6_2a_holds (addr : list byte) (buf : list ascii) (buf_len : Z) :
  length addr = 16%nat -> 40 <= buf_len -> (40 <= length buf)%nat ->
  holds_string (ip6_2a addr buf buf_len) (ip6_string (hextets addr)).
Proof.
  intros Haddr Hlen Hbuf.
  destruct (ip6_2a_string addr buf buf_len Haddr Hlen Hbuf) as (rest & E & _).
  eexists. split; [exact E|].
  apply c_string_text.
  eapply Forall_impl; [apply ip6_string_chars, hextets_range|].
  apply text_char_not_NUL.
Qed.

Lemma hextets_length_16 (addr : list byte) :
  length addr = 16%nat -> length (hextets addr) = 8%nat.
Proof. intros H. now rewrite hextets_length, H. Qed.

(** ** Counting double colons *)

Lemma join_hex_join_with (hs : list Z) :
  join_hex hs = join_with colon (map fmt_x hs).
Proof.
  induction hs as [|x hs IH]; [reflexivity|].
  destruct hs as [|y hs]; [reflexivity|].
  rewrite join_hex_cons by discriminate. rewrite IH. reflexivity.
Qed.

Lemma dcolons_app (a b : list ascii) :
  dcolons (a ++ b) = (dcolons a + dcolons b + seam a b)%nat.
Proof.
  induction a as [|c1 a IH]; [unfold seam; simpl; lia|].
  destruct a as [|c2 a].
  - unfold seam. destruct b as [|y b]; simpl; lia.
  - change ((c1 :: c2 :: a) ++ b) with (c1 :: (c2 :: a) ++ b).
    change (dcolons (c1 :: (c2 :: a) ++ b))
      with ((if Ascii.eqb c1 colon && Ascii.eqb c2 colon then 1 else 0)
            + dcolons ((c2 :: a) ++ b))%nat.
    rewrite IH.
    change (dcolons (c1 :: c2 :: a))
      with ((if Ascii.eqb c1 colon && Ascii.eqb c2 colon then 1 else 0)
            + dcolons (c2 :: a))%nat.
    unfold seam. rewrite (last_cons_cons c1 c2 a). lia.
Qed.

Lemma seam_plain_l (a b : list ascii) (c : ascii) :
  c <> colon -> seam (a ++ [c]) b = 0%nat.
Proof.
  intros Hc. unfold seam. rewrite last_snoc.
  destruct (head b); [|reflexivity].
  destruct (Ascii.eqb_spec c colon); [contradiction | reflexivity].
Qed.

Lemma seam_plain_r (a b : list ascii) (c : ascii) :
  c <> colon -> seam a (c :: b) = 0%nat.
Proof.
  intros Hc. unfold seam. destruct (last a); [|reflexivity]. simpl.
  destruct (Ascii.eqb_spec c colon); [contradiction|].
  now rewrite andb_false_r.
Qed.

Lemma seam_nil_l (b : list ascii) : seam [] b = 0%nat.
Proof. reflexivity. Qed.

Lemma seam_nil_r (a : list ascii) : seam a [] = 0%nat.
Proof. unfold seam. now destruct (last a). Qed.

Lemma dcolons_plain (w : list ascii) : Forall plain_char w -> dcolons w = 0%nat.
Proof.
  induction 1 as [|c w Hc Hw IH]; [reflexivity|].
  destruct w as [|c' w]; [reflexivity|].
  change (dcolons (c :: c' :: w))
    with ((if Ascii.eqb c colon && Ascii.eqb c' colon then 1 else 0)
          + dcolons (c' :: w))%nat.
  rewrite IH. destruct Hc as [Hc _].
  destruct (Ascii.eqb_spec c colon); [contradiction | reflexivity].
Qed.

(** A joined list of hextets has no double colon, and a colon neither at
    its start nor at its end. *)
Lemma join_hex_ends (hs : list Z) :
  hs <> [] -> Forall in_u16 hs ->
  (exists c t, join_hex hs = c :: t /\ plain_char c) /\
  (exists t c, join_hex hs = t ++ [c] /\ plain_char c).
Proof.
  intros Hne Hall. split.
  - destruct hs as [|x hs]; [congruence|].
    inversion Hall as [|? ? Hx _]; subst.
    destruct (fmt_x_cons x Hx) as (c & w & E & Hc).
    destruct hs as [|y hs].
    + exists c, w. now split.
    + exists c, (w ++ colon :: join_hex (y :: hs)).
      rewrite join_hex_cons by discriminate. rewrite E. now split.
  - destruct (tail_hex_snoc hs Hne Hall) as (T & c & E & Hc).
    rewrite tail_hex_join in E by assumption.
    destruct T as [|c0 T]; simpl in E.
    + inversion E; subst. now destruct Hc.
    + inversion E; subst. exists T, c. now split.
Qed.

Lemma dcolons_join_hex (hs : list Z) :
  Forall in_u16 hs -> dcolons (join_hex hs) = 0%nat.
Proof.
  induction 1 as [|x hs Hx Hall IH]; [reflexivity|].
  destruct (fmt_x_plain x Hx) as [_ Hplain].
  destruct hs as [|y hs]; [now apply dcolons_plain|].
  rewrite join_hex_cons by discriminate.
  destruct (fmt_x_snoc x Hx) as (w & c & E & Hc).
  destruct (join_hex_ends (y :: hs) ltac:(discriminate) Hall)
    as [(c' & t' & E' & Hc') _].
  rewrite dcolons_app, (dcolons_plain _ Hplain).
  rewrite E at 1. rewrite seam_plain_l by apply Hc.
  change (colon :: join_hex (y :: hs)) with ([colon] ++ join_hex (y :: hs)).
  rewrite dcolons_app, IH. rewrite E'. rewrite seam_plain_r by apply Hc'.
  reflexivity.
Qed.

Lemma seam_join_hex_l (hs : list Z) (b : list ascii) :
  Forall in_u16 hs -> seam (join_hex hs) b = 0%nat.
Proof.
  intros Hall. destruct hs as [|x hs]; [apply seam_nil_l|].
  destruct (join_hex_ends (x :: hs) ltac:(discriminate) Hall)
    as [_ (t & c & E & Hc)].
  rewrite E. apply seam_plain_l, Hc.
Qed.

Lemma seam_join_hex_r (a : list ascii) (hs : list Z) :
  Forall in_u16 hs -> seam a (join_hex hs) = 0%nat.
Proof.
  intros Hall. destruct hs as [|x hs]; [apply seam_nil_r|].
  destruct (join_hex_ends (x :: hs) ltac:(discriminate) Hall)
    as [(c & t & E & Hc) _].
  rewrite E. apply seam_plain_r, Hc.
Qed.

Lemma dcolons_compressed_text (v : list Z) (s l : nat) :
  Forall in_u16 v -> dcolons (compressed_text v s l) = 1%nat.
Proof.
  intros Hall. unfold compressed_text.
  rewrite !dcolons_app, !dcolons_join_hex
    by (apply Forall_take || apply Forall_drop; assumption).
  rewrite seam_join_hex_l by (now apply Forall_take).
  rewrite seam_join_hex_r by (now apply Forall_drop).
  reflexivity.
Qed.

Lemma dcolons_triple (a b : list ascii) :
  (2 <= dcolons (a ++ [colon; colon; colon] ++ b))%nat.
Proof.
  rewrite !dcolons_app. change (dcolons [colon; colon; colon]) with 2%nat. lia.
Qed.

(** ** Deciding statements about zero runs *)

Lemma zero_run_forall (v : list Z) (P : nat -> nat -> bool) :
  length v = 8%nat ->
  forallb (fun p => implb (zero_run v (fst p) (snd p)) (P (fst p) (snd p)))
    spans = true ->
  forall s l, zero_run v s l = true -> P s l = true.
Proof.
  intros Hv Hall s l Hrun. rewrite forallb_forall in Hall.
  specialize (Hall (s, l) (zero_run_in_spans v s l Hv Hrun)).
  simpl in Hall. now rewrite Hrun in Hall.
Qed.

Lemma first_longest_run_intro (v : list Z) (s l : nat) :
  zero_run v s l = true -> (2 <= l)%nat ->
  (forall s' l', zero_run v s' l' = true -> (l' <= l)%nat) ->
  (forall s', zero_run v s' l = true -> (s <= s')%nat) ->
  first_longest_run v s l.
Proof.
  intros Hrun Hl Hlongest Hearliest. repeat split; try assumption.
  intros s' l' Hrun'. specialize (Hlongest s' l' Hrun').
  destruct (decide (l' = l)) as [->|?]; [right | left; lia].
  split; [reflexivity | now apply Hearliest].
Qed.

Lemma adjacent_free_no_run (v : list Z) :
  (forall k, ~ (is_zero_at v k = true /\ is_zero_at v (S k) = true)) ->
  no_compressible_run v.
Proof.
  intros Hfree s l Hrun. apply zero_run_inv in Hrun as (_ & _ & Hz & _).
  destruct (Nat.lt_ge_cases l 2) as [?|Hl]; [assumption|].
  exfalso. apply (Hfree s). split; apply Hz; lia.
Qed.

Lemma holds_string_eq (r : result (list ascii)) (t t' : list ascii) :
  t = t' -> holds_string r t -> holds_string r t'.
Proof. now intros ->. Qed.

(** Formatting a given address: evaluate [ip6_string] on its hextets. *)
Ltac format_address :=
  intros;
  match goal with
  | |- holds_string (ip6_2a ?a _ _) _ =>
      apply (holds_string_eq _ (ip6_string (hextets a)));
      [ vm_compute; reflexivity
      | apply ip6_2a_holds; [reflexivity | assumption | assumption] ]
  end.

Lemma fmt_x_numeral (x : Z) : in_u16 x -> numeral 16 (fmt_x x) x.
Proof.
  intros Hx. destruct (fmt_x_spec x Hx) as (H1 & _ & H2 & H3 & H4 & H5).
  repeat split; assumption.
Qed.

Lemma fmt_d_numeral (x : Z) : 0 <= x < 256 -> numeral 10 (fmt_d x) x.
Proof.
  intros Hx. destruct (fmt_d_spec x Hx) as (H1 & _ & H2 & H3 & H4 & H5).
  repeat split; assumption.
Qed.

Lemma hextets_numerals (hs : list Z) :
  Forall in_u16 hs -> Forall2 (numeral 16) (map fmt_x hs) hs.
Proof.
  induction 1 as [|x hs Hx _ IH]; constructor;
    [now apply fmt_x_numeral | exact IH].
Qed.

Lemma dcolons_ip6_string (v : list Z) :
  length v = 8%nat -> Forall in_u16 v -> (dcolons (ip6_string v) <= 1)%nat.
Proof.
  intros Hv Hall.
  destruct (search_shape v Hv) as (nmax & idx & _ & _ & [[_ Hnone]|Hrun]).
  - rewrite (ip6_string_plain v Hv Hnone), dcolons_join_hex by assumption. lia.
  - rewrite (ip6_string_run v idx nmax Hv Hrun).
    rewrite dcolons_compressed_text by assumption. lia.
Qed.

(** ** [ip4_2a] as a whole *)

Lemma fmt_d_chars (x : Z) :
  0 <= x < 256 -> Forall (fun c => c <> NUL) (fmt_d x).
Proof.
  intros Hx. destruct (fmt_d_spec x Hx) as (_ & _ & Hdig & _).
  eapply Forall_impl; [exact Hdig|]. intros c Hc.
  apply (is_digit_plain 10); [lia | exact Hc].
Qed.

Lemma ip4_2a_holds (b0 b1 b2 b3 : byte) (buf : list ascii) (buf_len : Z) :
  16 <= buf_len -> (16 <= length buf)%nat ->
  holds_string (ip4_2a [b0; b1; b2; b3] buf buf_len)
    (ip4_string (Z.of_N (Byte.to_N b0)) (Z.of_N (Byte.to_N b1))
                (Z.of_N (Byte.to_N b2)) (Z.of_N (Byte.to_N b3))).
Proof.
  intros Hlen Hbuf. unfold ip4_2a.
  destruct (Z.ltb_spec buf_len 16) as [?|_]; [lia|].
  change (load_u8 [b0; b1; b2; b3] 0) with (Done (Z.of_N (Byte.to_N b0))).
  change (load_u8 [b0; b1; b2; b3] 1) with (Done (Z.of_N (Byte.to_N b1))).
  change (load_u8 [b0; b1; b2; b3] 2) with (Done (Z.of_N (Byte.to_N b2))).
  change (load_u8 [b0; b1; b2; b3] 3) with (Done (Z.of_N (Byte.to_N b3))).
  cbn [bind]. fold (ip4_string (Z.of_N (Byte.to_N b0)) (Z.of_N (Byte.to_N b1))
                      (Z.of_N (Byte.to_N b2)) (Z.of_N (Byte.to_N b3))).
  set (t := ip4_string _ _ _ _).
  pose proof (byte_range b0) as R0. pose proof (byte_range b1) as R1.
  pose proof (byte_range b2) as R2. pose proof (byte_range b3) as R3.
  assert (Ht : (length t <= 15)%nat).
  { unfold t, ip4_string. rewrite !length_app. cbn [length].
    rewrite !length_app. cbn [length]. rewrite !length_app. cbn [length].
    destruct (fmt_d_spec _ R0) as (_ & L0 & _).
    destruct (fmt_d_spec _ R1) as (_ & L1 & _).
    destruct (fmt_d_spec _ R2) as (_ & L2 & _).
    destruct (fmt_d_spec _ R3) as (_ & L3 & _). lia. }
  change (sprintf buf 0 t)
    with (sprintf ([] ++ buf) (Z.of_nat (length (@nil ascii))) t).
  rewrite sprintf_at_cursor by lia. cbn [bind].
  eexists. split; [reflexivity|].
  apply c_string_text. unfold t, ip4_string.
  repeat (rewrite Forall_app || rewrite Forall_cons).
  repeat split; try discriminate; now apply fmt_d_chars.
Qed.

(** ** Addresses of other lengths *)

Lemma hextets_take (k : nat) (addr : list byte) :
  hextets (take (2 * k) addr) = take k (hextets addr).
Proof.
  revert addr. induction k as [|k IH]; intros addr; [reflexivity|].
  replace (2 * S k)%nat with (S (S (2 * k))) by lia.
  destruct addr as [|a [|b addr]]; try reflexivity.
  cbn [take hextets]. now rewrite IH.
Qed.

Lemma ip6_2a_first_16 (addr : list byte) (buf : list ascii) (buf_len : Z) :
  (16 <= length addr)%nat ->
  ip6_2a addr buf buf_len = ip6_2a (take 16 addr) buf buf_len.
Proof.
  intros Haddr. unfold ip6_2a. destruct (buf_len <? 40); [reflexivity|].
  rewrite !read_hextets_start by (rewrite ?length_take; lia).
  change (take 16 addr) with (take (2 * 8) addr).
  rewrite (hextets_take 8 addr), take_take. reflexivity.
Qed.
(** ** The text around one hextet *)

Lemma lead_hex_app (hs1 hs2 : list Z) :
  lead_hex (hs1 ++ hs2) = lead_hex hs1 ++ lead_hex hs2.
Proof. unfold lead_hex. apply flat_map_app. Qed.

Lemma join_hex_middle (A : list Z) (x : Z) (B : list Z) :
  join_hex (A ++ x :: B) = lead_hex A ++ fmt_x x ++ tail_hex B.
Proof.
  induction A as [|a A IH].
  - destruct B as [|b B]; [symmetry; apply app_nil_r|].
    change ([] ++ x :: b :: B) with (x :: b :: B).
    rewrite join_hex_cons by discriminate.
    now rewrite tail_hex_join by discriminate.
  - change ((a :: A) ++ x :: B) with (a :: (A ++ x :: B)).
    rewrite join_hex_cons by (destruct A; discriminate).
    rewrite IH. change (lead_hex (a :: A)) with ((fmt_x a ++ [colon]) ++ lead_hex A).
    now rewrite <- !app_assoc.
Qed.

Lemma tail_hex_middle (A : list Z) (x : Z) (B : list Z) :
  tail_hex (A ++ x :: B) = tail_hex A ++ colon :: fmt_x x ++ tail_hex B.
Proof. now rewrite tail_hex_app, tail_hex_cons. Qed.

Lemma rest_text_middle (A : list Z) (x : Z) (B : list Z) :
  rest_text (A ++ x :: B)
  = colon :: tail_hex A ++ colon :: fmt_x x ++ tail_hex B.
Proof.
  unfold rest_text. rewrite tail_hex_middle.
  destruct A; cbn [app]; now rewrite app_nil_r.
Qed.

Lemma ip6_text_around (v : list Z) (nmax idx k : nat) (x : Z) :
  length v = 8%nat -> v !! k = Some x ->
  (k < idx \/ idx + nmax <= k)%nat ->
  ip6_text v nmax idx
  = text_before v nmax idx k ++ fmt_x x ++ text_after v nmax idx k.
Proof.
  intros Hv Hx Hout. pose proof (lookup_lt_Some _ _ _ Hx) as Hk.
  unfold ip6_text, text_before, text_after.
  destruct (Nat.ltb_spec k idx) as [Hlt|Hge].
  - assert (E : take k v ++ x :: drop (S k) (take idx v) = take idx v).
    { assert (Hx' : take idx v !! k = Some x)
        by (rewrite lookup_take_lt by lia; exact Hx).
      pose proof (take_drop_middle (take idx v) k x Hx') as E.
      rewrite take_take in E.
      now replace (k `min` idx)%nat with k in E by lia. }
    rewrite <- E at 1. rewrite join_hex_middle. now rewrite <- !app_assoc.
  - destruct (Nat.ltb_spec idx 8) as [_|?]; [|lia].
    set (hs := drop (idx + nmax) v).
    assert (Hhs : hs !! (k - (idx + nmax))%nat = Some x).
    { unfold hs. rewrite lookup_drop.
      now replace (idx + nmax + (k - (idx + nmax)))%nat with k by lia. }
    rewrite <- (take_drop_middle hs _ x Hhs) at 1.
    rewrite rest_text_middle. unfold hs at 2. rewrite drop_drop.
    replace (idx + nmax + S (k - (idx + nmax)))%nat with (S k) by lia.
    repeat (rewrite <- app_assoc || rewrite <- app_comm_cons). reflexivity.
Qed.

Lemma text_before_insert (v : list Z) (nmax idx k : nat) (y : Z) :
  (k < idx \/ idx + nmax <= k)%nat ->
  text_before (<[k := y]> v) nmax idx k = text_before v nmax idx k.
Proof.
  intros Hout. unfold text_before.
  destruct (Nat.ltb_spec k idx) as [Hlt|Hge].
  - now rewrite take_insert_ge by lia.
  - rewrite take_insert_ge by lia.
    rewrite drop_insert_ge by lia.
    now rewrite take_insert_ge by lia.
Qed.

Lemma text_after_insert (v : list Z) (nmax idx k : nat) (y : Z) :
  (k < idx \/ idx + nmax <= k)%nat ->
  text_after (<[k := y]> v) nmax idx k = text_after v nmax idx k.
Proof.
  intros Hout. unfold text_after.
  destruct (Nat.ltb_spec k idx) as [Hlt|Hge].
  - rewrite take_insert_lt by lia.
    rewrite drop_insert_lt by lia.
    now rewrite (drop_insert_lt v (idx + nmax)) by lia.
  - now rewrite drop_insert_lt by lia.
Qed.

Lemma same_block_eq (r1 r2 : result (Z * Z)) :
  same_block r1 r2 = true -> r1 = r2.
Proof.
  destruct r1 as [[n1 i1]|e1], r2 as [[n2 i2]|e2]; simpl; try discriminate.
  rewrite andb_true_iff, !Z.eqb_eq. now intros [-> ->].
Qed.

Lemma isolated_zero_ok_patterns : forallb isolated_zero_ok (patterns 8) = true.
Proof. vm_compute. reflexivity. Qed.

Lemma search_insert_isolated (v : list Z) (k : nat) (y : Z) :
  length v = 8%nat -> zero_run v k 1 = true -> y <> 0 ->
  find_zero_block 8 (<[k := y]> v) 0 0 8 = find_zero_block 8 v 0 0 8.
Proof.
  intros Hv Hrun Hy.
  rewrite <- (find_zero_block_pattern 8 (<[k := y]> v)).
  rewrite <- (find_zero_block_pattern 8 v).
  change (map zero_pattern (<[k := y]> v)) with (zero_pattern <$> <[k := y]> v).
  rewrite list_fmap_insert.
  assert (Ey : zero_pattern y = 1)
    by (unfold zero_pattern; destruct (Z.eqb_spec y 0); congruence).
  rewrite Ey. apply same_block_eq.
  pose proof isolated_zero_ok_patterns as H. rewrite forallb_forall in H.
  specialize (H (map zero_pattern v)
                ltac:(rewrite <- Hv; apply zero_pattern_in_patterns)).
  unfold isolated_zero_ok in H. rewrite forallb_forall in H.
  apply zero_run_inv in Hrun as Hinv. destruct Hinv as (_ & Hk & _).
  specialize (H k ltac:(apply in_seq; lia)).
  rewrite zero_run_pattern, Hrun in H. exact H.
Qed.

(** An isolated zero lies neither in the compressed run nor next to it. *)
Lemma isolated_zero_apart (v : list Z) (k s l : nat) :
  zero_run v k 1 = true -> first_longest_run v s l ->
  (k + 1 < s \/ s + l < k)%nat.
Proof.
  intros Hk (Hrun & Hl & _).
  apply zero_run_inv in Hk as (_ & _ & Hkz & Hkpre & Hkpost).
  apply zero_run_inv in Hrun as (_ & _ & Hz & Hpre & Hpost).
  specialize (Hkz k ltac:(lia)).
  destruct (Nat.lt_ge_cases (k + 1) s) as [?|Hks]; [now left|].
  destruct (Nat.lt_ge_cases (s + l) k) as [?|Hsk]; [now right|].
  exfalso.
  destruct (decide (k + 1 = s)%nat) as [<-|?].
  { destruct Hpre as [?|Hpre]; [lia|].
    replace (k + 1 - 1)%nat with k in Hpre by lia. congruence. }
  destruct (decide (k = s + l)%nat) as [->|?]; [congruence|].
  destruct (decide (k = s)) as [->|?].
  - rewrite (Hz (s + 1)%nat) in Hkpost by lia. discriminate.
  - destruct Hkpre as [?|Hkpre]; [lia|].
    rewrite (Hz (k - 1)%nat) in Hkpre by lia. discriminate.
Qed.

Lemma lead_hex_snoc (hs : list Z) :
  hs <> [] -> Forall in_u16 hs ->
  exists p c, lead_hex hs = p ++ [c; colon] /\ c <> colon.
Proof.
  intros Hne Hall. destruct (exists_last Hne) as (hs0 & x & ->).
  apply Forall_app in Hall as [_ Hx]. inversion Hx as [|? ? Hx' _]; subst.
  destruct (fmt_x_snoc x Hx') as (w & c & E & Hc).
  exists (lead_hex hs0 ++ w), c. split; [|apply Hc].
  rewrite lead_hex_app. unfold lead_hex at 2. cbn [flat_map].
  rewrite app_nil_r, E. now rewrite <- !app_assoc.
Qed.

Lemma tail_hex_head (hs : list Z) :
  hs <> [] -> Forall in_u16 hs ->
  exists c q, tail_hex hs = colon :: c :: q /\ c <> colon.
Proof.
  intros Hne Hall. destruct hs as [|x hs]; [congruence|].
  inversion Hall as [|? ? Hx _]; subst.
  destruct (fmt_x_cons x Hx) as (c & w & E & Hc).
  exists c, (w ++ tail_hex hs). split; [|apply Hc].
  rewrite tail_hex_cons, E. reflexivity.
Qed.

Lemma text_before_shape (v : list Z) (nmax idx k : nat) :
  length v = 8%nat -> Forall in_u16 v -> (k < 8)%nat ->
  (k < idx \/ idx + nmax < k)%nat ->
  (k = 0%nat /\ text_before v nmax idx k = []) \/
  ((0 < k)%nat /\
   exists p c, text_before v nmax idx k = p ++ [c; colon] /\ c <> colon).
Proof.
  intros Hv Hall Hk Hout. unfold text_before.
  destruct (Nat.ltb_spec k idx) as [Hlt|Hge].
  - destruct k as [|k]; [now left|]. right. split; [lia|].
    apply lead_hex_snoc; [|now apply Forall_take].
    intros E. apply (f_equal length) in E. rewrite length_take in E.
    cbn [length] in E. lia.
  - right. split; [lia|].
    set (A := take (k - (idx + nmax)) (drop (idx + nmax) v)).
    assert (HA : A <> []).
    { intros E. apply (f_equal length) in E. unfold A in E.
      rewrite length_take, length_drop in E. cbn [length] in E. lia. }
    destruct (tail_hex_snoc A HA) as (T & c & E & Hc).
    { unfold A. now apply Forall_take, Forall_drop. }
    exists (join_hex (take idx v) ++ colon :: T), c. split; [|apply Hc].
    rewrite E. repeat (rewrite <- app_assoc || rewrite <- app_comm_cons).
    reflexivity.
Qed.

Lemma text_after_shape (v : list Z) (nmax idx k : nat) :
  length v = 8%nat -> Forall in_u16 v -> (k < 8)%nat -> (idx <= 8)%nat ->
  (k + 1 < idx \/ (k < idx /\ idx = 8) \/ idx <= k)%nat ->
  (k = 7%nat /\ text_after v nmax idx k = []) \/
  ((k < 7)%nat /\
   exists c q, text_after v nmax idx k = colon :: c :: q /\ c <> colon).
Proof.
  intros Hv Hall Hk Hidx Hout. unfold text_after.
  destruct (Nat.ltb_spec k idx) as [Hlt|Hge].
  - destruct (decide (k + 1 < idx)%nat) as [Hin|Hlast].
    + right. split; [lia|].
      set (B := drop (S k) (take idx v)).
      assert (HB : B <> []).
      { intros E. apply (f_equal length) in E. unfold B in E.
        rewrite length_drop, length_take in E. cbn [length] in E. lia. }
      destruct (tail_hex_head B HB) as (c & q & E & Hc).
      { unfold B. now apply Forall_drop, Forall_take. }
      rewrite E. eexists c, _. split; [reflexivity | exact Hc].
    + left. assert (idx = 8%nat) as -> by lia.
      split; [lia|]. simpl (8 <? 8)%nat. cbv iota.
      rewrite drop_ge by (rewrite length_take; lia). reflexivity.
  - destruct (decide (k = 7%nat)) as [->|?].
    + left. split; [reflexivity|]. now rewrite drop_ge by lia.
    + right. split; [lia|].
      apply tail_hex_head; [|now apply Forall_drop].
      intros E. apply (f_equal length) in E. rewrite length_drop in E.
      cbn [length] in E. lia.
Qed.

(** Where an isolated zero stands relative to the block the search found. *)
Lemma isolated_zero_outside (v : list Z) (k : nat) :
  length v = 8%nat -> zero_run v k 1 = true ->
  exists nmax idx,
    find_zero_block 8 v 0 0 8 = Done (Z.of_nat nmax, Z.of_nat idx) /\
    (k < 8)%nat /\ (idx <= 8)%nat /\ (k < idx \/ idx + nmax < k)%nat /\
    (k + 1 < idx \/ (k < idx /\ idx = 8) \/ idx <= k)%nat.
Proof.
  intros Hv Hk.
  assert (Hk8 : (k < 8)%nat)
    by (apply zero_run_inv in Hk as (_ & ? & _); lia).
  destruct (search_shape v Hv) as (nmax & idx & E & Hs & [[Hi _]|Hrun]);
    exists nmax, idx; (split; [exact E|]); (split; [exact Hk8|]);
    (split; [destruct Hs; lia|]).
  - split; [left; lia | right; left; lia].
  - destruct (isolated_zero_apart v k idx nmax Hk Hrun); split; lia.
Qed.

(** * The claims of the specification *)

(** C1.  Among the zero runs of two or more hextets that tie for the longest
    length, [ip6_2a] compresses the one with the smallest starting index:
    if the run of [l] hextets at [s] is a longest one and no run of that
    length starts before it, the buffer ends up holding the text with that
    run replaced by ["::"].  In particular the hextets [0,0,1,0,0,1,1,1]
    give ["::1:0:0:1:1:1"], the run at 0 winning over the one at 3. *)
Theorem ip6_tie_compresses_earliest_run :
  (forall (addr : list byte) (buf : list ascii) (buf_len : Z) (s l : nat),
      length addr = 16%nat -> 40 <= buf_len -> (40 <= length buf)%nat ->
      zero_run (hextets addr) s l = true -> (2 <= l)%nat ->
      (forall s' l', zero_run (hextets addr) s' l' = true -> (l' <= l)%nat) ->
      (forall s', zero_run (hextets addr) s' l = true -> (s <= s')%nat) ->
      holds_string (ip6_2a addr buf buf_len)
        (compressed_text (hextets addr) s l))
  /\
  (forall (buf : list ascii) (buf_len : Z),
      40 <= buf_len -> (40 <= length buf)%nat ->
      holds_string (ip6_2a (addr_of_hextets [0; 0; 1; 0; 0; 1; 1; 1]) buf buf_len)
        (list_ascii_of_string "::1:0:0:1:1:1")).
Proof.
  split; [|format_address].
  intros addr buf buf_len s l Haddr Hlen Hbuf Hrun Hl Hlongest Hearliest.
  rewrite <- (ip6_string_run (hextets addr) s l).
  - now apply ip6_2a_holds.
  - now apply hextets_length_16.
  - now apply first_longest_run_intro.
Qed.

Lemma ip6_tie_compresses_earliest_run_witness :
  zero_run (hextets (addr_of_hextets [0; 0; 1; 0; 0; 1; 1; 1])) 0 2 = true /\
  zero_run (hextets (addr_of_hextets [0; 0; 1; 0; 0; 1; 1; 1])) 3 2 = true /\
  holds_string
    (ip6_2a (addr_of_hextets [0; 0; 1; 0; 0; 1; 1; 1]) (fresh_buf 40) 40)
    (compressed_text (hextets (addr_of_hextets [0; 0; 1; 0; 0; 1; 1; 1])) 0 2).
Proof.
  split; [reflexivity|]. split; [reflexivity|].
  apply (proj1 ip6_tie_compresses_earliest_run).
  - reflexivity.
  - lia.
  - simpl. lia.
  - reflexivity.
  - lia.
  - intros s' l' H. apply Nat.leb_le. revert s' l' H.
    apply (zero_run_forall _ (fun _ l' => (l' <=? 2)%nat)); reflexivity.
  - intros s' H. lia.
Defined.

(** C2.  The all-zero address is formatted as exactly ["::"], two
    characters: neither [":::"] nor ["::::"]. *)
Theorem ip6_all_zero_is_double_colon :
  forall (buf : list ascii) (buf_len : Z),
    40 <= buf_len -> (40 <= length buf)%nat ->
    holds_string (ip6_2a (replicate 16 x00) buf buf_len)
      (list_ascii_of_string "::").
Proof. format_address. Qed.

Lemma ip6_all_zero_is_double_colon_witness :
  holds_string (ip6_2a (replicate 16 x00) (fresh_buf 40) 40)
    (list_ascii_of_string "::").
Proof.
  apply ip6_all_zero_is_double_colon; [lia | simpl; lia].
Defined.

(** C3.  When the compressed zero run reaches the last hextet (index 7) the
    text ends with exactly two colons: it is the hextets before the run,
    which do not end with a colon, followed by ["::"].  In particular the
    hextets [1,2,3,4,5,0,0,0] give ["1:2:3:4:5::"]. *)
Theorem ip6_run_to_end_ends_with_two_colons :
  (forall (addr : list byte) (buf : list ascii) (buf_len : Z) (s l : nat),
      length addr = 16%nat -> 40 <= buf_len -> (40 <= length buf)%nat ->
      first_longest_run (hextets addr) s l -> (s + l = 8)%nat ->
      exists pre,
        holds_string (ip6_2a addr buf buf_len) (pre ++ [colon; colon]) /\
        last pre <> Some colon /\
        pre = join_hex (take s (hextets addr)))
  /\
  (forall (buf : list ascii) (buf_len : Z),
      40 <= buf_len -> (40 <= length buf)%nat ->
      holds_string (ip6_2a (addr_of_hextets [1; 2; 3; 4; 5; 0; 0; 0]) buf buf_len)
        (list_ascii_of_string "1:2:3:4:5::")).
Proof.
  split; [|format_address].
  intros addr buf buf_len s l Haddr Hlen Hbuf Hrun Hend.
  pose proof (hextets_length_16 addr Haddr) as Hv.
  exists (join_hex (take s (hextets addr))). repeat split.
  - apply (holds_string_eq _ (ip6_string (hextets addr)));
      [|now apply ip6_2a_holds].
    rewrite (ip6_string_run _ s l Hv Hrun). unfold compressed_text.
    rewrite Hend, drop_ge by lia. reflexivity.
  - destruct (take s (hextets addr)) as [|x hs] eqn:E; [discriminate|].
    assert (Hall : Forall in_u16 (x :: hs))
      by (rewrite <- E; apply Forall_take, hextets_range).
    destruct (join_hex_ends (x :: hs) ltac:(discriminate) Hall)
      as [_ (t & c & Et & Hc)].
    rewrite Et, last_snoc. intros [= ->]. now destruct Hc.
Qed.

Lemma ip6_run_to_end_ends_with_two_colons_witness :
  first_longest_run (hextets (addr_of_hextets [1; 2; 3; 4; 5; 0; 0; 0])) 5 3 /\
  exists pre,
    holds_string
      (ip6_2a (addr_of_hextets [1; 2; 3; 4; 5; 0; 0; 0]) (fresh_buf 40) 40)
      (pre ++ [colon; colon]) /\
    last pre <> Some colon /\
    pre = join_hex (take 5 (hextets (addr_of_hextets [1; 2; 3; 4; 5; 0; 0; 0]))).
Proof.
  assert (H : first_longest_run
                (hextets (addr_of_hextets [1; 2; 3; 4; 5; 0; 0; 0])) 5 3)
    by (apply first_longest_run_reflect; reflexivity).
  split; [exact H|].
  apply (proj1 ip6_run_to_end_ends_with_two_colons _ _ _ 5%nat 3%nat);
    [reflexivity | lia | simpl; lia | exact H | reflexivity].
Defined.

(** C4.  A zero run of length 1 is never compressed.  An isolated zero
    hextet lies outside the compressed run, if there is one, and its word
    in the text is ["0"]: the text is [pre], ["0"], [post], where [pre] is
    empty for hextet 0 and otherwise ends with one colon behind a digit,
    and [post] is empty for hextet 7 and otherwise starts with one colon
    before a digit.  [pre] and [post] are the surroundings of that hextet's
    word: an address that differs in this hextet only is formatted as
    [pre], the hextet in hexadecimal, [post].  In particular the hextets
    [1,0,2,3,4,5,6,7] give ["1:0:2:3:4:5:6:7"]. *)
Theorem ip6_isolated_zero_not_compressed :
  (forall (addr : list byte) (buf : list ascii) (buf_len : Z) (k : nat),
      length addr = 16%nat -> 40 <= buf_len -> (40 <= length buf)%nat ->
      zero_run (hextets addr) k 1 = true ->
      (forall s l, first_longest_run (hextets addr) s l ->
                   (k < s \/ s + l <= k)%nat) /\
      exists pre post,
        holds_string (ip6_2a addr buf buf_len) (pre ++ "0"%char :: post) /\
        ((k = 0%nat /\ pre = []) \/
         ((0 < k)%nat /\ exists p c, pre = p ++ [c; colon] /\ c <> colon)) /\
        ((k = 7%nat /\ post = []) \/
         ((k < 7)%nat /\ exists c q, post = colon :: c :: q /\ c <> colon)) /\
        (forall (addr' : list byte) (x : Z),
            length addr' = 16%nat ->
            hextets addr' = <[k := x]> (hextets addr) ->
            holds_string (ip6_2a addr' buf buf_len) (pre ++ fmt_x x ++ post)))
  /\
  (forall (buf : list ascii) (buf_len : Z),
      40 <= buf_len -> (40 <= length buf)%nat ->
      holds_string (ip6_2a (addr_of_hextets [1; 0; 2; 3; 4; 5; 6; 7]) buf buf_len)
        (list_ascii_of_string "1:0:2:3:4:5:6:7")).
Proof.
  split; [|format_address].
  intros addr buf buf_len k Haddr Hlen Hbuf Hk.
  set (v := hextets addr) in *.
  assert (Hv : length v = 8%nat) by now apply hextets_length_16.
  assert (Hall : Forall in_u16 v) by apply hextets_range.
  split.
  { intros s l Hrun. destruct (isolated_zero_apart v k s l Hk Hrun); lia. }
  destruct (isolated_zero_outside v k Hv Hk)
    as (nmax & idx & E & Hk8 & Hidx & Hout & Hout').
  assert (Hout2 : (k < idx \/ idx + nmax <= k)%nat) by lia.
  assert (Hvk : v !! k = Some 0).
  { apply zero_run_inv in Hk as (_ & _ & Hz & _).
    specialize (Hz k ltac:(lia)). unfold is_zero_at in Hz.
    destruct (v !! k) as [x|]; [|discriminate].
    apply Z.eqb_eq in Hz. now subst. }
  assert (Hstr : forall v' x, length v' = 8%nat -> v' !! k = Some x ->
             find_zero_block 8 v' 0 0 8 = Done (Z.of_nat nmax, Z.of_nat idx) ->
             ip6_string v'
             = text_before v' nmax idx k ++ fmt_x x ++ text_after v' nmax idx k).
  { intros v' x Hv' Hx E'. unfold ip6_string. rewrite E', !Nat2Z.id.
    now apply ip6_text_around. }
  exists (text_before v nmax idx k), (text_after v nmax idx k).
  split; [|split; [|split]].
  - apply (holds_string_eq _ (ip6_string v)); [|now apply ip6_2a_holds].
    now rewrite (Hstr v 0 Hv Hvk E).
  - now apply text_before_shape.
  - now apply text_after_shape.
  - intros addr' x Haddr' Hv'.
    apply (holds_string_eq _ (ip6_string (hextets addr')));
      [|now apply ip6_2a_holds].
    rewrite Hv'. destruct (Z.eq_dec x 0) as [->|Hx].
    + rewrite list_insert_id by exact Hvk. now apply Hstr.
    + rewrite (Hstr (<[k := x]> v) x).
      * now rewrite text_before_insert, text_after_insert.
      * now rewrite length_insert.
      * apply list_lookup_insert_eq. lia.
      * now rewrite search_insert_isolated.
Qed.

Lemma ip6_isolated_zero_not_compressed_witness :
  zero_run (hextets (addr_of_hextets [1; 0; 0; 4; 0; 5; 6; 7])) 4 1 = true /\
  exists pre post,
    holds_string
      (ip6_2a (addr_of_hextets [1; 0; 0; 4; 0; 5; 6; 7]) (fresh_buf 40) 40)
      (pre ++ "0"%char :: post) /\
    ((4 = 0 /\ pre = [])%nat \/
     ((0 < 4)%nat /\ exists p c, pre = p ++ [c; colon] /\ c <> colon)) /\
    ((4 = 7 /\ post = [])%nat \/
     ((4 < 7)%nat /\ exists c q, post = colon :: c :: q /\ c <> colon)) /\
    (forall (addr' : list byte) (x : Z),
        length addr' = 16%nat ->
        hextets addr'
        = <[4%nat := x]> (hextets (addr_of_hextets [1; 0; 0; 4; 0; 5; 6; 7])) ->
        holds_string (ip6_2a addr' (fresh_buf 40) 40) (pre ++ fmt_x x ++ post)).
Proof.
  split; [reflexivity|].
  apply (proj1 ip6_isolated_zero_not_compressed
           (addr_of_hextets [1; 0; 0; 4; 0; 5; 6; 7]) (fresh_buf 40) 40 4%nat);
    [reflexivity | lia | simpl; lia | reflexivity].
Defined.

(** C5.  When no two consecutive hextets are zero, nothing is compressed:
    the text is eight words joined by single colons, the word for each
    hextet being its numeral in lowercase hexadecimal without leading
    zeros.  In particular the address of all [0xff] bytes gives
    ["ffff:ffff:ffff:ffff:ffff:ffff:ffff:ffff"]. *)
Theorem ip6_no_zero_run_no_compression :
  (forall (addr : list byte) (buf : list ascii) (buf_len : Z),
      length addr = 16%nat -> 40 <= buf_len -> (40 <= length buf)%nat ->
      (forall k, ~ (is_zero_at (hextets addr) k = true /\
                    is_zero_at (hextets addr) (S k) = true)) ->
      exists ws,
        holds_string (ip6_2a addr buf buf_len) (join_with colon ws) /\
        length ws = 8%nat /\
        Forall2 (numeral 16) ws (hextets addr))
  /\
  (forall (buf : list ascii) (buf_len : Z),
      40 <= buf_len -> (40 <= length buf)%nat ->
      holds_string (ip6_2a (replicate 16 xff) buf buf_len)
        (list_ascii_of_string "ffff:ffff:ffff:ffff:ffff:ffff:ffff:ffff")).
Proof.
  split; [|format_address].
  intros addr buf buf_len Haddr Hlen Hbuf Hfree.
  pose proof (hextets_length_16 addr Haddr) as Hv.
  exists (map fmt_x (hextets addr)). repeat split.
  - rewrite <- join_hex_join_with.
    rewrite <- (ip6_string_plain (hextets addr) Hv
                  (adjacent_free_no_run _ Hfree)).
    now apply ip6_2a_holds.
  - now rewrite length_map.
  - apply hextets_numerals, hextets_range.
Qed.

Lemma ip6_no_zero_run_no_compression_witness :
  exists ws,
    holds_string (ip6_2a (addr_of_hextets [1; 0; 2; 3; 4; 5; 6; 7])
                    (fresh_buf 40) 40) (join_with colon ws) /\
    length ws = 8%nat /\
    Forall2 (numeral 16) ws (hextets (addr_of_hextets [1; 0; 2; 3; 4; 5; 6; 7])).
Proof.
  apply (proj1 ip6_no_zero_run_no_compression);
    [reflexivity | lia | simpl; lia |].
  intros k [H0 H1].
  do 8 (destruct k as [|k]; [discriminate|]). discriminate.
Defined.

(** C6.  Whatever the address, the text holds at most one ["::"] and never
    three colons in a row. *)
Theorem ip6_at_most_one_double_colon :
  forall (addr : list byte) (buf : list ascii) (buf_len : Z),
    length addr = 16%nat -> 40 <= buf_len -> (40 <= length buf)%nat ->
    exists t,
      holds_string (ip6_2a addr buf buf_len) t /\
      (dcolons t <= 1)%nat /\
      ~ (exists a b, t = a ++ [colon; colon; colon] ++ b).
Proof.
  intros addr buf buf_len Haddr Hlen Hbuf.
  exists (ip6_string (hextets addr)).
  assert (Hd : (dcolons (ip6_string (hextets addr)) <= 1)%nat)
    by (apply dcolons_ip6_string;
        [now apply hextets_length_16 | apply hextets_range]).
  repeat split.
  - now apply ip6_2a_holds.
  - exact Hd.
  - intros (a & b & E). rewrite E in Hd.
    pose proof (dcolons_triple a b). lia.
Qed.

Lemma ip6_at_most_one_double_colon_witness :
  exists t,
    holds_string (ip6_2a (addr_of_hextets [0; 0; 1; 0; 0; 1; 0; 0])
                    (fresh_buf 40) 40) t /\
    (dcolons t <= 1)%nat /\
    ~ (exists a b, t = a ++ [colon; colon; colon] ++ b).
Proof.
  apply ip6_at_most_one_double_colon; [reflexivity | lia | simpl; lia].
Defined.

(** C7.  [ip6_2a] is total on 16-byte addresses: given a buffer of 40 bytes
    or more it ends without touching anything outside the address or the
    buffer, and leaves a NUL-terminated string of at most 39 ASCII
    characters, so the text and its terminator fit into 40 bytes. *)
Theorem ip6_2a_total :
  forall (addr : list byte) (buf : list ascii) (buf_len : Z),
    length addr = 16%nat -> 40 <= buf_len -> (40 <= length buf)%nat ->
    exists t rest,
      ip6_2a addr buf buf_len = Done (t ++ NUL :: rest) /\
      c_string (t ++ NUL :: rest) = Some t /\
      (length t <= 39)%nat /\
      Forall (fun c => c <> NUL /\ (N_of_ascii c < 128)%N) t /\
      length (t ++ NUL :: rest) = length buf.
Proof.
  intros addr buf buf_len Haddr Hlen Hbuf.
  destruct (ip6_2a_string addr buf buf_len Haddr Hlen Hbuf)
    as (rest & E & Hsize & Hshort).
  pose proof (ip6_string_chars _ (hextets_range addr)) as Hchars.
  exists (ip6_string (hextets addr)), rest. repeat split.
  - exact E.
  - apply c_string_text.
    eapply Forall_impl; [exact Hchars | apply text_char_not_NUL].
  - exact Hshort.
  - eapply Forall_impl; [exact Hchars|]. intros c Hc.
    split; [now apply text_char_not_NUL | now apply text_char_ascii].
  - rewrite length_app. cbn [length]. lia.
Qed.

Lemma ip6_2a_total_witness :
  exists t rest,
    ip6_2a (replicate 16 xff) (fresh_buf 40) 40 = Done (t ++ NUL :: rest) /\
    c_string (t ++ NUL :: rest) = Some t /\
    (length t <= 39)%nat /\
    Forall (fun c => c <> NUL /\ (N_of_ascii c < 128)%N) t /\
    length (t ++ NUL :: rest) = length (fresh_buf 40).
Proof.
  apply ip6_2a_total; [reflexivity | lia | simpl; lia].
Defined.

(** C8 (as stated it fails).  On a 15-byte address and a sufficient buffer
    [ip6_2a] signals no length error: it loads the byte at index 15, behind
    the end of the address; [ip4_2a] does the same on a 3-byte address. *)
Lemma short_address_is_read_past_its_end :
  ip6_2a (replicate 15 x00) (fresh_buf 40) 40 = Fault (ReadOutOfBounds 15) /\
  ip4_2a [xc0; xa8; x01] (fresh_buf 16) 16 = Fault (ReadOutOfBounds 3).
Proof. split; vm_compute; reflexivity. Qed.

(** C8 (amended).  The formatters take no address length and check none,
    and they have no error result.  Given at least 16 (for [ip4_2a]: 4)
    address bytes they read the first 16 (4) only and, with a buffer of at
    least 40 (16) bytes, run to completion.  Given fewer bytes, and a
    [buf_len] that passes the capacity check, they read behind the end of
    what was supplied: the run stops at a read whose index is not below the
    number of bytes.  Which such index is met first depends on the order of
    the reads, which C leaves open, so none is named. *)
Theorem address_length_is_not_checked :
  (forall (addr : list byte) (buf : list ascii) (buf_len : Z),
      (16 <= length addr)%nat ->
      ip6_2a addr buf buf_len = ip6_2a (take 16 addr) buf buf_len /\
      (40 <= buf_len -> (40 <= length buf)%nat ->
       exists buf', ip6_2a addr buf buf_len = Done buf'))
  /\
  (forall (addr : list byte) (buf : list ascii) (buf_len : Z),
      (4 <= length addr)%nat ->
      ip4_2a addr buf buf_len = ip4_2a (take 4 addr) buf buf_len /\
      (16 <= buf_len -> (16 <= length buf)%nat ->
       exists buf', ip4_2a addr buf buf_len = Done buf'))
  /\
  (forall (addr : list byte) (buf : list ascii) (buf_len : Z),
      (length addr < 16)%nat -> 40 <= buf_len ->
      exists i, Z.of_nat (length addr) <= i < 16 /\
                ip6_2a addr buf buf_len = Fault (ReadOutOfBounds i))
  /\
  (forall (addr : list byte) (buf : list ascii) (buf_len : Z),
      (length addr < 4)%nat -> 16 <= buf_len ->
      exists i, Z.of_nat (length addr) <= i < 4 /\
                ip4_2a addr buf buf_len = Fault (ReadOutOfBounds i)).
Proof.
  split; [|split; [|split]].
  - intros addr buf buf_len Haddr. split; [now apply ip6_2a_first_16|].
    intros Hlen Hbuf. rewrite ip6_2a_first_16 by assumption.
    destruct (ip6_2a_string (take 16 addr) buf buf_len) as (rest & E & _);
      [rewrite length_take; lia | assumption | assumption |].
    eexists. exact E.
  - intros addr buf buf_len Haddr.
    destruct addr as [|b0 [|b1 [|b2 [|b3 addr]]]]; simpl in Haddr; try lia.
    split; [reflexivity|]. intros Hlen Hbuf.
    change (ip4_2a (b0 :: b1 :: b2 :: b3 :: addr) buf buf_len)
      with (ip4_2a [b0; b1; b2; b3] buf buf_len).
    destruct (ip4_2a_holds b0 b1 b2 b3 buf buf_len Hlen Hbuf) as (buf' & E & _).
    eexists. exact E.
  - intros addr buf buf_len Haddr Hlen.
    exists (Z.of_nat (length addr)). split; [lia|]. unfold ip6_2a.
    destruct (Z.ltb_spec buf_len 40) as [?|_]; [lia|].
    change 0 with (Z.of_nat (2 * 0)) at 1.
    rewrite (read_hextets_short 8 0 9) by (simpl; lia). reflexivity.
  - intros addr buf buf_len Haddr Hlen.
    exists (Z.of_nat (length addr)). split; [lia|]. unfold ip4_2a.
    destruct (Z.ltb_spec buf_len 16) as [?|_]; [lia|].
    destruct addr as [|b0 [|b1 [|b2 [|b3 addr]]]]; simpl in Haddr; try lia;
      reflexivity.
Qed.

Lemma address_length_is_not_checked_witness :
  (exists i, Z.of_nat (length (replicate 15 xff)) <= i < 16 /\
     ip6_2a (replicate 15 xff) (fresh_buf 40) 40
     = Fault (ReadOutOfBounds i)) /\
  (exists buf', ip6_2a (replicate 16 xff) (fresh_buf 40) 40 = Done buf') /\
  (exists i, Z.of_nat (length [xc0; xa8; x01]) <= i < 4 /\
     ip4_2a [xc0; xa8; x01] (fresh_buf 16) 16 = Fault (ReadOutOfBounds i)) /\
  (exists buf', ip4_2a [xc0; xa8; x01; x01] (fresh_buf 16) 16 = Done buf').
Proof.
  destruct address_length_is_not_checked as (H6 & H4 & S6 & S4).
  split; [apply S6; [simpl; lia | lia]|].
  split; [apply (H6 (replicate 16 xff)); [simpl; lia | lia | simpl; lia]|].
  split; [apply S4; [simpl; lia | lia]|].
  apply (H4 [xc0; xa8; x01; x01]); [simpl; lia | lia | simpl; lia].
Defined.

(** C9.  [ip4_2a] renders a 4-byte address as four words joined by single
    dots, the word for each byte being its decimal numeral without padding
    or leading zeros.  In particular [192,168,1,1] gives ["192.168.1.1"]. *)
Theorem ip4_dotted_decimal :
  (forall (addr : list byte) (buf : list ascii) (buf_len : Z),
      length addr = 4%nat -> 16 <= buf_len -> (16 <= length buf)%nat ->
      exists ws,
        holds_string (ip4_2a addr buf buf_len) (join_with dot ws) /\
        Forall2 (numeral 10) ws (map (fun b => Z.of_N (Byte.to_N b)) addr))
  /\
  (forall (buf : list ascii) (buf_len : Z),
      16 <= buf_len -> (16 <= length buf)%nat ->
      holds_string (ip4_2a [xc0; xa8; x01; x01] buf buf_len)
        (list_ascii_of_string "192.168.1.1")).
Proof.
  split.
  - intros addr buf buf_len Haddr Hlen Hbuf.
    destruct addr as [|b0 [|b1 [|b2 [|b3 [|b4 addr]]]]]; try discriminate.
    exists (map fmt_d (map (fun b => Z.of_N (Byte.to_N b)) [b0; b1; b2; b3])).
    split.
    + now apply ip4_2a_holds.
    + repeat constructor; apply fmt_d_numeral, byte_range.
  - intros buf buf_len Hlen Hbuf.
    apply (holds_string_eq _ (ip4_string 192 168 1 1));
      [vm_compute; reflexivity|].
    now apply (ip4_2a_holds xc0 xa8 x01 x01).
Qed.

Lemma ip4_dotted_decimal_witness :
  exists ws,
    holds_string (ip4_2a [x0a; x00; xff; x07] (fresh_buf 16) 16)
      (join_with dot ws) /\
    Forall2 (numeral 10) ws
      (map (fun b => Z.of_N (Byte.to_N b)) [x0a; x00; xff; x07]).
Proof.
  apply (proj1 ip4_dotted_decimal); [reflexivity | lia | simpl; lia].
Defined.

(** C10.  Below the required capacity ([buf_len < 40] for [ip6_2a],
    [buf_len < 16] for [ip4_2a]) the function returns at once: the buffer
    is left as it was, no NUL is written and nothing signals an error,
    whatever the address argument. *)
Theorem small_buffer_is_left_unchanged :
  (forall (ip6_addr : list byte) (buf : list ascii) (buf_len : Z),
      buf_len < 40 -> ip6_2a ip6_addr buf buf_len = Done buf)
  /\
  (forall (ip4_addr : list byte) (buf : list ascii) (buf_len : Z),
      buf_len < 16 -> ip4_2a ip4_addr buf buf_len = Done buf).
Proof.
  split; intros addr buf buf_len Hlen.
  - unfold ip6_2a. destruct (Z.ltb_spec buf_len 40); [reflexivity | lia].
  - unfold ip4_2a. destruct (Z.ltb_spec buf_len 16); [reflexivity | lia].
Qed.

Lemma small_buffer_is_left_unchanged_witness :
  ip6_2a (replicate 16 xff) (fresh_buf 39) 39 = Done (fresh_buf 39) /\
  ip4_2a [xc0; xa8; x01; x01] (fresh_buf 15) 15 = Done (fresh_buf 15).
Proof.
  split.
  - apply (proj1 small_buffer_is_left_unchanged). lia.
  - apply (proj2 small_buffer_is_left_unchanged). lia.
Defined.

(** * Further properties of the driver *)

(** ** Bits of 32-bit words *)

Lemma u32_range (x : Z) : in_u32 (u32 x).
Proof. unfold in_u32, u32. apply Z.mod_pos_bound. lia. Qed.

Lemma u32_testbit (x n : Z) :
  0 <= n -> Z.testbit (u32 x) n = (n <? 32) && Z.testbit x n.
Proof.
  intros Hn. unfold u32. destruct (Z.ltb_spec n 32).
  - now rewrite Z.mod_pow2_bits_low by lia.
  - now rewrite Z.mod_pow2_bits_high by lia.
Qed.

Lemma in_u32_id (x : Z) : in_u32 x -> u32 x = x.
Proof. intros H. unfold u32. apply Z.mod_small. exact H. Qed.

Lemma in_u32_testbit_high (x n : Z) :
  in_u32 x -> 32 <= n -> Z.testbit x n = false.
Proof.
  intros Hx Hn. rewrite <- (in_u32_id x Hx), u32_testbit by lia.
  destruct (Z.ltb_spec n 32); [lia | reflexivity].
Qed.

Lemma in_u32_of_bits (x : Z) :
  0 <= x -> (forall n, 32 <= n -> Z.testbit x n = false) -> in_u32 x.
Proof.
  intros Hx Hhigh. assert (E : u32 x = x).
  { apply Z.bits_inj'. intros n Hn. rewrite u32_testbit by assumption.
    destruct (Z.ltb_spec n 32); [reflexivity|].
    now rewrite Hhigh by lia. }
  rewrite <- E. apply u32_range.
Qed.

Lemma u32_lnot_testbit (m n : Z) :
  0 <= n -> Z.testbit (u32 (Z.lnot m)) n = (n <? 32) && negb (Z.testbit m n).
Proof. intros Hn. now rewrite u32_testbit, Z.lnot_spec by assumption. Qed.

(** Masking with a single bit tests that bit. *)
Lemma land_bit_eqb (x b : Z) :
  0 <= b -> (Z.land x (2 ^ b) =? 0) = negb (Z.testbit x b).
Proof.
  intros Hb. destruct (Z.testbit x b) eqn:E; simpl.
  - apply Z.eqb_neq. intros H. apply (f_equal (fun z => Z.testbit z b)) in H.
    rewrite Z.land_spec, E, Z.pow2_bits_true, Z.bits_0 in H by assumption.
    discriminate.
  - apply Z.eqb_eq. apply Z.bits_inj'. intros n Hn.
    rewrite Z.land_spec, Z.bits_0.
    destruct (Z.eq_dec n b) as [->|Hne].
    + now rewrite E.
    + rewrite Z.pow2_bits_false by lia. apply andb_false_r.
Qed.

(** ** [vioSetSignal] and [vioGetSignal] *)

Lemma drive_led_signal (led : Z) (red : bool) (mask signal : Z) (st : vio) :
  vioSignalOut (drive_led led red mask signal st) = vioSignalOut st /\
  vioSignalIn (drive_led led red mask signal st) = vioSignalIn st.
Proof.
  unfold drive_led, set_led.
  destruct (Z.land mask led =? 0), (Z.land signal led =? 0), red;
    split; reflexivity.
Qed.

Lemma vioSetSignal_out (pf : platform) (mask signal : Z) (st : vio) :
  vioSignalOut (vioSetSignal pf mask signal st)
  = Z.lor (Z.land (vioSignalOut st) (u32 (Z.lnot mask))) (Z.land mask signal).
Proof.
  unfold vioSetSignal.
  rewrite (proj1 (drive_led_signal _ _ _ _ _)).
  rewrite (proj1 (drive_led_signal _ _ _ _ _)). reflexivity.
Qed.

Lemma vioSetSignal_testbit (pf : platform) (mask signal : Z) (st : vio)
    (n : Z) :
  in_u32 (vioSignalOut st) -> in_u32 mask -> 0 <= n ->
  Z.testbit (vioSignalOut (vioSetSignal pf mask signal st)) n
  = if Z.testbit mask n then Z.testbit signal n
    else Z.testbit (vioSignalOut st) n.
Proof.
  intros Hout Hmask Hn. rewrite vioSetSignal_out.
  rewrite Z.lor_spec, !Z.land_spec, u32_lnot_testbit by assumption.
  destruct (Z.ltb_spec n 32).
  - destruct (Z.testbit mask n), (Z.testbit signal n),
      (Z.testbit (vioSignalOut st) n); reflexivity.
  - rewrite (in_u32_testbit_high mask n), (in_u32_testbit_high _ n Hout)
      by assumption. reflexivity.
Qed.

Lemma vioSetSignal_in_u32 (pf : platform) (mask signal : Z) (st : vio) :
  in_u32 (vioSignalOut st) -> in_u32 mask ->
  in_u32 (vioSignalOut (vioSetSignal pf mask signal st)).
Proof.
  intros Hout Hmask. apply in_u32_of_bits.
  - rewrite vioSetSignal_out. apply Z.lor_nonneg.
    split; apply Z.land_nonneg; left; [apply Hout | apply Hmask].
  - intros n Hn. rewrite vioSetSignal_testbit by (assumption || lia).
    rewrite (in_u32_testbit_high mask n), (in_u32_testbit_high _ n Hout)
      by assumption. reflexivity.
Qed.

Lemma drive_led_leds (led : Z) (red : bool) (mask signal : Z) (st : vio) :
  let st' := drive_led led red mask signal st in
  let lit := negb (Z.land signal led =? 0) in
  let hit := negb (Z.land mask led =? 0) in
  led_red st' = (if hit && red then lit else led_red st) /\
  led_green st' = (if hit && negb red then lit else led_green st).
Proof.
  unfold drive_led, set_led.
  destruct (Z.land mask led =? 0), (Z.land signal led =? 0), red;
    split; reflexivity.
Qed.

(** X1.  [vioSetSignal] replaces exactly the bits of [vioSignalOut] that
    [mask] selects by the bits of [signal], keeps all others, and leaves a
    32-bit value. *)
Theorem vioSetSignal_changes_masked_bits :
  forall (pf : platform) (mask signal : Z) (st : vio),
    in_u32 (vioSignalOut st) -> in_u32 mask ->
    in_u32 (vioSignalOut (vioSetSignal pf mask signal st)) /\
    forall n, 0 <= n ->
      Z.testbit (vioSignalOut (vioSetSignal pf mask signal st)) n
      = if Z.testbit mask n then Z.testbit signal n
        else Z.testbit (vioSignalOut st) n.
Proof.
  intros pf mask signal st Hout Hmask. split.
  - now apply vioSetSignal_in_u32.
  - intros n Hn. now apply vioSetSignal_testbit.
Qed.

Lemma vioSetSignal_changes_masked_bits_witness :
  in_u32 (vioSignalOut (vioSetSignal sample_platform 3 2 ready_state)) /\
  forall n, 0 <= n ->
    Z.testbit (vioSignalOut (vioSetSignal sample_platform 3 2 ready_state)) n
    = if Z.testbit 3 n then Z.testbit 2 n
      else Z.testbit (vioSignalOut ready_state) n.
Proof.
  apply vioSetSignal_changes_masked_bits; unfold in_u32; simpl; lia.
Defined.

(** X2.  When each LED mask is a single bit, [vioSetSignal] keeps the LEDs
    in step with [vioSignalOut]: if the red LED was on exactly when the bit
    of [vioLED0] was set, and the green one exactly when the bit of
    [vioLED1] was, the same holds after the call, whatever [mask] and
    [signal] are. *)
Theorem vioSetSignal_keeps_leds_in_step :
  forall (pf : platform) (b0 b1 mask signal : Z) (st : vio),
    0 <= b0 < 32 -> vioLED0 pf = 2 ^ b0 ->
    0 <= b1 < 32 -> vioLED1 pf = 2 ^ b1 ->
    in_u32 (vioSignalOut st) -> in_u32 mask ->
    led_follows (vioLED0 pf) (led_red st) st ->
    led_follows (vioLED1 pf) (led_green st) st ->
    led_follows (vioLED0 pf) (led_red (vioSetSignal pf mask signal st))
      (vioSetSignal pf mask signal st) /\
    led_follows (vioLED1 pf) (led_green (vioSetSignal pf mask signal st))
      (vioSetSignal pf mask signal st).
Proof.
  intros pf b0 b1 mask signal st Hb0 E0 Hb1 E1 Hout Hmask Hred Hgreen.
  unfold led_follows in *. rewrite E0, E1 in *.
  rewrite !land_bit_eqb, !negb_involutive in * by lia.
  rewrite !vioSetSignal_testbit by (assumption || lia).
  unfold vioSetSignal.
  set (st1 := set_vioSignalOut _ st).
  pose proof (drive_led_leds (vioLED0 pf) true mask signal st1) as [R0 G0].
  pose proof (drive_led_leds (vioLED1 pf) false mask signal
                (drive_led (vioLED0 pf) true mask signal st1)) as [R1 G1].
  cbv zeta in R0, G0, R1, G1.
  rewrite R1, G1, R0, G0. rewrite E0, E1.
  rewrite !land_bit_eqb, !negb_involutive by lia.
  rewrite !andb_true_r, !andb_false_r. cbn [negb].
  change (led_red st1) with (led_red st).
  change (led_green st1) with (led_green st).
  destruct (Z.testbit mask b0), (Z.testbit mask b1); cbn [negb andb];
    split; assumption || reflexivity.
Qed.

Lemma vioSetSignal_keeps_leds_in_step_witness :
  led_follows (vioLED0 sample_platform)
    (led_red (vioSetSignal sample_platform 3 1 ready_state))
    (vioSetSignal sample_platform 3 1 ready_state) /\
  led_follows (vioLED1 sample_platform)
    (led_green (vioSetSignal sample_platform 3 1 ready_state))
    (vioSetSignal sample_platform 3 1 ready_state).
Proof.
  apply (vioSetSignal_keeps_leds_in_step sample_platform 0 1);
    try reflexivity; unfold in_u32; simpl; lia.
Defined.

(** X3.  [vioGetSignal] delivers the bits of [vioSignalIn] that [mask]
    selects.  When the button mask is a single bit and [mask] selects it,
    that bit of the result says whether the button is pressed
    ([BSP_PB_GetState] gave 1); the other bits of [vioSignalIn] are never
    changed, and without the button bit in [mask] nothing is. *)
Theorem vioGetSignal_reads_the_button :
  forall (pf : platform) (b pb mask : Z) (st : vio),
    0 <= b < 32 -> vioBUTTON0 pf = 2 ^ b -> in_u32 (vioSignalIn st) ->
    let r := fst (vioGetSignal pf pb mask st) in
    let st' := snd (vioGetSignal pf pb mask st) in
    (forall n, 0 <= n ->
       Z.testbit r n = Z.testbit mask n && Z.testbit (vioSignalIn st') n) /\
    (Z.testbit mask b = true -> Z.testbit r b = (pb =? 1)) /\
    (forall n, 0 <= n -> n <> b ->
       Z.testbit (vioSignalIn st') n = Z.testbit (vioSignalIn st) n) /\
    (Z.testbit mask b = false -> st' = st) /\
    in_u32 (vioSignalIn st').
Proof.
  intros pf b pb mask st Hb Eb Hin. cbv zeta. unfold vioGetSignal.
  rewrite Eb, land_bit_eqb, negb_involutive by lia. cbn [fst snd].
  assert (Hset : forall n, 0 <= n ->
    Z.testbit (Z.lor (vioSignalIn st) (2 ^ b)) n
    = Z.testbit (vioSignalIn st) n || (n =? b)).
  { intros n Hn. rewrite Z.lor_spec. destruct (Z.eqb_spec n b) as [->|Hne].
    - now rewrite Z.pow2_bits_true by lia.
    - now rewrite Z.pow2_bits_false by lia. }
  assert (Hclr : forall n, 0 <= n ->
    Z.testbit (Z.land (vioSignalIn st) (u32 (Z.lnot (2 ^ b)))) n
    = Z.testbit (vioSignalIn st) n && negb (n =? b)).
  { intros n Hn. rewrite Z.land_spec, u32_lnot_testbit by assumption.
    destruct (Z.eqb_spec n b) as [->|Hne].
    - rewrite Z.pow2_bits_true by lia. now rewrite !andb_false_r.
    - rewrite Z.pow2_bits_false by lia. destruct (Z.ltb_spec n 32).
      + reflexivity.
      + now rewrite (in_u32_testbit_high _ n Hin) by assumption. }
  assert (Hres : forall x n, Z.testbit (Z.land x mask) n
                             = Z.testbit mask n && Z.testbit x n).
  { intros x n. rewrite Z.land_spec. apply andb_comm. }
  destruct (Z.testbit mask b) eqn:Em; [destruct (pb =? 1) eqn:Ep|];
    cbn [vioSignalIn set_vioSignalIn];
    (split; [intros n _; apply Hres|]);
    (split; [|split; [|split]]); try (intros; discriminate);
    try reflexivity; try assumption.
  - intros _. rewrite Hres, Hset, Em, Z.eqb_refl by lia.
    now rewrite orb_true_r.
  - intros n Hn Hne. rewrite Hset by assumption.
    destruct (Z.eqb_spec n b); [contradiction | apply orb_false_r].
  - apply in_u32_of_bits.
    + apply Z.lor_nonneg. split; [apply Hin | lia].
    + intros n Hn. rewrite Hset by lia.
      rewrite (in_u32_testbit_high _ n Hin) by assumption.
      destruct (Z.eqb_spec n b); [lia | reflexivity].
  - intros _. rewrite Hres, Hclr, Em, Z.eqb_refl by lia.
    now rewrite !andb_false_r.
  - intros n Hn Hne. rewrite Hclr by assumption.
    destruct (Z.eqb_spec n b); [contradiction | apply andb_true_r].
  - apply in_u32_of_bits.
    + apply Z.land_nonneg. left. apply Hin.
    + intros n Hn. rewrite Hclr by lia.
      now rewrite (in_u32_testbit_high _ n Hin) by assumption.
Qed.

Lemma vioGetSignal_reads_the_button_witness :
  Z.testbit 1 0 = true /\
  Z.testbit (fst (vioGetSignal sample_platform 1 1 ready_state)) 0 = (1 =? 1).
Proof.
  split; [reflexivity|].
  apply (vioGetSignal_reads_the_button sample_platform 0 1 1 ready_state);
    try reflexivity; unfold in_u32; simpl; lia.
Defined.

(** ** Values *)

Lemma load_store_same {A : Type} (m : list A) (i : Z) (x : A) :
  0 <= i < Z.of_nat (length m) ->
  store m i x = Done (<[Z.to_nat i := x]> m) /\
  load (<[Z.to_nat i := x]> m) i = Done x /\
  length (<[Z.to_nat i := x]> m) = length m.
Proof.
  intros Hi. split; [now apply store_Done|]. split; [|apply length_insert].
  apply load_Done; [lia|]. apply list_lookup_insert_eq. lia.
Qed.

Lemma load_store_other {A : Type} (m : list A) (i j : Z) (x : A) :
  0 <= i -> 0 <= j -> i <> j -> load (<[Z.to_nat i := x]> m) j = load m j.
Proof.
  intros Hi Hj Hne. unfold load. destruct (j <? 0); [reflexivity|].
  now rewrite list_lookup_insert_ne by lia.
Qed.

Lemma load_in_range {A : Type} (m : list A) (i : Z) :
  0 <= i < Z.of_nat (length m) -> exists x, load m i = Done x.
Proof.
  intros Hi. destruct (lookup_lt_is_Some_2 m (Z.to_nat i) ltac:(lia)) as [x Hx].
  exists x. apply load_Done; [lia | exact Hx].
Qed.

Lemma load_lookup {A : Type} (m : list A) (i : Z) (x : A) :
  load m i = Done x -> 0 <= i /\ m !! Z.to_nat i = Some x.
Proof.
  unfold load. destruct (Z.ltb_spec i 0); [discriminate|].
  destruct (m !! Z.to_nat i); [|discriminate]. intros [= ->]. auto.
Qed.

(** X4.  [vioSetValue] followed by [vioGetValue] on the same id gives the
    value back and leaves the other ids as they were; an id of
    [VIO_VALUE_NUM] (3) or more is ignored by [vioSetValue] and read as 0
    by [vioGetValue]. *)
Theorem vioValue_set_then_get :
  forall (id id' value : Z) (st : vio),
    length (vioValue st) = 3%nat -> 0 <= id -> 0 <= id' ->
    (id < 3 ->
     exists st',
       vioSetValue id value st = Done st' /\
       vioGetValue id st' = Done value /\
       (id' <> id -> vioGetValue id' st' = vioGetValue id' st) /\
       length (vioValue st') = 3%nat) /\
    (3 <= id ->
     vioSetValue id value st = Done st /\ vioGetValue id st = Done 0).
Proof.
  intros id id' value st Hlen Hid Hid'.
  unfold vioSetValue, vioGetValue, VIO_VALUE_NUM. split; intros Hr.
  - destruct (Z.geb_spec id 3) as [?|_]; [lia|].
    destruct (load_store_same (vioValue st) id value ltac:(lia))
      as (E & L & N).
    rewrite E. cbn [bind]. eexists. split; [reflexivity|].
    cbn [vioValue set_vioValue]. split; [exact L|]. split; [|lia].
    intros Hne. destruct (id' >=? 3); [reflexivity|].
    now apply load_store_other.
  - destruct (Z.geb_spec id 3) as [_|?]; [|lia]. split; reflexivity.
Qed.

Lemma vioValue_set_then_get_witness :
  exists st',
    vioSetValue 2 (-7) ready_state = Done st' /\
    vioGetValue 2 st' = Done (-7) /\
    (1 <> 2 -> vioGetValue 1 st' = vioGetValue 1 ready_state) /\
    length (vioValue st') = 3%nat.
Proof.
  apply (vioValue_set_then_get 2 1 (-7) ready_state); (reflexivity || lia).
Defined.

(** ** Three-axis values *)

Lemma set_vioValueXYZ_same (st : vio) :
  set_vioValueXYZ (vioValueXYZ st) st = st.
Proof. now destruct st. Qed.

Lemma read_sensor_spec (sensor id : Z) (axes : option (Z * Z * Z)) (st : vio) :
  0 <= id < Z.of_nat (length (vioValueXYZ st)) ->
  read_sensor sensor id axes st
  = Done (match axes with
          | Some a =>
              if id =? sensor
              then set_vioValueXYZ (<[Z.to_nat id := a]> (vioValueXYZ st)) st
              else st
          | None => st
          end).
Proof.
  intros Hid. unfold read_sensor.
  destruct (id =? sensor), axes as [a|]; try reflexivity.
  now rewrite store_Done by assumption.
Qed.

(** X5.  [vioGetXYZ] on the id of a motion sensor that answers delivers the
    sensor's axes and stores them, whatever was stored before; where no
    sensor answers for the id, it delivers what [vioSetXYZ] stored last and
    changes nothing.  An id of [VIO_VALUEXYZ_NUM] (3) or more is ignored by
    [vioSetXYZ] and read as (0, 0, 0). *)
Theorem vioGetXYZ_prefers_the_sensor :
  forall (pf : platform) (gyro accelero : option (Z * Z * Z))
         (id : Z) (valueXYZ : Z * Z * Z) (st : vio),
    length (vioValueXYZ st) = 3%nat -> 0 <= id ->
    (id < 3 ->
     exists st1,
       vioSetXYZ id valueXYZ st = Done st1 /\
       length (vioValueXYZ st1) = 3%nat /\
       (forall a, id = vioMotionAccelero pf -> accelero = Some a ->
          exists st2, vioGetXYZ pf gyro accelero id st1 = Done (a, st2) /\
                      load (vioValueXYZ st2) id = Done a) /\
       (forall g, id = vioMotionGyro pf -> gyro = Some g ->
          id <> vioMotionAccelero pf \/ accelero = None ->
          exists st2, vioGetXYZ pf gyro accelero id st1 = Done (g, st2) /\
                      load (vioValueXYZ st2) id = Done g) /\
       (id <> vioMotionGyro pf \/ gyro = None ->
        id <> vioMotionAccelero pf \/ accelero = None ->
        vioGetXYZ pf gyro accelero id st1 = Done (valueXYZ, st1))) /\
    (3 <= id ->
     vioSetXYZ id valueXYZ st = Done st /\
     vioGetXYZ pf gyro accelero id st = Done ((0, 0, 0), st)).
Proof.
  intros pf gyro accelero id v st Hlen Hid.
  unfold vioSetXYZ, vioGetXYZ, VIO_VALUEXYZ_NUM. split; intros Hr.
  2: { destruct (Z.geb_spec id 3) as [_|?]; [|lia]. split; reflexivity. }
  destruct (Z.geb_spec id 3) as [?|_]; [lia|].
  destruct (load_store_same (vioValueXYZ st) id v ltac:(lia)) as (E & L & N).
  rewrite E. cbn [bind]. eexists. split; [reflexivity|].
  set (st1 := set_vioValueXYZ _ st).
  assert (Hlen1 : length (vioValueXYZ st1) = 3%nat).
  { unfold st1. cbn [vioValueXYZ set_vioValueXYZ]. lia. }
  split; [exact Hlen1|].
  assert (Hget : forall w st',
             length (vioValueXYZ st') = 3%nat ->
             load (<[Z.to_nat id := w]> (vioValueXYZ st')) id = Done w).
  { intros w st' Hl. apply load_store_same. lia. }
  repeat split.
  - intros a Ea ->.
    rewrite read_sensor_spec by lia. cbn [bind].
    rewrite read_sensor_spec by (destruct gyro, (id =? vioMotionGyro pf);
      cbn [vioValueXYZ set_vioValueXYZ]; rewrite ?length_insert; lia).
    cbn [bind]. rewrite <- Ea, Z.eqb_refl.
    cbn [vioValueXYZ set_vioValueXYZ].
    rewrite Hget by (destruct gyro, (id =? vioMotionGyro pf);
      cbn [vioValueXYZ set_vioValueXYZ]; rewrite ?length_insert; lia).
    cbn [bind]. eexists. split; [reflexivity|].
    cbn [vioValueXYZ set_vioValueXYZ].
    apply Hget. destruct gyro, (id =? vioMotionGyro pf);
      cbn [vioValueXYZ set_vioValueXYZ]; rewrite ?length_insert; lia.
  - intros g Eg -> Hacc.
    rewrite read_sensor_spec by lia. cbn [bind].
    rewrite <- Eg, Z.eqb_refl.
    rewrite read_sensor_spec
      by (cbn [vioValueXYZ set_vioValueXYZ]; rewrite ?length_insert; lia).
    cbn [bind].
    assert (Hno : match accelero with
                  | Some a =>
                      if id =? vioMotionAccelero pf
                      then set_vioValueXYZ
                             (<[Z.to_nat id := a]>
                                (vioValueXYZ
                                   (set_vioValueXYZ
                                      (<[Z.to_nat id := g]> (vioValueXYZ st1))
                                      st1)))
                             (set_vioValueXYZ
                                (<[Z.to_nat id := g]> (vioValueXYZ st1)) st1)
                      else set_vioValueXYZ
                             (<[Z.to_nat id := g]> (vioValueXYZ st1)) st1
                  | None => set_vioValueXYZ
                              (<[Z.to_nat id := g]> (vioValueXYZ st1)) st1
                  end
                  = set_vioValueXYZ (<[Z.to_nat id := g]> (vioValueXYZ st1)) st1).
    { destruct Hacc as [Hne| ->]; [|reflexivity].
      destruct accelero; [|reflexivity].
      destruct (Z.eqb_spec id (vioMotionAccelero pf)); [contradiction|].
      reflexivity. }
    rewrite Hno. cbn [vioValueXYZ set_vioValueXYZ].
    rewrite Hget by assumption. cbn [bind].
    eexists. split; [reflexivity|].
    cbn [vioValueXYZ set_vioValueXYZ]. now apply Hget.
  - intros Hg Ha.
    rewrite read_sensor_spec by lia. cbn [bind].
    assert (E1 : match gyro with
                 | Some a =>
                     if id =? vioMotionGyro pf
                     then set_vioValueXYZ
                            (<[Z.to_nat id := a]> (vioValueXYZ st1)) st1
                     else st1
                 | None => st1
                 end = st1).
    { destruct Hg as [Hne| ->]; [|reflexivity].
      destruct gyro; [|reflexivity].
      destruct (Z.eqb_spec id (vioMotionGyro pf)); [contradiction|].
      reflexivity. }
    rewrite E1. rewrite read_sensor_spec by lia. cbn [bind].
    assert (E2 : match accelero with
                 | Some a =>
                     if id =? vioMotionAccelero pf
                     then set_vioValueXYZ
                            (<[Z.to_nat id := a]> (vioValueXYZ st1)) st1
                     else st1
                 | None => st1
                 end = st1).
    { destruct Ha as [Hne| ->]; [|reflexivity].
      destruct accelero; [|reflexivity].
      destruct (Z.eqb_spec id (vioMotionAccelero pf)); [contradiction|].
      reflexivity. }
    rewrite E2. unfold st1 at 1. cbn [vioValueXYZ set_vioValueXYZ].
    rewrite L. reflexivity.
Qed.

Lemma vioGetXYZ_prefers_the_sensor_witness :
  exists st1,
    vioSetXYZ 0 (1, 2, 3) ready_state = Done st1 /\
    exists st2,
      vioGetXYZ sample_platform (Some (10, 20, 30)) None 0 st1
      = Done ((10, 20, 30), st2).
Proof.
  destruct (vioGetXYZ_prefers_the_sensor sample_platform (Some (10, 20, 30))
              None 0 (1, 2, 3) ready_state eq_refl ltac:(lia))
    as [H _].
  destruct (H ltac:(lia)) as (st1 & E & _ & _ & Hg & _).
  exists st1. split; [exact E|].
  destruct (Hg (10, 20, 30) eq_refl eq_refl (or_intror eq_refl))
    as (st2 & E2 & _).
  exists st2. exact E2.
Defined.

(** ** The display: one element of [display] and the LCD *)

Lemma with_area_same (n : nat) (a : displayArea) (st : vio) :
  display st !! n = Some a -> with_area n a (screen st) st = st.
Proof.
  intros Ha. unfold with_area, set_display, set_screen. destruct st. simpl. f_equal.
  now apply list_insert_id.
Qed.

Lemma with_area_again (n : nat) (a a' : displayArea) (scr scr' : lcd)
    (st : vio) :
  with_area n a' scr' (with_area n a scr st) = with_area n a' scr' st.
Proof.
  unfold with_area, set_display, set_screen. destruct st. simpl. f_equal. apply list_insert_insert_eq.
Qed.

Lemma with_area_load (idx : Z) (a : displayArea) (scr : lcd) (st : vio) :
  0 <= idx < Z.of_nat (length (display st)) ->
  load (display (with_area (Z.to_nat idx) a scr st)) idx = Done a.
Proof.
  intros Hidx. unfold with_area, set_display, set_screen. destruct st. simpl in *.
  now apply load_store_same.
Qed.

Lemma with_area_length (n : nat) (a : displayArea) (scr : lcd) (st : vio) :
  length (display (with_area n a scr st)) = length (display st).
Proof. unfold with_area, set_display, set_screen. destruct st. simpl. apply length_insert. Qed.

Lemma with_area_screen (n : nat) (a : displayArea) (scr scr' : lcd) (st : vio) :
  set_screen scr' (with_area n a scr st) = with_area n a scr' st /\
  screen (with_area n a scr st) = scr.
Proof. unfold with_area, set_display, set_screen. destruct st. split; reflexivity. Qed.

Lemma update_area_with_area (idx : Z) (f : displayArea -> displayArea)
    (a : displayArea) (scr : lcd) (st : vio) :
  0 <= idx < Z.of_nat (length (display st)) ->
  update_area idx f (with_area (Z.to_nat idx) a scr st)
  = Done (with_area (Z.to_nat idx) (f a) scr st).
Proof.
  intros Hidx. unfold update_area.
  rewrite with_area_load by assumption. cbn [bind].
  rewrite store_Done by (rewrite with_area_length; assumption). cbn [bind].
  f_equal. unfold with_area, set_display, set_screen. destruct st. simpl. f_equal.
  apply list_insert_insert_eq.
Qed.

Lemma displayScrollVertical_with_area (pf : platform) (idx : Z)
    (a : displayArea) (scr : lcd) (st : vio) :
  0 <= idx < Z.of_nat (length (display st)) ->
  displayScrollVertical pf idx (with_area (Z.to_nat idx) a scr st)
  = Done (with_area (Z.to_nat idx) a (scroll_area pf a scr) st).
Proof.
  intros Hidx. unfold displayScrollVertical.
  rewrite with_area_load by assumption. cbn [bind].
  destruct (with_area_screen (Z.to_nat idx) a scr (scroll_area pf a scr) st)
    as [E1 E2].
  now rewrite E2, E1.
Qed.

Lemma stay_in_last_row_with_area (pf : platform) (idx : Z)
    (a : displayArea) (scr : lcd) (st : vio) :
  0 <= idx < Z.of_nat (length (display st)) ->
  stay_in_last_row pf idx (with_area (Z.to_nat idx) a scr st)
  = Done (with_area (Z.to_nat idx) (stay_area a) (stay_screen pf a scr) st).
Proof.
  intros Hidx. unfold stay_in_last_row, stay_area, stay_screen.
  rewrite with_area_load by assumption. cbn [bind].
  destruct (yPos a >=? yHeight a); [|reflexivity].
  rewrite displayScrollVertical_with_area by assumption. cbn [bind].
  now rewrite update_area_with_area by assumption.
Qed.

(** One pass of the [switch]: the state changes in the element [idx] of
    [display] and in the LCD, as [area_after] and [screen_after] say. *)
Lemma display_char_with_area (pf : platform) (idx : Z) (ch : ascii)
    (a : displayArea) (scr : lcd) (st : vio) :
  0 <= idx < Z.of_nat (length (display st)) ->
  display_char pf idx ch (with_area (Z.to_nat idx) a scr st)
  = Done (with_area (Z.to_nat idx) (area_after ch a)
            (screen_after pf ch a scr) st).
Proof.
  intros Hidx. unfold display_char, area_after, screen_after.
  destruct (Ascii.eqb ch LF).
  - rewrite update_area_with_area by assumption. cbn [bind].
    now rewrite stay_in_last_row_with_area by assumption.
  - destruct (Ascii.eqb ch CR).
    + now rewrite update_area_with_area by assumption.
    + rewrite with_area_load by assumption. cbn [bind]. cbv zeta.
      destruct (with_area_screen (Z.to_nat idx) a scr
                  (GUI_DisplayChar pf (xPos a) (yPos a) ch scr) st) as [E1 E2].
      rewrite E2, E1.
      rewrite update_area_with_area by assumption. cbn [bind].
      rewrite with_area_load by assumption. cbn [bind].
      unfold advance_area. cbv zeta.
      destruct (xPos (set_xPos (u16 (xPos a + fontWidth a)) a)
                >=? xWidth (set_xPos (u16 (xPos a + fontWidth a)) a)).
      * rewrite update_area_with_area by assumption. cbn [bind].
        rewrite update_area_with_area by assumption. cbn [bind].
        now rewrite stay_in_last_row_with_area by assumption.
      * cbn [bind].
        now rewrite stay_in_last_row_with_area by assumption.
Qed.

Lemma for_passes_keeps {St : Type} (P : St -> Prop) (n : nat) (i bound : Z)
    (body : Z -> St -> St) (s : St) :
  (forall j s', P s' -> P (body j s')) -> P s ->
  P (snd (for_passes n i bound body s)).
Proof.
  intros Hbody. revert i s. induction n as [|n IH]; intros i s Hs; cbn.
  - exact Hs.
  - destruct (i <? bound); [|exact Hs]. apply IH, Hbody, Hs.
Qed.

Lemma for_u32_keeps {St : Type} (P : St -> Prop) (from bound : Z)
    (body : Z -> St -> St) (s : St) :
  (forall j s', P s' -> P (body j s')) -> P s ->
  P (snd (for_u32 from bound body s)).
Proof. unfold for_u32. apply for_passes_keeps. Qed.

(** Scrolling changes pixels only. *)
Lemma scroll_area_keeps_text (pf : platform) (a : displayArea) (scr : lcd) :
  text_font (scroll_area pf a scr) = text_font scr /\
  text_color (scroll_area pf a scr) = text_color scr /\
  glyphs (scroll_area pf a scr) = glyphs scr.
Proof.
  set (P := fun s : lcd => text_font s = text_font scr /\
                           text_color s = text_color scr /\
                           glyphs s = glyphs scr).
  assert (Hrow : forall (c : Z -> Z -> lcd -> Z) y s,
             P s ->
             P (snd (for_u32 (xOrigin a) (xWidth a)
                       (fun x s' => GUI_SetPixel x y (c x y s') s') s))).
  { intros c y s Hs. apply for_u32_keeps; [|exact Hs].
    intros j s' Hs'. exact Hs'. }
  unfold scroll_area.
  destruct (for_u32 (yOrigin a) (u32 (yHeight a - fontHeight a)) _ scr)
    as [y scr1] eqn:E.
  assert (H1 : P scr1).
  { change scr1 with (snd (y, scr1)). rewrite <- E.
    apply for_u32_keeps; [|now unfold P].
    intros j s' Hs'.
    apply (Hrow (fun x y s => GUI_GetPixel x (u32 (y + fontHeight a)) s)).
    exact Hs'. }
  apply (for_u32_keeps P); [|exact H1].
  intros j s' Hs'. apply (Hrow (fun _ _ _ => GUI_COLOR_BLACK pf)). exact Hs'.
Qed.

Lemma stay_screen_keeps_text (pf : platform) (a : displayArea) (scr : lcd) :
  text_font (stay_screen pf a scr) = text_font scr /\
  text_color (stay_screen pf a scr) = text_color scr /\
  glyphs (stay_screen pf a scr) = glyphs scr.
Proof.
  unfold stay_screen. destruct (yPos a >=? yHeight a);
    [apply scroll_area_keeps_text | auto].
Qed.

(** A character moves the cursor inside the area and draws, if at all, at
    the cursor. *)
Lemma area_after_ok (ch : ascii) (a : displayArea) :
  area_ok a -> area_ok (area_after ch a) /\ same_frame a (area_after ch a).
Proof.
  destruct a as [x0 xw x y0 yh y fw fh].
  unfold area_ok, same_frame, area_after, stay_area, advance_area,
    line_feed_area, set_xPos, set_yPos, u16. cbn.
  intros (Hfw & Hfh & Hx0 & Hx & Hy0 & Hy & Hxw & Hyh).
  destruct (Ascii.eqb ch LF); [|destruct (Ascii.eqb ch CR)]; cbn.
  - rewrite (Z.mod_small (y + fh)) by lia.
    destruct (Z.geb_spec (y + fh) yh); cbn.
    + replace (y + fh - fh) with y by lia.
      rewrite Z.mod_small by lia. repeat split; lia.
    + repeat split; lia.
  - repeat split; lia.
  - rewrite (Z.mod_small (x + fw)) by lia.
    destruct (Z.geb_spec (x + fw) xw); cbn.
    + rewrite (Z.mod_small (y + fh)) by lia.
      destruct (Z.geb_spec (y + fh) yh); cbn.
      * replace (y + fh - fh) with y by lia.
        rewrite Z.mod_small by lia. repeat split; lia.
      * repeat split; lia.
    + destruct (Z.geb_spec y yh); cbn; [lia|]. repeat split; lia.
Qed.

Lemma screen_after_text (pf : platform) (ch : ascii) (a : displayArea)
    (scr : lcd) :
  text_font (screen_after pf ch a scr) = text_font scr /\
  text_color (screen_after pf ch a scr) = text_color scr /\
  glyphs (screen_after pf ch a scr)
  = glyphs scr
    ++ (if printable ch
        then [mk_glyph (xPos a) (yPos a) ch (text_font scr) (text_color scr)]
        else []).
Proof.
  unfold screen_after, printable.
  destruct (Ascii.eqb ch LF); [|destruct (Ascii.eqb ch CR)]; cbn [negb andb].
  - destruct (stay_screen_keeps_text pf (line_feed_area a) scr)
      as (F & C & G).
    now rewrite F, C, G, app_nil_r.
  - now rewrite app_nil_r.
  - destruct (stay_screen_keeps_text pf (advance_area a)
                (GUI_DisplayChar pf (xPos a) (yPos a) ch scr)) as (F & C & G).
    rewrite F, C, G. auto.
Qed.

Lemma same_frame_trans (a b c : displayArea) :
  same_frame a b -> same_frame b c -> same_frame a c.
Proof. unfold same_frame. intuition congruence. Qed.

Lemma glyph_in_frame (a b : displayArea) (g : glyph) :
  same_frame a b -> glyph_in b g -> glyph_in a g.
Proof.
  unfold same_frame, glyph_in.
  intros (E1 & E2 & E3 & E4 & _) H. now rewrite <- E1, <- E2, <- E3, <- E4.
Qed.

(** The characters of a text, drawn in order. *)
Lemma draw_text_spec (pf : platform) (t : list ascii) :
  forall (a : displayArea) (scr : lcd),
    area_ok a ->
    area_ok (fst (draw_text pf t (a, scr))) /\
    same_frame a (fst (draw_text pf t (a, scr))) /\
    text_font (snd (draw_text pf t (a, scr))) = text_font scr /\
    text_color (snd (draw_text pf t (a, scr))) = text_color scr /\
    exists gs,
      glyphs (snd (draw_text pf t (a, scr))) = glyphs scr ++ gs /\
      map g_ch gs = filter (fun c => printable c = true) t /\
      drawn_well a (text_font scr) (text_color scr) gs.
Proof.
  induction t as [|ch t IH]; intros a scr Ha.
  - cbn. repeat split; try apply Ha.
    exists []. rewrite app_nil_r. repeat split. constructor.
  - unfold draw_text. cbn [fold_left fst snd].
    fold (draw_text pf t (area_after ch a, screen_after pf ch a scr)).
    destruct (area_after_ok ch a Ha) as [Ha1 Hf1].
    destruct (screen_after_text pf ch a scr) as (F1 & C1 & G1).
    destruct (IH (area_after ch a) (screen_after pf ch a scr) Ha1)
      as (Ha' & Hf' & F' & C' & gs & G' & Hch & Hwell).
    split; [exact Ha'|]. split; [now apply (same_frame_trans _ _ _ Hf1)|].
    split; [congruence|]. split; [congruence|].
    exists ((if printable ch
             then [mk_glyph (xPos a) (yPos a) ch (text_font scr)
                     (text_color scr)]
             else []) ++ gs).
    split; [now rewrite G', G1, <- app_assoc|].
    rewrite F1, C1 in Hwell.
    assert (Hwell' : drawn_well a (text_font scr) (text_color scr) gs).
    { eapply Forall_impl; [exact Hwell|]. intros g (Hin & Hg).
      split; [now apply (glyph_in_frame _ _ _ Hf1) | exact Hg]. }
    rewrite filter_cons. destruct (printable ch) eqn:Ep.
    + rewrite decide_True by reflexivity. cbn [app map g_ch].
      split; [now rewrite Hch|].
      constructor; [|exact Hwell'].
      split; [|split; reflexivity].
      unfold glyph_in. cbn [g_x g_y].
      destruct Ha as (_ & _ & ? & ? & ? & ? & _). lia.
    + rewrite decide_False by discriminate. cbn [app].
      split; [exact Hch | exact Hwell'].
Qed.

Lemma c_string_inv (buf t : list ascii) :
  c_string buf = Some t ->
  exists rest, buf = t ++ NUL :: rest /\ Forall (fun c => c <> NUL) t.
Proof.
  revert t. induction buf as [|c buf IH]; intros t; cbn [c_string];
    [discriminate|].
  destruct (Ascii.eqb_spec c NUL) as [->|Hc].
  - intros [= <-]. exists buf. split; [reflexivity | constructor].
  - destruct (c_string buf) as [s|]; [|discriminate]. intros [= <-].
    destruct (IH s eq_refl) as (rest & -> & Hs).
    exists rest. split; [reflexivity | now constructor].
Qed.

(** The loop of [displayString] over a text of at most 255 characters that
    is followed by a NUL. *)
Lemma displayString_loop_text (pf : platform) (idx : Z) (t : list ascii) :
  forall (pre rest : list ascii) (fuel : nat) (a : displayArea) (scr : lcd)
         (st : vio),
    0 <= idx < Z.of_nat (length (display st)) ->
    Forall (fun c => c <> NUL) t ->
    (length pre + length t <= 255)%nat -> (length t < fuel)%nat ->
    displayString_loop fuel pf idx (pre ++ t ++ NUL :: rest)
      (Z.of_nat (length pre)) (with_area (Z.to_nat idx) a scr st)
    = Done (with_area (Z.to_nat idx) (fst (draw_text pf t (a, scr)))
              (snd (draw_text pf t (a, scr))) st).
Proof.
  induction t as [|c t IH]; intros pre rest fuel a scr st Hidx Hnz Hlen Hfuel;
    (destruct fuel as [|fuel]; [cbn in Hfuel; lia|]);
    cbn [displayString_loop].
  - rewrite load_of_nat with (x := NUL)
      by (rewrite lookup_app_r, Nat.sub_diag by lia; reflexivity).
    cbn [bind]. reflexivity.
  - inversion Hnz as [|? ? Hc Hnz']; subst.
    rewrite load_of_nat with (x := c)
      by (rewrite lookup_app_r, Nat.sub_diag by lia; reflexivity).
    cbn [bind]. destruct (Ascii.eqb_spec c NUL); [contradiction|].
    rewrite display_char_with_area by assumption. cbn [bind].
    cbn [length] in Hlen, Hfuel.
    replace (u8 (Z.of_nat (length pre) + 1))
      with (Z.of_nat (length (pre ++ [c]))).
    2: { rewrite length_app. cbn [length]. unfold u8.
         rewrite Z.mod_small; lia. }
    replace (pre ++ (c :: t) ++ NUL :: rest)
      with ((pre ++ [c]) ++ t ++ NUL :: rest)
      by (now rewrite <- app_assoc).
    rewrite IH; try assumption; try lia.
    + reflexivity.
    + rewrite length_app. cbn [length]. lia.
Qed.

Lemma drawn_on_with_area (idx : Z) (a a' : displayArea) (scr' : lcd)
    (st : vio) (gs : list glyph) :
  display st !! Z.to_nat idx = Some a ->
  same_frame a a' -> area_ok a' ->
  text_font scr' = text_font (screen st) ->
  text_color scr' = text_color (screen st) ->
  glyphs scr' = glyphs (screen st) ++ gs ->
  drawn_on idx st (with_area (Z.to_nat idx) a' scr' st) gs.
Proof.
  intros Ha Hf Hok F C G. unfold drawn_on, with_area, set_display, set_screen.
  destruct st. simpl in *. repeat split; try assumption; try reflexivity.
  exists a, a'. repeat split; try assumption; apply Hf || apply Hok.
Qed.

Lemma displayString_spec (pf : platform) (idx : Z) (str t : list ascii)
    (a : displayArea) (st : vio) :
  c_string str = Some t -> (length t <= 255)%nat ->
  0 <= idx -> display st !! Z.to_nat idx = Some a -> area_ok a ->
  exists st' gs,
    displayString pf idx str st = Done st' /\
    drawn_on idx st st' gs /\
    map g_ch gs = filter (fun c => printable c = true) t /\
    drawn_well a (text_font (screen st)) (text_color (screen st)) gs.
Proof.
  intros Hstr Hlen Hidx Ha Hok.
  destruct (c_string_inv str t Hstr) as (rest & -> & Hnz).
  pose proof (lookup_lt_Some _ _ _ Ha) as Hlt.
  destruct (draw_text_spec pf t a (screen st) Hok)
    as (Hok' & Hf & F & C & gs & G & Hch & Hwell).
  exists (with_area (Z.to_nat idx) (fst (draw_text pf t (a, screen st)))
            (snd (draw_text pf t (a, screen st))) st), gs.
  split; [|split; [|split]]; try assumption.
  - unfold displayString.
    rewrite <- (with_area_same (Z.to_nat idx) a st Ha) at 1.
    apply (displayString_loop_text pf idx t [] rest 257); try assumption;
      cbn [length]; lia.
  - now apply (drawn_on_with_area idx a).
Qed.

(** X6.  On a string of at most 255 characters, [displayString] ends, and
    it keeps the cursor of its display area inside the area: if the area
    satisfied [area_ok] before, it does afterwards, with the same origin,
    size and font metrics.  Apart from that cursor, the pixels and the list
    of drawn characters, no variable of the driver changes. *)
Theorem displayString_keeps_the_cursor_inside :
  forall (pf : platform) (idx : Z) (str t : list ascii) (a : displayArea)
         (st : vio),
    c_string str = Some t -> (length t <= 255)%nat ->
    0 <= idx -> display st !! Z.to_nat idx = Some a -> area_ok a ->
    exists st' gs, displayString pf idx str st = Done st' /\ drawn_on idx st st' gs.
Proof.
  intros pf idx str t a st Hstr Hlen Hidx Ha Hok.
  destruct (displayString_spec pf idx str t a st Hstr Hlen Hidx Ha Hok)
    as (st' & gs & E & Hd & _).
  exists st', gs. split; assumption.
Qed.

(** X7.  [displayString] draws the characters of the string other than CR
    and LF, each once and in the order of the string, every one at a
    position inside the display area and in the font and colour that are
    current at the call. *)
Theorem displayString_draws_the_printable_characters :
  forall (pf : platform) (idx : Z) (str t : list ascii) (a : displayArea)
         (st : vio),
    c_string str = Some t -> (length t <= 255)%nat ->
    0 <= idx -> display st !! Z.to_nat idx = Some a -> area_ok a ->
    exists st' gs,
      displayString pf idx str st = Done st' /\
      glyphs (screen st') = glyphs (screen st) ++ gs /\
      map g_ch gs = filter (fun c => printable c = true) t /\
      Forall (fun g => glyph_in a g /\
                       g_font g = text_font (screen st) /\
                       g_color g = text_color (screen st)) gs.
Proof.
  intros pf idx str t a st Hstr Hlen Hidx Ha Hok.
  destruct (displayString_spec pf idx str t a st Hstr Hlen Hidx Ha Hok)
    as (st' & gs & E & Hd & Hch & Hwell).
  exists st', gs. repeat split; try assumption. apply Hd.
Qed.

(** ** [vioInit] *)

Lemma init_area_ok (fw fh x0 y0 lines XSize : Z) :
  0 < fw <= 11 -> 0 < fh -> 0 <= x0 <= 3 -> 0 <= y0 -> 1 <= lines ->
  lines * fh + y0 + fh <= 65536 -> 8 <= XSize <= 65529 ->
  area_ok (init_area fw fh x0 y0 lines XSize).
Proof.
  intros Hfw Hfh Hx0 Hy0 Hl Hy HX. unfold area_ok, init_area, u16, u32. cbn.
  rewrite (Z.mod_small (XSize - 4)) by lia.
  rewrite (Z.mod_small (XSize - 4)) by lia.
  rewrite (Z.mod_small (lines * fh + y0)) by nia.
  repeat split; try lia; nia.
Qed.

Lemma level_cases (l : Z) : 0 <= l < 4 -> l = 0 \/ l = 1 \/ l = 2 \/ l = 3.
Proof. lia. Qed.

(** X8.  When the four print levels are distinct indices below 4 and the
    LCD is between 8 and 65529 pixels wide, [vioInit] ends and leaves the
    variables in the shapes of their declarations, with both signal words
    0, and every element of [display] a well-formed area with its cursor at
    the origin: the heading on the pixel rows 4 to 35, level none on 40 to
    63, errors on 68 to 115 and messages on 120 to 227, as the comments in
    [vioInit] say. *)
Theorem vioInit_sets_up_the_display :
  forall (pf : platform) (XSize : Z) (red green : bool) (scr : lcd) (st : vio),
    length (display st) = 4%nat -> length (ip_ascii st) = 40%nat ->
    Forall (fun l => 0 <= l < 4)
      [vioLevelNone pf; vioLevelHeading pf; vioLevelMessage pf;
       vioLevelError pf] ->
    NoDup [vioLevelNone pf; vioLevelHeading pf; vioLevelMessage pf;
           vioLevelError pf] ->
    8 <= XSize <= 65529 ->
    exists st',
      vioInit pf XSize red green scr st = Done st' /\
      vio_ok st' /\ vioSignalIn st' = 0 /\ vioSignalOut st' = 0 /\
      Forall area_ok (display st') /\
      display st' !! Z.to_nat (vioLevelHeading pf)
      = Some (mk_area 3 (XSize - 4) 3 4 36 4 11 16) /\
      display st' !! Z.to_nat (vioLevelNone pf)
      = Some (mk_area 3 (XSize - 4) 3 40 64 40 7 12) /\
      display st' !! Z.to_nat (vioLevelError pf)
      = Some (mk_area 3 (XSize - 4) 3 68 116 68 7 12) /\
      display st' !! Z.to_nat (vioLevelMessage pf)
      = Some (mk_area 3 (XSize - 4) 3 120 228 120 7 12).
Proof.
  intros pf XSize red green scr st Hd Hip Hrange Hdup HX.
  assert (EH : init_area 11 16 3 4 2 XSize = mk_area 3 (XSize - 4) 3 4 36 4 11 16).
  { unfold init_area, u16, u32. now rewrite !(Z.mod_small (XSize - 4)) by lia. }
  assert (EN : init_area 7 12 3 40 2 XSize = mk_area 3 (XSize - 4) 3 40 64 40 7 12).
  { unfold init_area, u16, u32. now rewrite !(Z.mod_small (XSize - 4)) by lia. }
  assert (EE : init_area 7 12 3 68 4 XSize = mk_area 3 (XSize - 4) 3 68 116 68 7 12).
  { unfold init_area, u16, u32. now rewrite !(Z.mod_small (XSize - 4)) by lia. }
  assert (EM : init_area 7 12 3 120 9 XSize
               = mk_area 3 (XSize - 4) 3 120 228 120 7 12).
  { unfold init_area, u16, u32. now rewrite !(Z.mod_small (XSize - 4)) by lia. }
  assert (OH := init_area_ok 11 16 3 4 2 XSize ltac:(lia) ltac:(lia)
                  ltac:(lia) ltac:(lia) ltac:(lia) ltac:(lia) HX).
  assert (ON := init_area_ok 7 12 3 40 2 XSize ltac:(lia) ltac:(lia)
                  ltac:(lia) ltac:(lia) ltac:(lia) ltac:(lia) HX).
  assert (OE := init_area_ok 7 12 3 68 4 XSize ltac:(lia) ltac:(lia)
                  ltac:(lia) ltac:(lia) ltac:(lia) ltac:(lia) HX).
  assert (OM := init_area_ok 7 12 3 120 9 XSize ltac:(lia) ltac:(lia)
                  ltac:(lia) ltac:(lia) ltac:(lia) ltac:(lia) HX).
  rewrite EH in OH. rewrite EN in ON. rewrite EE in OE. rewrite EM in OM.
  unfold vioInit. rewrite EH, EN, EE, EM.
  set (aH := mk_area 3 (XSize - 4) 3 4 36 4 11 16) in *.
  set (aN := mk_area 3 (XSize - 4) 3 40 64 40 7 12) in *.
  set (aE := mk_area 3 (XSize - 4) 3 68 116 68 7 12) in *.
  set (aM := mk_area 3 (XSize - 4) 3 120 228 120 7 12) in *.
  destruct (display st) as [|d0 [|d1 [|d2 [|d3 [|? ?]]]]] eqn:Ed;
    try discriminate.
  cbn [display].
  inversion Hrange as [|? ? RN Hr1]; subst.
  inversion Hr1 as [|? ? RH Hr2]; subst.
  inversion Hr2 as [|? ? RM Hr3]; subst.
  inversion Hr3 as [|? ? RE _]; subst.
  apply NoDup_cons in Hdup as [N1 Hdup].
  apply NoDup_cons in Hdup as [N2 Hdup].
  apply NoDup_cons in Hdup as [N3 _].
  repeat rewrite not_elem_of_cons in N1.
  repeat rewrite not_elem_of_cons in N2.
  repeat rewrite not_elem_of_cons in N3.
  destruct N1 as (? & ? & ? & _), N2 as (? & ? & _), N3 as (? & _).
  destruct (level_cases _ RN) as [EN'|[EN'|[EN'|EN']]];
    destruct (level_cases _ RH) as [EH'|[EH'|[EH'|EH']]];
    destruct (level_cases _ RM) as [EM'|[EM'|[EM'|EM']]];
    destruct (level_cases _ RE) as [EE'|[EE'|[EE'|EE']]];
    try lia; rewrite EN', EH', EM', EE';
    (eexists; split; [reflexivity|]);
    (split; [unfold vio_ok, in_u32; cbn; rewrite Hip;
             repeat split; try lia; repeat constructor|]);
    (split; [reflexivity|]); (split; [reflexivity|]);
    (split; [cbn; repeat (apply List.Forall_cons; [assumption|]);
             apply List.Forall_nil|]);
    repeat split; reflexivity.
Qed.

Lemma vioInit_sets_up_the_display_witness :
  exists st',
    vioInit sample_platform 240 false false blank_lcd boot_state = Done st' /\
    vio_ok st' /\ vioSignalIn st' = 0 /\ vioSignalOut st' = 0 /\
    Forall area_ok (display st') /\
    display st' !! Z.to_nat (vioLevelHeading sample_platform)
    = Some (mk_area 3 (240 - 4) 3 4 36 4 11 16) /\
    display st' !! Z.to_nat (vioLevelNone sample_platform)
    = Some (mk_area 3 (240 - 4) 3 40 64 40 7 12) /\
    display st' !! Z.to_nat (vioLevelError sample_platform)
    = Some (mk_area 3 (240 - 4) 3 68 116 68 7 12) /\
    display st' !! Z.to_nat (vioLevelMessage sample_platform)
    = Some (mk_area 3 (240 - 4) 3 120 228 120 7 12).
Proof.
  apply vioInit_sets_up_the_display; try reflexivity; try lia.
  - repeat constructor; cbn; lia.
  - repeat constructor; cbn; rewrite ?not_elem_of_cons, ?elem_of_nil;
      intuition discriminate.
Defined.

(** ** [displayString] on the display that [vioInit] sets up *)

Lemma ready_state_ok : vio_ok ready_state.
Proof.
  unfold vio_ok, in_u32.
  change (vioSignalIn ready_state) with 0.
  change (vioSignalOut ready_state) with 0.
  repeat split; try lia; try reflexivity.
  vm_compute. repeat constructor.
Qed.

Lemma ready_state_area :
  display ready_state !! Z.to_nat 0 = Some (mk_area 3 236 3 40 64 40 7 12) /\
  area_ok (mk_area 3 236 3 40 64 40 7 12).
Proof. split; [reflexivity|]. unfold area_ok; cbn; lia. Qed.

Lemma displayString_keeps_the_cursor_inside_witness :
  exists st' gs,
    displayString sample_platform 0 ["o"; "k"; CR; LF; NUL]%char ready_state
    = Done st' /\
    drawn_on 0 ready_state st' gs.
Proof.
  apply (displayString_keeps_the_cursor_inside sample_platform 0
           ["o"; "k"; CR; LF; NUL]%char ["o"; "k"; CR; LF]%char
           (mk_area 3 236 3 40 64 40 7 12) ready_state).
  - reflexivity.
  - cbn [length]; lia.
  - lia.
  - reflexivity.
  - unfold area_ok; cbn; lia.
Defined.

Lemma displayString_draws_the_printable_characters_witness :
  exists st' gs,
    displayString sample_platform 0 ["o"; "k"; CR; LF; NUL]%char ready_state
    = Done st' /\
    glyphs (screen st') = glyphs (screen ready_state) ++ gs /\
    map g_ch gs
    = filter (fun c => printable c = true) ["o"; "k"; CR; LF]%char /\
    Forall (fun g => glyph_in (mk_area 3 236 3 40 64 40 7 12) g /\
                     g_font g = text_font (screen ready_state) /\
                     g_color g = text_color (screen ready_state)) gs.
Proof.
  apply (displayString_draws_the_printable_characters sample_platform 0
           ["o"; "k"; CR; LF; NUL]%char ["o"; "k"; CR; LF]%char
           (mk_area 3 236 3 40 64 40 7 12) ready_state).
  - reflexivity.
  - cbn [length]; lia.
  - lia.
  - reflexivity.
  - unfold area_ok; cbn; lia.
Defined.

(** ** [displayString] on a string without a NUL in reach of its index *)

Lemma displayString_loop_round (pf : platform) (idx : Z) (str : list ascii)
    (st : vio) :
  (256 <= length str)%nat -> Forall (fun c => c <> NUL) (take 256 str) ->
  0 <= idx < Z.of_nat (length (display st)) ->
  forall (fuel : nat) (i : Z) (a : displayArea) (scr : lcd),
    0 <= i < 256 ->
    displayString_loop fuel pf idx str i (with_area (Z.to_nat idx) a scr st)
    = Fault OutOfFuel.
Proof.
  intros Hlen Hnz Hidx. induction fuel as [|fuel IH]; intros i a scr Hi;
    cbn [displayString_loop]; [reflexivity|].
  destruct (lookup_lt_is_Some_2 str (Z.to_nat i) ltac:(lia)) as [c Hc].
  assert (Hload : load str i = Done c).
  { rewrite <- (Z2Nat.id i) by lia. now apply load_of_nat. }
  assert (Hne : c <> NUL).
  { rewrite Forall_lookup in Hnz. apply (Hnz (Z.to_nat i)).
    rewrite lookup_take_lt by lia. exact Hc. }
  rewrite Hload. cbn [bind].
  destruct (Ascii.eqb_spec c NUL); [contradiction|].
  rewrite display_char_with_area by assumption. cbn [bind].
  apply IH. unfold u8. apply Z.mod_pos_bound. lia.
Qed.

(** X9.  The index of [displayString] is a [uint8_t]: on a string whose
    first 256 characters hold no NUL the index goes from 255 back to 0, the
    loop meets the same characters again and never ends, however long it is
    let run. *)
Theorem displayString_never_ends_without_NUL_in_256 :
  forall (pf : platform) (idx : Z) (str : list ascii) (a : displayArea)
         (st : vio) (fuel : nat),
    (256 <= length str)%nat -> Forall (fun c => c <> NUL) (take 256 str) ->
    0 <= idx -> display st !! Z.to_nat idx = Some a ->
    displayString_loop fuel pf idx str 0 st = Fault OutOfFuel.
Proof.
  intros pf idx str a st fuel Hlen Hnz Hidx Ha.
  pose proof (lookup_lt_Some _ _ _ Ha) as Hlt.
  rewrite <- (with_area_same (Z.to_nat idx) a st Ha).
  apply displayString_loop_round; try assumption; lia.
Qed.

Lemma displayString_never_ends_without_NUL_in_256_witness :
  displayString_loop 1000 sample_platform 0
    (replicate 256 "a"%char ++ [NUL]) 0 ready_state
  = Fault OutOfFuel.
Proof.
  apply (displayString_never_ends_without_NUL_in_256 sample_platform 0
           (replicate 256 "a"%char ++ [NUL])
           (mk_area 3 236 3 40 64 40 7 12) ready_state 1000).
  - rewrite length_app, length_replicate. cbn [length]. lia.
  - rewrite take_app_length' by (now rewrite length_replicate).
    apply Forall_replicate. discriminate.
  - lia.
  - reflexivity.
Defined.

(** ** [displayScrollVertical]: the pixels *)

(** A counting loop with an invariant in the counter and the state. *)
Lemma for_passes_inv {St : Type} (I : Z -> St -> Prop) (from bound : Z)
    (body : Z -> St -> St) :
  0 <= from -> bound < 2 ^ 32 ->
  (forall j s, from <= j < bound -> I j s -> I (j + 1) (body j s)) ->
  forall (n : nat) (i : Z) (s : St),
    from <= i -> bound - i <= Z.of_nat n -> I i s ->
    fst (for_passes n i bound body s) = Z.max i bound /\
    I (Z.max i bound) (snd (for_passes n i bound body s)).
Proof.
  intros Hf Hb Hstep. induction n as [|n IH]; intros i s Hi Hn HI;
    cbn [for_passes].
  - cbn [fst snd]. rewrite Z.max_l by lia. auto.
  - destruct (Z.ltb_spec i bound) as [Hlt|Hge].
    + assert (E : u32 (i + 1) = i + 1) by (unfold u32; apply Z.mod_small; lia).
      rewrite E.
      destruct (IH (i + 1) (body i s)) as [E1 E2]; try lia.
      { apply Hstep; [lia | exact HI]. }
      rewrite Z.max_r in E1, E2 by lia. rewrite Z.max_r by lia. auto.
    + cbn [fst snd]. rewrite Z.max_l by lia. auto.
Qed.

Lemma for_u32_inv {St : Type} (I : Z -> St -> Prop) (from bound : Z)
    (body : Z -> St -> St) (s : St) :
  0 <= from -> bound < 2 ^ 32 ->
  (forall j s, from <= j < bound -> I j s -> I (j + 1) (body j s)) ->
  I from s ->
  fst (for_u32 from bound body s) = Z.max from bound /\
  I (Z.max from bound) (snd (for_u32 from bound body s)).
Proof.
  intros Hf Hb Hstep HI. unfold for_u32.
  apply (for_passes_inv I from); try assumption; lia.
Qed.

(** One row of pixels written from left to right: the colours may be read
    from the LCD as long as they are not read from the row itself. *)
Lemma row_written (a : displayArea) (y : Z) (read : Z -> lcd -> Z)
    (colour : Z -> Z) (scr : lcd) :
  0 <= xOrigin a -> xWidth a < 2 ^ 32 ->
  (forall x scr', xOrigin a <= x < xWidth a ->
     (forall x' y', y' <> y -> pixel scr' x' y' = pixel scr x' y') ->
     read x scr' = colour x) ->
  forall x' y',
    pixel (snd (for_u32 (xOrigin a) (xWidth a)
                  (fun x s => GUI_SetPixel x y (read x s) s) scr)) x' y'
    = if (y' =? y) && (xOrigin a <=? x') && (x' <? xWidth a)
      then colour x' else pixel scr x' y'.
Proof.
  intros Hx0 Hxw Hread.
  destruct (for_u32_inv
              (fun x s => forall x' y',
                 pixel s x' y'
                 = if (y' =? y) && (xOrigin a <=? x') && (x' <? x)
                   then colour x' else pixel scr x' y')
              (xOrigin a) (xWidth a)
              (fun x s => GUI_SetPixel x y (read x s) s) scr)
    as [_ H]; try assumption.
  - intros x s Hx Hs x' y'. unfold GUI_SetPixel. cbn [pixel].
    rewrite Hs.
    assert (E : read x s = colour x).
    { apply Hread; [exact Hx|]. intros x2 y2 Hy2. rewrite Hs.
      destruct (Z.eqb_spec y2 y); [contradiction | reflexivity]. }
    rewrite E.
    destruct (Z.eqb_spec y' y), (Z.eqb_spec x' x), (Z.leb_spec (xOrigin a) x'),
      (Z.ltb_spec x' x), (Z.ltb_spec x' (x + 1));
      cbn [andb]; try reflexivity; try lia. now subst.
  - intros x' y'.
    destruct (Z.eqb_spec y' y), (Z.leb_spec (xOrigin a) x'),
      (Z.ltb_spec x' (xOrigin a)); cbn [andb]; try reflexivity; lia.
  - intros x' y'. rewrite H.
    destruct (Z.eqb_spec y' y), (Z.leb_spec (xOrigin a) x'),
      (Z.ltb_spec x' (xWidth a)),
      (Z.ltb_spec x' (Z.max (xOrigin a) (xWidth a)));
      cbn [andb]; try reflexivity; lia.
Qed.

Lemma scroll_area_pixels (pf : platform) (a : displayArea) (scr : lcd) :
  0 <= xOrigin a -> xWidth a < 65536 ->
  0 <= yOrigin a -> yHeight a < 65536 ->
  0 < fontHeight a <= yHeight a ->
  forall x y,
    pixel (scroll_area pf a scr) x y
    = if (xOrigin a <=? x) && (x <? xWidth a)
         && (yOrigin a <=? y) && (y <? yHeight a)
      then if y <? yHeight a - fontHeight a
           then pixel scr x (y + fontHeight a)
           else GUI_COLOR_BLACK pf
      else pixel scr x y.
Proof.
  intros Hx0 Hxw Hy0 Hyh Hfh. unfold scroll_area.
  assert (Eb : u32 (yHeight a - fontHeight a) = yHeight a - fontHeight a)
    by (unfold u32; apply Z.mod_small; lia).
  rewrite Eb.
  set (copy := fun (y : Z) (s : lcd) =>
         snd (for_u32 (xOrigin a) (xWidth a)
                (fun x s0 =>
                   GUI_SetPixel x y
                     (GUI_GetPixel x (u32 (y + fontHeight a)) s0) s0) s)).
  set (clear := fun (y : Z) (s : lcd) =>
         snd (for_u32 (xOrigin a) (xWidth a)
                (fun x s0 => GUI_SetPixel x y (GUI_COLOR_BLACK pf) s0) s)).
  destruct (for_u32_inv
              (fun y s => forall x' y',
                 pixel s x' y'
                 = if (yOrigin a <=? y') && (y' <? y)
                      && (xOrigin a <=? x') && (x' <? xWidth a)
                   then pixel scr x' (y' + fontHeight a)
                   else pixel scr x' y')
              (yOrigin a) (yHeight a - fontHeight a) copy scr)
    as [E1 I1]; try assumption; try lia.
  { intros y s Hy Hs x' y'. unfold copy.
    rewrite (row_written a y
               (fun x s0 => GUI_GetPixel x (u32 (y + fontHeight a)) s0)
               (fun x => pixel scr x (y + fontHeight a)) s); try lia.
    - rewrite Hs.
      destruct (Z.eqb_spec y' y), (Z.leb_spec (yOrigin a) y'),
        (Z.ltb_spec y' y), (Z.ltb_spec y' (y + 1)),
        (Z.leb_spec (xOrigin a) x'), (Z.ltb_spec x' (xWidth a));
        cbn [andb]; try reflexivity; try lia. now subst.
    - intros x s' Hx Hs'. unfold GUI_GetPixel.
      assert (E : u32 (y + fontHeight a) = y + fontHeight a)
        by (unfold u32; apply Z.mod_small; lia).
      rewrite E, Hs' by lia. rewrite Hs.
      destruct (Z.leb_spec (yOrigin a) (y + fontHeight a)),
        (Z.ltb_spec (y + fontHeight a) y); cbn [andb]; try reflexivity; lia. }
  { intros x' y'.
    destruct (Z.leb_spec (yOrigin a) y'), (Z.ltb_spec y' (yOrigin a));
      cbn [andb]; try reflexivity; lia. }
  destruct (for_u32 (yOrigin a) (yHeight a - fontHeight a) copy scr)
    as [y1 scr1]. cbn [fst snd] in E1, I1. subst y1.
  set (y1 := Z.max (yOrigin a) (yHeight a - fontHeight a)) in *.
  destruct (for_u32_inv
              (fun y s => forall x' y',
                 pixel s x' y'
                 = if (y1 <=? y') && (y' <? y)
                      && (xOrigin a <=? x') && (x' <? xWidth a)
                   then GUI_COLOR_BLACK pf
                   else pixel scr1 x' y')
              y1 (yHeight a) clear scr1)
    as [_ I2]; try assumption; try lia.
  { intros y s Hy Hs x' y'. unfold clear.
    rewrite (row_written a y (fun _ _ => GUI_COLOR_BLACK pf)
               (fun _ => GUI_COLOR_BLACK pf) s); try lia.
    rewrite Hs.
    destruct (Z.eqb_spec y' y), (Z.leb_spec y1 y'),
      (Z.ltb_spec y' y), (Z.ltb_spec y' (y + 1)),
      (Z.leb_spec (xOrigin a) x'), (Z.ltb_spec x' (xWidth a));
      cbn [andb]; try reflexivity; lia. }
  { intros x' y'.
    destruct (Z.leb_spec y1 y'), (Z.ltb_spec y' y1);
      cbn [andb]; try reflexivity; lia. }
  intros x y. rewrite I2, I1.
  destruct (Z.leb_spec y1 y), (Z.ltb_spec y (Z.max y1 (yHeight a))),
    (Z.leb_spec (yOrigin a) y), (Z.ltb_spec y y1),
    (Z.ltb_spec y (yHeight a)), (Z.ltb_spec y (yHeight a - fontHeight a)),
    (Z.leb_spec (xOrigin a) x), (Z.ltb_spec x (xWidth a));
    cbn [andb]; try reflexivity; lia.
Qed.

(** X10.  [displayScrollVertical] moves the pixel rows of the display area
    up by the height of one character and fills what is left at the bottom
    with black: inside the area a pixel takes the colour of the one
    [fontHeight] rows below it, or black where that row is outside the
    area; outside the area no pixel changes, and nothing but the pixels
    does. *)
Theorem displayScrollVertical_moves_the_rows_up :
  forall (pf : platform) (idx : Z) (a : displayArea) (st : vio),
    0 <= idx -> display st !! Z.to_nat idx = Some a ->
    0 <= xOrigin a -> xWidth a < 65536 ->
    0 <= yOrigin a -> yHeight a < 65536 ->
    0 < fontHeight a <= yHeight a ->
    exists scr',
      displayScrollVertical pf idx st = Done (set_screen scr' st) /\
      text_font scr' = text_font (screen st) /\
      text_color scr' = text_color (screen st) /\
      glyphs scr' = glyphs (screen st) /\
      forall x y,
        pixel scr' x y
        = if (xOrigin a <=? x) && (x <? xWidth a)
             && (yOrigin a <=? y) && (y <? yHeight a)
          then if y <? yHeight a - fontHeight a
               then pixel (screen st) x (y + fontHeight a)
               else GUI_COLOR_BLACK pf
          else pixel (screen st) x y.
Proof.
  intros pf idx a st Hidx Ha Hx0 Hxw Hy0 Hyh Hfh.
  exists (scroll_area pf a (screen st)).
  destruct (scroll_area_keeps_text pf a (screen st)) as (F & C & G).
  split; [|split; [exact F|split; [exact C|split; [exact G|]]]].
  - unfold displayScrollVertical.
    rewrite <- (Z2Nat.id idx) at 1 by exact Hidx.
    rewrite (load_of_nat _ _ a) by exact Ha. reflexivity.
  - now apply scroll_area_pixels.
Qed.

Lemma displayScrollVertical_moves_the_rows_up_witness :
  exists scr',
    displayScrollVertical sample_platform 0 ready_state
    = Done (set_screen scr' ready_state) /\
    text_font scr' = text_font (screen ready_state) /\
    text_color scr' = text_color (screen ready_state) /\
    glyphs scr' = glyphs (screen ready_state) /\
    forall x y,
      pixel scr' x y
      = if (3 <=? x) && (x <? 236) && (40 <=? y) && (y <? 64)
        then if y <? 64 - 12
             then pixel (screen ready_state) x (y + 12)
             else GUI_COLOR_BLACK sample_platform
        else pixel (screen ready_state) x y.
Proof.
  apply (displayScrollVertical_moves_the_rows_up sample_platform 0
           (mk_area 3 236 3 40 64 40 7 12) ready_state);
    try reflexivity; cbn; lia.
Defined.

(** ** Addresses: conversion, display and read-back *)

Lemma filter_printable_all (t : list ascii) :
  Forall (fun c => printable c = true) t ->
  filter (fun c => printable c = true) t = t.
Proof.
  induction 1 as [|c t Hc _ IH]; [reflexivity|].
  rewrite filter_cons, decide_True by exact Hc. now rewrite IH.
Qed.

Lemma digit_printable (base : Z) (c : ascii) :
  base <= 16 -> is_digit_of base c -> printable c = true.
Proof.
  intros Hb H. destruct (is_digit_of_inv base c Hb H) as (d & Hd & ->).
  destruct (digit_cases d ltac:(lia)) as
    [->|[->|[->|[->|[->|[->|[->|[->|[->|[->|[->|[->|[->|[->|[->| ->]]]]]]]]]]]]]]];
    reflexivity.
Qed.

Lemma drawn_on_trans (idx : Z) (st1 st2 st3 : vio) (gs1 gs2 : list glyph) :
  drawn_on idx st1 st2 gs1 -> drawn_on idx st2 st3 gs2 ->
  drawn_on idx st1 st3 (gs1 ++ gs2).
Proof.
  unfold drawn_on.
  intros (A1 & A2 & A3 & A4 & A5 & A6 & A7 & A8 & A9 & A10 & A11 & A12 & A13
          & a1 & a2 & Ha1 & Hd2 & Hf12 & Hok2)
         (B1 & B2 & B3 & B4 & B5 & B6 & B7 & B8 & B9 & B10 & B11 & B12 & B13
          & a2' & a3 & Ha2 & Hd3 & Hf23 & Hok3).
  repeat (split; [congruence|]).
  split; [now rewrite B13, A13, app_assoc|].
  exists a1, a3. split; [exact Ha1|].
  pose proof (lookup_lt_Some _ _ _ Ha1) as Hlt.
  rewrite Hd2, list_lookup_insert_eq in Ha2 by exact Hlt.
  injection Ha2 as <-.
  split; [|split; [now apply (same_frame_trans _ _ _ Hf12) | exact Hok3]].
  rewrite Hd3, Hd2. apply list_insert_insert_eq.
Qed.

(** The two calls of [displayString] that follow a conversion. *)
Lemma show_ip_ascii_spec (pf : platform) (t : list ascii) (a : displayArea)
    (st : vio) :
  c_string (ip_ascii st) = Some t -> (length t <= 255)%nat ->
  Forall (fun c => printable c = true) t ->
  0 <= vioLevelNone pf ->
  display st !! Z.to_nat (vioLevelNone pf) = Some a -> area_ok a ->
  exists st' gs,
    show_ip_ascii pf st = Done st' /\
    drawn_on (vioLevelNone pf)
      (set_screen (GUI_SetTextColor (GUI_COLOR_WHITE pf)
                     (GUI_SetFont Font12 (screen st))) st) st' gs /\
    map g_ch gs = t /\
    drawn_well a Font12 (GUI_COLOR_WHITE pf) gs.
Proof.
  intros Hstr Hlen Hprint Hidx Ha Hok. unfold show_ip_ascii.
  set (st1 := set_screen _ st).
  assert (Ha1 : display st1 !! Z.to_nat (vioLevelNone pf) = Some a)
    by exact Ha.
  destruct (displayString_spec pf (vioLevelNone pf) CRLF [CR; LF] a st1
              eq_refl ltac:(cbn [length]; lia) Hidx Ha1 Hok)
    as (st2 & gs1 & E1 & D1 & Hch1 & _).
  assert (gs1 = []) as -> by (now apply (map_eq_nil g_ch)).
  rewrite E1. cbn [bind].
  pose proof D1 as D1'.
  destruct D1' as (_ & _ & _ & _ & _ & _ & _ & Hip & _ & _ & F & C & _
                   & a1 & a2 & Ha1' & Hd2 & Hf & Hok2).
  rewrite Ha1 in Ha1'. injection Ha1' as <-.
  pose proof (lookup_lt_Some _ _ _ Ha1) as Hlt.
  assert (Ha2 : display st2 !! Z.to_nat (vioLevelNone pf) = Some a2)
    by (rewrite Hd2; now apply list_lookup_insert_eq).
  assert (Hstr2 : c_string (ip_ascii st2) = Some t) by (now rewrite Hip).
  destruct (displayString_spec pf (vioLevelNone pf) (ip_ascii st2) t a2 st2
              Hstr2 Hlen Hidx Ha2 Hok2)
    as (st3 & gs2 & E2 & D2 & Hch2 & Hwell).
  exists st3, gs2. split; [exact E2|].
  split; [exact (drawn_on_trans _ _ _ _ _ _ D1 D2)|].
  split; [now rewrite Hch2, filter_printable_all|].
  rewrite F, C in Hwell. eapply Forall_impl; [exact Hwell|].
  intros g (Hin & Hg). split; [now apply (glyph_in_frame _ _ _ Hf) | exact Hg].
Qed.

Lemma ip6_string_printable (addr : list byte) :
  Forall (fun c => printable c = true) (ip6_string (hextets addr)).
Proof.
  eapply Forall_impl; [apply ip6_string_chars, hextets_range|].
  intros c [->|H]; [reflexivity | now apply (digit_printable 16)].
Qed.


(** What the states before and after the drawing of an address share. *)
Lemma shown_address_state (pf : platform) (a : displayArea) (st st0 st' : vio)
    (buf : list ascii) (gs : list glyph) :
  vio_ok st -> length buf = 40%nat ->
  vioSignalIn st0 = vioSignalIn st -> vioSignalOut st0 = vioSignalOut st ->
  vioPrintMem st0 = vioPrintMem st -> vioValue st0 = vioValue st ->
  vioValueXYZ st0 = vioValueXYZ st ->
  length (vioAddrIPv4 st0) = 2%nat -> length (vioAddrIPv6 st0) = 2%nat ->
  display st0 = display st -> screen st0 = screen st ->
  drawn_on (vioLevelNone pf)
    (set_screen (GUI_SetTextColor (GUI_COLOR_WHITE pf)
                   (GUI_SetFont Font12 (screen (set_ip_ascii buf st0))))
       (set_ip_ascii buf st0)) st' gs ->
  vio_ok st' /\ vioAddrIPv4 st' = vioAddrIPv4 st0 /\
  vioAddrIPv6 st' = vioAddrIPv6 st0 /\ ip_ascii st' = buf /\
  glyphs (screen st') = glyphs (screen st) ++ gs.
Proof.
  intros (S1 & S2 & P1 & P2 & V1 & V2 & _ & _ & _ & D)
         Hbuf E1 E2 E3 E4 E5 L4 L6 Ed Es
         (B1 & B2 & B3 & B4 & B5 & B6 & B7 & B8 & _ & _ & _ & _ & B13
          & a1 & a2 & _ & Hd & _).
  destruct st0. cbn in *. subst.
  unfold vio_ok. rewrite B1, B2, B3, B4, B5, Hd, length_insert.
  repeat split; try assumption; apply S1 || apply S2.
Qed.

(** X11.  [vioSetIPv6] with an id below 2 stores the 16-byte address so
    that [vioGetIPv6] gives it back (and the other id keeps its address),
    leaves in [ip_ascii] the text [ip6_2a] produces for it, and passes the
    characters of that text, in order, to [GUI_DisplayChar] in white
    [Font12], each at a cursor position inside the display area of
    [vioLevelNone].  The cursor position is the upper left corner of a
    character; nothing is said about how far the character reaches.  With
    an id of 2 or more it does nothing, and [vioGetIPv6] gives the all-zero
    address. *)
Theorem vioSetIPv6_stores_converts_and_shows :
  forall (pf : platform) (id id' : Z) (addr : list byte) (a : displayArea)
         (st : vio),
    vio_ok st -> length addr = 16%nat -> 0 <= id -> 0 <= id' ->
    0 <= vioLevelNone pf ->
    display st !! Z.to_nat (vioLevelNone pf) = Some a -> area_ok a ->
    (id < 2 ->
     exists st' gs,
       vioSetIPv6 pf id addr st = Done st' /\
       vio_ok st' /\
       vioGetIPv6 id st' = Done addr /\
       (id' <> id -> vioGetIPv6 id' st' = vioGetIPv6 id' st) /\
       c_string (ip_ascii st') = Some (ip6_string (hextets addr)) /\
       glyphs (screen st') = glyphs (screen st) ++ gs /\
       map g_ch gs = ip6_string (hextets addr) /\
       Forall (fun g => glyph_in a g /\ g_font g = Font12 /\
                        g_color g = GUI_COLOR_WHITE pf) gs) /\
    (2 <= id ->
     vioSetIPv6 pf id addr st = Done st /\
     vioGetIPv6 id st = Done (replicate 16 x00)).
Proof.
  intros pf id id' addr a st Hok Haddr Hid Hid' Hlev Ha Harea.
  unfold vioSetIPv6, vioGetIPv6, VIO_IPV6_ADDRESS_NUM. split; intros Hr.
  2: { destruct (Z.geb_spec id 2) as [_|?]; [|lia]. split; reflexivity. }
  destruct (Z.geb_spec id 2) as [?|_]; [lia|].
  pose proof Hok as (_ & _ & _ & _ & _ & _ & _ & L6 & Lip & _).
  destruct (load_store_same (vioAddrIPv6 st) id addr ltac:(lia))
    as (E & L & N).
  rewrite E. cbn [bind]. cbv zeta.
  cbn [vioAddrIPv6 set_vioAddrIPv6 ip_ascii]. rewrite L. cbn [bind].
  destruct (ip6_2a_string addr (ip_ascii st) 40 Haddr ltac:(lia) ltac:(lia))
    as (rest & Ebuf & Lbuf & Lt).
  rewrite Ebuf. cbn [bind].
  set (t := ip6_string (hextets addr)) in *.
  set (buf := t ++ NUL :: rest).
  set (st0 := set_vioAddrIPv6 (<[Z.to_nat id := addr]> (vioAddrIPv6 st)) st).
  assert (Hnz : Forall (fun c => c <> NUL) t).
  { eapply Forall_impl; [apply ip6_string_chars, hextets_range|].
    apply text_char_not_NUL. }
  assert (Hstr : c_string (ip_ascii (set_ip_ascii buf st0)) = Some t)
    by (now apply c_string_text).
  destruct (show_ip_ascii_spec pf t a (set_ip_ascii buf st0) Hstr
              ltac:(lia) (ip6_string_printable addr) Hlev Ha Harea)
    as (st' & gs & Eshow & Hdrawn & Hch & Hwell).
  assert (Hlen : length buf = 40%nat).
  { unfold buf. rewrite length_app. cbn [length]. lia. }
  destruct (shown_address_state pf a st st0 st' buf gs Hok Hlen)
    as (Hok' & _ & E6 & Eip & Eg); try reflexivity; try assumption.
  { apply Hok. }
  { unfold st0. cbn [vioAddrIPv6 set_vioAddrIPv6]. lia. }
  exists st', gs. split; [exact Eshow|]. split; [exact Hok'|].
  rewrite E6, Eip. unfold st0. cbn [vioAddrIPv6 set_vioAddrIPv6].
  split; [exact L|]. split.
  { intros Hne. destruct (id' >=? 2); [reflexivity|].
    now apply load_store_other. }
  split; [now apply c_string_text|]. split; [exact Eg|].
  split; [exact Hch | exact Hwell].
Qed.

Lemma vioSetIPv6_stores_converts_and_shows_witness :
  exists st' gs,
    vioSetIPv6 sample_platform 1
      (addr_of_hextets [8193; 3512; 0; 0; 0; 0; 0; 1]) ready_state = Done st' /\
    vio_ok st' /\
    vioGetIPv6 1 st' = Done (addr_of_hextets [8193; 3512; 0; 0; 0; 0; 0; 1]) /\
    (0 <> 1 -> vioGetIPv6 0 st' = vioGetIPv6 0 ready_state) /\
    c_string (ip_ascii st')
    = Some (ip6_string
              (hextets (addr_of_hextets [8193; 3512; 0; 0; 0; 0; 0; 1]))) /\
    glyphs (screen st') = glyphs (screen ready_state) ++ gs /\
    map g_ch gs
    = ip6_string (hextets (addr_of_hextets [8193; 3512; 0; 0; 0; 0; 0; 1])) /\
    Forall (fun g => glyph_in (mk_area 3 236 3 40 64 40 7 12) g /\
                     g_font g = Font12 /\
                     g_color g = GUI_COLOR_WHITE sample_platform) gs.
Proof.
  apply (vioSetIPv6_stores_converts_and_shows sample_platform 1 0
           (addr_of_hextets [8193; 3512; 0; 0; 0; 0; 0; 1])
           (mk_area 3 236 3 40 64 40 7 12) ready_state);
    try reflexivity; try lia.
  - apply ready_state_ok.
  - apply ready_state_area.
Defined.



(** ** [vioPrint] *)

Lemma vsnprintf_spec (mem text : list ascii) :
  length mem = 64%nat -> Forall (fun c => c <> NUL) text ->
  exists mem',
    vsnprintf mem VIO_PRINT_MAX_SIZE text
    = Done (Z.of_nat (length text), mem') /\
    length mem' = 64%nat /\ c_string mem' = Some (take 63 text).
Proof.
  intros Hmem Hnz. unfold vsnprintf, VIO_PRINT_MAX_SIZE.
  change (Z.to_nat (64 - 1)) with 63%nat.
  set (t := take 63 text).
  assert (Ht : (length t <= 63)%nat) by (unfold t; rewrite length_take; lia).
  change (write_chars mem 0 (t ++ [NUL]))
    with (write_chars ([] ++ mem) (Z.of_nat (length (@nil ascii)))
            (t ++ [NUL])).
  rewrite write_chars_at_cursor by (rewrite length_app; cbn [length]; lia).
  cbn [bind app]. eexists. split; [reflexivity|]. split.
  - rewrite length_app, length_drop, length_app. cbn [length]. lia.
  - rewrite <- app_assoc. apply c_string_text. now apply Forall_take.
Qed.

Lemma print_level_spec (pf : platform) (f : font) (c level : Z)
    (mem t : list ascii) (a : displayArea) (st : vio) :
  vio_ok st -> 0 <= level ->
  vioPrintMem st !! Z.to_nat level = Some mem ->
  c_string mem = Some t -> (length t <= 255)%nat ->
  display st !! Z.to_nat level = Some a -> area_ok a ->
  exists st' gs,
    print_level pf f c level st = Done st' /\
    vio_ok st' /\ vioPrintMem st' = vioPrintMem st /\
    glyphs (screen st') = glyphs (screen st) ++ gs /\
    map g_ch gs = filter (fun c => printable c = true) t /\
    drawn_well a f c gs.
Proof.
  intros Hok Hlev Hmem Hstr Hlen Ha Harea. unfold print_level.
  set (st1 := set_screen _ st).
  assert (E : load (vioPrintMem st1) level = Done mem)
    by (apply load_Done; assumption).
  rewrite E. cbn [bind].
  destruct (displayString_spec pf level mem t a st1 Hstr Hlen Hlev Ha Harea)
    as (st' & gs & E' & D & Hch & Hwell).
  exists st', gs. split; [exact E'|].
  destruct D as (B1 & B2 & B3 & B4 & B5 & B6 & B7 & B8 & _ & _ & _ & _ & B13
                 & a1 & a2 & _ & Hd & _).
  destruct Hok as (S1 & S2 & P1 & P2 & V1 & V2 & A4 & A6 & IP & D).
  split; [|split; [exact B3 | split; [exact B13 | split; [exact Hch|]]]].
  - unfold vio_ok. rewrite B1, B2, B3, B4, B5, B6, B7, B8, Hd, length_insert.
    repeat split; try assumption; apply S1 || apply S2.
  - exact Hwell.
Qed.

(** X13.  [vioPrint] with a level up to [vioLevelError] stores the text, cut
    after 63 characters and closed by a NUL, in the element of
    [vioPrintMem] for the level, returns the length of the whole text,
    passes the stored characters other than CR and LF to [GUI_DisplayChar],
    each at a cursor position inside the display area of the level and in
    the font and the colour of the level, and leaves the LCD set to dark
    blue [Font12].  The cursor position is the upper left corner of a
    character; nothing is said about how far the character reaches. *)
Theorem vioPrint_stores_and_draws_the_text :
  forall (pf : platform) (level : Z) (text : list ascii) (a : displayArea)
         (st : vio),
    vio_ok st -> 0 <= level <= vioLevelError pf -> vioLevelError pf < 4 ->
    NoDup [vioLevelNone pf; vioLevelHeading pf; vioLevelMessage pf;
           vioLevelError pf] ->
    Forall (fun c => c <> NUL) text ->
    display st !! Z.to_nat level = Some a -> area_ok a ->
    exists st' gs mem,
      vioPrint pf level text st = Done (Z.of_nat (length text), st') /\
      vio_ok st' /\
      vioPrintMem st' = <[Z.to_nat level := mem]> (vioPrintMem st) /\
      c_string mem = Some (take 63 text) /\
      glyphs (screen st') = glyphs (screen st) ++ gs /\
      text_font (screen st') = Font12 /\
      text_color (screen st') = GUI_COLOR_DARKBLUE pf /\
      (level = vioLevelNone pf ->
       map g_ch gs = filter (fun c => printable c = true) (take 63 text) /\
       drawn_well a Font12 (GUI_COLOR_WHITE pf) gs) /\
      (level = vioLevelHeading pf ->
       map g_ch gs = filter (fun c => printable c = true) (take 63 text) /\
       drawn_well a Font16 (GUI_COLOR_GREEN pf) gs) /\
      (level = vioLevelMessage pf ->
       map g_ch gs = filter (fun c => printable c = true) (take 63 text) /\
       drawn_well a Font12 (GUI_COLOR_BLUE pf) gs) /\
      (level = vioLevelError pf ->
       map g_ch gs = filter (fun c => printable c = true) (take 63 text) /\
       drawn_well a Font12 (GUI_COLOR_RED pf) gs).
Proof.
  intros pf level text a st Hok Hlev Herr Hdup Hnz Ha Harea.
  apply NoDup_cons in Hdup as [N1 Hdup].
  apply NoDup_cons in Hdup as [N2 Hdup].
  apply NoDup_cons in Hdup as [N3 _].
  repeat rewrite not_elem_of_cons in N1.
  repeat rewrite not_elem_of_cons in N2.
  repeat rewrite not_elem_of_cons in N3.
  destruct N1 as (? & ? & ? & _), N2 as (? & ? & _), N3 as (? & _).
  pose proof Hok as (S1 & S2 & P1 & P2 & V1 & V2 & A4 & A6 & IP & D).
  unfold vioPrint, VIO_PRINTMEM_NUM.
  destruct (Z.gtb_spec level (vioLevelError pf)) as [?|_]; [lia|].
  destruct (Z.gtb_spec level 4) as [?|_]; [lia|].
  destruct (lookup_lt_is_Some_2 (vioPrintMem st) (Z.to_nat level)
              ltac:(lia)) as [mem0 Hmem0].
  unfold vsnprintf_row.
  destruct (Z.ltb_spec level 0) as [?|_]; [lia|]. rewrite Hmem0.
  assert (L0 : length mem0 = 64%nat).
  { rewrite Forall_lookup in P2. exact (P2 _ _ Hmem0). }
  destruct (vsnprintf_spec mem0 text L0 Hnz) as (mem & Ev & Lmem & Hstr).
  rewrite Ev. cbn [bind]. cbv zeta.
  set (st1 := set_vioPrintMem _ st).
  assert (Hok1 : vio_ok st1).
  { unfold vio_ok, st1. cbn. rewrite length_insert.
    repeat split; try assumption; try apply S1; try apply S2.
    apply Forall_insert; assumption. }
  assert (Hmem1 : vioPrintMem st1 !! Z.to_nat level = Some mem).
  { unfold st1. cbn. apply list_lookup_insert_eq. lia. }
  assert (Ha1 : display st1 !! Z.to_nat level = Some a) by exact Ha.
  assert (Hlen : (length (take 63 text) <= 255)%nat)
    by (rewrite length_take; lia).
  assert (Hstyle : forall f c,
    exists st2 gs,
      print_level pf f c level st1 = Done st2 /\
      vio_ok st2 /\ vioPrintMem st2 = vioPrintMem st1 /\
      glyphs (screen st2) = glyphs (screen st1) ++ gs /\
      map g_ch gs = filter (fun c => printable c = true) (take 63 text) /\
      drawn_well a f c gs).
  { intros f c.
    apply (print_level_spec pf f c level mem (take 63 text) a st1);
      try assumption; lia. }
  assert (Hend : forall st2 gs,
    vio_ok st2 -> vioPrintMem st2 = vioPrintMem st1 ->
    glyphs (screen st2) = glyphs (screen st1) ++ gs ->
    let st' := set_screen (GUI_SetTextColor (GUI_COLOR_DARKBLUE pf)
                             (GUI_SetFont Font12 (screen st2))) st2 in
    vio_ok st' /\
    vioPrintMem st' = <[Z.to_nat level := mem]> (vioPrintMem st) /\
    c_string mem = Some (take 63 text) /\
    glyphs (screen st') = glyphs (screen st) ++ gs /\
    text_font (screen st') = Font12 /\
    text_color (screen st') = GUI_COLOR_DARKBLUE pf).
  { intros st2 gs Hok2 Hpm Hg. cbv zeta.
    split; [exact Hok2|]. split; [exact Hpm|]. split; [exact Hstr|].
    split; [exact Hg|]. split; reflexivity. }
  destruct (Z.eqb_spec level (vioLevelNone pf)) as [EN|NN];
    [|destruct (Z.eqb_spec level (vioLevelHeading pf)) as [EH|NH];
      [|destruct (Z.eqb_spec level (vioLevelMessage pf)) as [EM|NM];
        [|destruct (Z.eqb_spec level (vioLevelError pf)) as [EE|NE]]]].
  - destruct (Hstyle Font12 (GUI_COLOR_WHITE pf))
      as (st2 & gs & E2 & Hok2 & Hpm & Hg & Hch & Hwell).
    rewrite E2. cbn [bind]. eexists _, gs, mem. split; [reflexivity|].
    destruct (Hend st2 gs Hok2 Hpm Hg) as (? & ? & ? & ? & ? & ?).
    repeat (split; [assumption|]).
    repeat split; try assumption; intros; exfalso; congruence.
  - destruct (Hstyle Font16 (GUI_COLOR_GREEN pf))
      as (st2 & gs & E2 & Hok2 & Hpm & Hg & Hch & Hwell).
    rewrite E2. cbn [bind]. eexists _, gs, mem. split; [reflexivity|].
    destruct (Hend st2 gs Hok2 Hpm Hg) as (? & ? & ? & ? & ? & ?).
    repeat (split; [assumption|]).
    repeat split; try assumption; intros; exfalso; congruence.
  - destruct (Hstyle Font12 (GUI_COLOR_BLUE pf))
      as (st2 & gs & E2 & Hok2 & Hpm & Hg & Hch & Hwell).
    rewrite E2. cbn [bind]. eexists _, gs, mem. split; [reflexivity|].
    destruct (Hend st2 gs Hok2 Hpm Hg) as (? & ? & ? & ? & ? & ?).
    repeat (split; [assumption|]).
    repeat split; try assumption; intros; exfalso; congruence.
  - destruct (Hstyle Font12 (GUI_COLOR_RED pf))
      as (st2 & gs & E2 & Hok2 & Hpm & Hg & Hch & Hwell).
    rewrite E2. cbn [bind]. eexists _, gs, mem. split; [reflexivity|].
    destruct (Hend st2 gs Hok2 Hpm Hg) as (? & ? & ? & ? & ? & ?).
    repeat (split; [assumption|]).
    repeat split; try assumption; intros; exfalso; congruence.
  - cbn [bind]. eexists _, [], mem. split; [reflexivity|].
    destruct (Hend st1 [] Hok1 eq_refl ltac:(now rewrite app_nil_r))
      as (? & ? & ? & ? & ? & ?).
    repeat (split; [assumption|]).
    repeat split; intros; exfalso; congruence.
Qed.

Lemma vioPrint_stores_and_draws_the_text_witness :
  exists st' gs,
    vioPrint sample_platform 2 ["H"; "i"; LF]%char ready_state
    = Done (Z.of_nat (length ["H"; "i"; LF]%char), st') /\
    vio_ok st' /\
    glyphs (screen st') = glyphs (screen ready_state) ++ gs /\
    map g_ch gs
    = filter (fun c => printable c = true) (take 63 ["H"; "i"; LF]%char) /\
    drawn_well (mk_area 3 236 3 120 228 120 7 12) Font12
      (GUI_COLOR_BLUE sample_platform) gs.
Proof.
  destruct (vioPrint_stores_and_draws_the_text sample_platform 2
              ["H"; "i"; LF]%char (mk_area 3 236 3 120 228 120 7 12)
              ready_state)
    as (st' & gs & mem & E & Hok & _ & _ & Hg & _ & _ & _ & _ & HM & _).
  - apply ready_state_ok.
  - cbn; lia.
  - cbn; lia.
  - repeat constructor; cbn; rewrite ?not_elem_of_cons, ?elem_of_nil;
      intuition discriminate.
  - repeat constructor; discriminate.
  - reflexivity.
  - unfold area_ok; cbn; lia.
  - exists st', gs. split; [exact E|]. split; [exact Hok|].
    split; [exact Hg|]. apply HM. reflexivity.
Defined.

(** X14.  [vioPrint] with a level above [vioLevelError], or above 4, returns
    -1 and changes nothing: no text is stored or drawn, and the font and
    the colour of the LCD stay as they are.  The second check compares with
    [VIO_PRINTMEM_NUM] by [>], so it lets the level 4 itself pass: where
    [vioLevelError] is 4 or more, [vioPrint] with level 4 has [vsnprintf]
    write behind the end of the four rows of [vioPrintMem]. *)
Theorem vioPrint_refuses_high_levels :
  forall (pf : platform) (level : Z) (text : list ascii) (st : vio),
    (vioLevelError pf < level \/ 4 < level ->
     vioPrint pf level text st = Done (-1, st)) /\
    (level = 4 -> 4 <= vioLevelError pf ->
     length (vioPrintMem st) = 4%nat ->
     vioPrint pf level text st = Fault (WriteOutOfBounds 4)).
Proof.
  intros pf level text st. unfold vioPrint, VIO_PRINTMEM_NUM. split.
  - intros [H|H].
    + destruct (Z.gtb_spec level (vioLevelError pf)); [reflexivity | lia].
    + destruct (level >? vioLevelError pf); [reflexivity|].
      destruct (Z.gtb_spec level 4); [reflexivity | lia].
  - intros -> Herr Hlen.
    destruct (Z.gtb_spec 4 (vioLevelError pf)) as [?|_]; [lia|].
    cbn [Z.gtb Z.compare Pos.compare Pos.compare_cont].
    unfold vsnprintf_row. cbn [Z.ltb Z.compare].
    rewrite lookup_ge_None_2 by (rewrite Hlen; cbn; lia). reflexivity.
Qed.

Lemma vioPrint_refuses_high_levels_witness :
  vioPrint sample_platform 7 ["H"; "i"]%char ready_state
  = Done (-1, ready_state).
Proof.
  apply (proj1 (vioPrint_refuses_high_levels sample_platform 7
                  ["H"; "i"]%char ready_state)).
  right. lia.
Defined.

(** * The threads of [Blinky.c] *)

Lemma pow2_in_u32 (b : Z) : 0 <= b < 32 -> in_u32 (2 ^ b).
Proof.
  intros Hb. unfold in_u32. split; [apply Z.pow_nonneg; lia|].
  apply Z.pow_lt_mono_r; lia.
Qed.

Lemma pow2_testbit (b n : Z) :
  0 <= b -> 0 <= n -> Z.testbit (2 ^ b) n = (n =? b).
Proof.
  intros Hb Hn. destruct (Z.eqb_spec n b) as [->|Hne].
  - now apply Z.pow2_bits_true.
  - apply Z.pow2_bits_false. lia.
Qed.

(** The button's bit of the signal word, as [vioGetSignal] returns it. *)
Lemma vioGetSignal_button (pf : platform) (b pb : Z) (st : vio) :
  0 <= b < 32 -> vioBUTTON0 pf = 2 ^ b ->
  fst (vioGetSignal pf pb (vioBUTTON0 pf) st) = if pb =? 1 then 2 ^ b else 0.
Proof.
  intros Hb Eb. unfold vioGetSignal. rewrite Eb.
  rewrite land_bit_eqb, negb_involutive, Z.pow2_bits_true by lia.
  cbn [fst]. destruct (pb =? 1); cbn [vioSignalIn set_vioSignalIn];
    apply Z.bits_inj'; intros n Hn;
    rewrite ?Z.land_spec, ?Z.lor_spec, ?u32_lnot_testbit, ?Z.bits_0,
      ?pow2_testbit by lia;
    destruct (Z.eqb_spec n b), (Z.testbit (vioSignalIn st) n), (n <? 32);
    reflexivity.
Qed.

(** X15.  One pass of [thrButton], with a button mask of one bit: the new
    [last] is the button's bit, set when [BSP_PB_GetState] gave 1 and clear
    otherwise, and the flag is sent to [thrLED] exactly when that value is
    1 and [last] was not.  The comparison is with 1, so with a button mask
    other than bit 0 the flag is never sent. *)
Theorem thrButton_pass_sends_the_flag_on_a_press :
  forall (pf : platform) (b pb last : Z) (st : vio),
    0 <= b < 32 -> vioBUTTON0 pf = 2 ^ b ->
    let state := if pb =? 1 then 2 ^ b else 0 in
    let sent := fst (fst (thrButton_pass pf pb last st)) in
    snd (fst (thrButton_pass pf pb last st)) = state /\
    sent = (state =? 1) && negb (last =? 1) /\
    (b <> 0 -> sent = false) /\
    (b = 0 -> sent = (pb =? 1) && negb (last =? 1)).
Proof.
  intros pf b pb last st Hb Eb state sent.
  assert (Hstate : fst (vioGetSignal pf pb (vioBUTTON0 pf) st) = state)
    by (now apply vioGetSignal_button).
  assert (H1 : (state =? 1) = (pb =? 1) && (b =? 0)).
  { unfold state. destruct (pb =? 1); [|reflexivity]. cbn [andb].
    destruct (Z.eqb_spec b 0) as [->|Hne]; [reflexivity|].
    apply Z.eqb_neq. intros E.
    assert (2 ^ 1 <= 2 ^ b) by (apply Z.pow_le_mono_r; lia). lia. }
  assert (Hsent : snd (fst (thrButton_pass pf pb last st)) = state /\
                  sent = (state =? 1) && negb (last =? 1)).
  { unfold sent, thrButton_pass.
    destruct (vioGetSignal pf pb (vioBUTTON0 pf) st) as [s st1].
    cbn [fst] in Hstate. subst s.
    destruct (Z.eqb_spec state last) as [<-|Hne]; cbn [negb fst snd].
    - split; [reflexivity|]. now destruct (state =? 1).
    - split; [reflexivity|].
      destruct (Z.eqb_spec state 1) as [E|_]; [|reflexivity].
      destruct (Z.eqb_spec last 1); [congruence | reflexivity]. }
  destruct Hsent as [E1 E2]. split; [exact E1|]. split; [exact E2|].
  rewrite E2, H1. split.
  - intros Hne. destruct (Z.eqb_spec b 0); [contradiction|].
    now rewrite andb_false_r.
  - intros ->. now rewrite andb_true_r.
Qed.

Lemma thrButton_pass_sends_the_flag_on_a_press_witness :
  snd (fst (thrButton_pass sample_platform 1 0 ready_state))
  = (if 1 =? 1 then 2 ^ 0 else 0) /\
  fst (fst (thrButton_pass sample_platform 1 0 ready_state))
  = ((if 1 =? 1 then 2 ^ 0 else 0) =? 1) && negb (0 =? 1).
Proof.
  destruct (thrButton_pass_sends_the_flag_on_a_press sample_platform 0 1 0
              ready_state ltac:(lia) eq_refl) as (E1 & E2 & _).
  split; [exact E1 | exact E2].
Defined.

(** [vioSetSignal] on the mask of a single bit. *)
Lemma vioSetSignal_one_bit (pf : platform) (b0 b1 b signal : Z) (st : vio) :
  0 <= b0 < 32 -> vioLED0 pf = 2 ^ b0 ->
  0 <= b1 < 32 -> vioLED1 pf = 2 ^ b1 ->
  0 <= b < 32 -> in_u32 (vioSignalOut st) ->
  let st' := vioSetSignal pf (2 ^ b) signal st in
  in_u32 (vioSignalOut st') /\
  (forall n, 0 <= n ->
     Z.testbit (vioSignalOut st') n
     = if n =? b then Z.testbit signal b else Z.testbit (vioSignalOut st) n) /\
  led_red st' = (if b0 =? b then Z.testbit signal b0 else led_red st) /\
  led_green st' = (if b1 =? b then Z.testbit signal b1 else led_green st).
Proof.
  intros Hb0 E0 Hb1 E1 Hb Hout st'.
  pose proof (pow2_in_u32 b Hb) as Hmask.
  split; [now apply vioSetSignal_in_u32|]. split.
  - intros n Hn. unfold st'.
    rewrite vioSetSignal_testbit, pow2_testbit by (assumption || lia).
    destruct (Z.eqb_spec n b) as [->|_]; reflexivity.
  - unfold st', vioSetSignal.
    set (st1 := set_vioSignalOut _ st).
    pose proof (drive_led_leds (vioLED0 pf) true (2 ^ b) signal st1)
      as [R0 G0].
    pose proof (drive_led_leds (vioLED1 pf) false (2 ^ b) signal
                  (drive_led (vioLED0 pf) true (2 ^ b) signal st1))
      as [R1 G1].
    cbv zeta in R0, G0, R1, G1.
    rewrite R1, G1, R0, G0. rewrite E0, E1.
    rewrite !land_bit_eqb, !negb_involutive, !pow2_testbit by lia.
    rewrite !andb_true_r, !andb_false_r. cbn [negb].
    change (led_red st1) with (led_red st).
    change (led_green st1) with (led_green st).
    split; reflexivity.
Qed.

(** X16.  One pass of [thrLED], with LED masks of one bit each and levels
    [vioLEDon] and [vioLEDoff] that have those bits set and clear.
    [active_flag] changes between 0 and 1 exactly when the thread flag
    arrived.  With [active_flag] 1 the pass ends with the red LED on and
    the green one off; with 0 it ends with the red LED off and does not
    touch the green one.  The bits of [vioSignalOut] for the two LEDs end
    the same way, and no other bit changes. *)
Theorem thrLED_pass_blinks :
  forall (pf : platform) (lv : led_levels) (b0 b1 flags active_flag : Z)
         (st : vio),
    0 <= b0 < 32 -> vioLED0 pf = 2 ^ b0 ->
    0 <= b1 < 32 -> vioLED1 pf = 2 ^ b1 -> b0 <> b1 ->
    Z.testbit (vioLEDon lv) b0 = true -> Z.testbit (vioLEDon lv) b1 = true ->
    Z.testbit (vioLEDoff lv) b0 = false ->
    Z.testbit (vioLEDoff lv) b1 = false ->
    in_u32 (vioSignalOut st) -> active_flag = 0 \/ active_flag = 1 ->
    let active' := fst (thrLED_pass pf lv flags active_flag st) in
    let st' := snd (thrLED_pass pf lv flags active_flag st) in
    active' = (if flags =? 1 then 1 - active_flag else active_flag) /\
    in_u32 (vioSignalOut st') /\
    (active' = 1 ->
     led_red st' = true /\ led_green st' = false /\
     Z.testbit (vioSignalOut st') b0 = true /\
     Z.testbit (vioSignalOut st') b1 = false) /\
    (active' = 0 ->
     led_red st' = false /\ led_green st' = led_green st /\
     Z.testbit (vioSignalOut st') b0 = false /\
     Z.testbit (vioSignalOut st') b1 = Z.testbit (vioSignalOut st) b1) /\
    (forall n, 0 <= n -> n <> b0 -> n <> b1 ->
       Z.testbit (vioSignalOut st') n = Z.testbit (vioSignalOut st) n).
Proof.
  intros pf lv b0 b1 flags af st Hb0 E0 Hb1 E1 Hne On0 On1 Off0 Off1 Hout Haf
         active' st'.
  assert (Hact : active' = (if flags =? 1 then 1 - af else af)).
  { unfold active', thrLED_pass.
    assert (E : (if flags =? 1 then Z.lxor af 1 else af)
                = (if flags =? 1 then 1 - af else af))
      by (destruct (flags =? 1); [destruct Haf as [->| ->]|]; reflexivity).
    cbv zeta. rewrite E.
    destruct ((if flags =? 1 then 1 - af else af) =? 1); reflexivity. }
  assert (Hcase : active' = 0 \/ active' = 1)
    by (rewrite Hact; destruct (flags =? 1); lia).
  split; [exact Hact|].
  unfold active', st', thrLED_pass in *. cbv zeta in *.
  set (af' := if flags =? 1 then Z.lxor af 1 else af) in *.
  rewrite E0, E1.
  destruct (Z.eqb_spec af' 1) as [Eaf|Naf]; cbn [fst snd] in *.
  - destruct (vioSetSignal_one_bit pf b0 b1 b0 (vioLEDoff lv) st)
      as (U1 & T1 & R1 & G1); try assumption.
    set (st1 := vioSetSignal pf (2 ^ b0) (vioLEDoff lv) st) in *.
    destruct (vioSetSignal_one_bit pf b0 b1 b1 (vioLEDon lv) st1)
      as (U2 & T2 & R2 & G2); try assumption.
    set (st2 := vioSetSignal pf (2 ^ b1) (vioLEDon lv) st1) in *.
    destruct (vioSetSignal_one_bit pf b0 b1 b0 (vioLEDon lv) st2)
      as (U3 & T3 & R3 & G3); try assumption.
    set (st3 := vioSetSignal pf (2 ^ b0) (vioLEDon lv) st2) in *.
    destruct (vioSetSignal_one_bit pf b0 b1 b1 (vioLEDoff lv) st3)
      as (U4 & T4 & R4 & G4); try assumption.
    cbv zeta in *.
    split; [exact U4|]. split; [|split; [lia|]].
    + intros _. rewrite R4, G4, R3, !T4, !T3 by lia.
      rewrite !Z.eqb_refl.
      destruct (Z.eqb_spec b0 b1); [contradiction|].
      destruct (Z.eqb_spec b1 b0); [congruence|].
      repeat split; assumption.
    + intros n Hn N0 N1. rewrite T4, T3, T2, T1 by lia.
      destruct (Z.eqb_spec n b0), (Z.eqb_spec n b1);
        try contradiction; reflexivity.
  - destruct (vioSetSignal_one_bit pf b0 b1 b0 (vioLEDon lv) st)
      as (U1 & T1 & R1 & G1); try assumption.
    set (st1 := vioSetSignal pf (2 ^ b0) (vioLEDon lv) st) in *.
    destruct (vioSetSignal_one_bit pf b0 b1 b0 (vioLEDoff lv) st1)
      as (U2 & T2 & R2 & G2); try assumption.
    cbv zeta in *.
    split; [exact U2|]. split; [lia|]. split.
    + intros _. rewrite R2, G2, G1, !T2, !T1 by lia.
      rewrite !Z.eqb_refl.
      destruct (Z.eqb_spec b1 b0); [congruence|].
      repeat split; assumption.
    + intros n Hn N0 N1. rewrite T2, T1 by lia.
      destruct (Z.eqb_spec n b0); try contradiction; reflexivity.
Qed.

Lemma thrLED_pass_blinks_witness :
  fst (thrLED_pass sample_platform sample_levels 1 0 ready_state)
  = (if 1 =? 1 then 1 - 0 else 0) /\
  in_u32 (vioSignalOut
            (snd (thrLED_pass sample_platform sample_levels 1 0 ready_state))).
Proof.
  destruct (thrLED_pass_blinks sample_platform sample_levels 0 1 1 0
              ready_state) as (E1 & E2 & _);
    try reflexivity; try lia.
  - unfold in_u32. change (vioSignalOut ready_state) with 0. lia.
  - split; [exact E1 | exact E2].
Defined.
